(** * compgraph: a shallow embedding of the operator algebra and the graph builder

    The development follows [compgraph/operations.py] and [compgraph/graph.py].

    - A stream is a finite list of rows: generators are taken with all
      they yield, which is what [Graph.run] does when it returns
      [list(current_generator)].
    - A row is a Python [dict], kept as an association list in insertion
      order; the values of the fields are of an arbitrary type [V] with
      decidable equality (Python's [==]) and, where key tuples are compared,
      a comparison [vle] (Python's [<=]).
    - A call returns a value, raises an exception, or - only in the
      definitions that carry fuel - runs out of fuel.  When one run meets
      several faults, the list model and the lazy pipeline may report
      different ones of them: the pipeline reports the one it reaches
      first.
    - Objects that the code mutates are kept in a store: the list of stages
      of a graph, and the rows handed to the mappers that assign to a
      column. *)

From stdpp Require Import base option list sorting strings gmap.


(** ** Outcomes of Python calls *)

Inductive exn : Type :=
  | KeyError
  | AttributeError
  | TypeError
  | AssertionError
  | OSError.

Global Instance exn_eq_dec : EqDecision exn.
Proof. solve_decision. Defined.

Inductive outcome (A : Type) : Type :=
  | Returns (a : A)
  | Raises (e : exn)
  | OutOfFuel.
Arguments Returns {A} a.
Arguments Raises {A} e.
Arguments OutOfFuel {A}.

Global Instance outcome_eq_dec {A} `{EqDecision A} : EqDecision (outcome A).
Proof. solve_decision. Defined.

Global Instance outcome_ret : MRet outcome := λ A a, Returns a.
Global Instance outcome_bind : MBind outcome := λ A B f m,
  match m with
  | Returns a => f a
  | Raises e => Raises e
  | OutOfFuel => OutOfFuel
  end.
Global Instance outcome_fmap : FMap outcome := λ A B f m,
  match m with
  | Returns a => Returns (f a)
  | Raises e => Raises e
  | OutOfFuel => OutOfFuel
  end.

(** [for x in xs: yield from f(x)], drained into a list. *)
Fixpoint yield_from_each {A B} (f : A → outcome (list B)) (xs : list A)
    : outcome (list B) :=
  match xs with
  | [] => Returns []
  | x :: xs' => ys ← f x; zs ← yield_from_each f xs'; Returns (ys ++ zs)
  end.

(** [[f(x) for x in xs]]. *)
Fixpoint each {A B} (f : A → outcome B) (xs : list A) : outcome (list B) :=
  match xs with
  | [] => Returns []
  | x :: xs' => y ← f x; ys ← each f xs'; Returns (y :: ys)
  end.

(** ** Rows: Python dicts in insertion order *)

Section dict.
Context {V : Type}.

Definition dict_keys (d : list (string * V)) : list string := d.*1.

Fixpoint dict_get (d : list (string * V)) (k : string) : option V :=
  match d with
  | [] => None
  | (k', v) :: d' => if decide (k = k') then Some v else dict_get d' k
  end.

(** [d[k]] *)
Definition getitem (d : list (string * V)) (k : string) : outcome V :=
  match dict_get d k with
  | Some v => Returns v
  | None => Raises KeyError
  end.

(** [d[k] = v]: an existing key keeps its position, a new one goes last. *)
Fixpoint dict_set (d : list (string * V)) (k : string) (v : V)
    : list (string * V) :=
  match d with
  | [] => [(k, v)]
  | (k', v') :: d' =>
      if decide (k = k') then (k, v) :: d' else (k', v') :: dict_set d' k v
  end.

(** One step of [{name(k): d[k] for k in d.keys()}]: the entry for the
    key [k] is added to [acc]. *)
Definition dict_comp_step (name : string → string) (d acc : list (string * V))
    (k : string) : list (string * V) :=
  match dict_get d k with
  | Some v => dict_set acc (name k) v
  | None => acc
  end.

(** [{name(k): d[k] for k in d.keys()}] *)
Definition dict_comp (name : string → string) (d : list (string * V))
    : list (string * V) :=
  foldl (dict_comp_step name d) [] (dict_keys d).

(** [d1 | d2] *)
Definition dict_union (d1 d2 : list (string * V)) : list (string * V) :=
  foldl (λ acc kv, dict_set acc kv.1 kv.2) d1 d2.
End dict.

(** ** [itertools.groupby] *)

Section groupby.
Context {A K : Type} `{EqDecision K}.
Variable key : A → outcome K.

(** The consecutive runs of equal keys, each with its key, as the list of
    the pairs the iterator produces.  The key function is applied to every
    element; the first failure is raised. *)
Fixpoint groupby (l : list A) : outcome (list (K * list A)) :=
  match l with
  | [] => Returns []
  | x :: l' =>
      k ← key x;
      gs ← groupby l';
      Returns match gs with
              | (k', g) :: gs' =>
                  if decide (k = k') then (k, x :: g) :: gs'
                  else (k, [x]) :: gs
              | [] => [(k, [x])]
              end
  end.

(** The elements at the front of [l] whose key is [k], and what follows
    them: how the iterator reads one group. *)
Fixpoint run_of (k : K) (l : list A) : list A :=
  match l with
  | [] => []
  | y :: l' => if decide (key y = Returns k) then y :: run_of k l' else []
  end.

Fixpoint after_run (k : K) (l : list A) : list A :=
  match l with
  | [] => []
  | y :: l' => if decide (key y = Returns k) then after_run k l' else l
  end.
End groupby.

(** ** [compgraph/operations.py] *)

Section operations.
Context {V : Type} `{EqDecision V}.

(** Python's [a <= b] on the values carried by key fields. *)
Variable vle : V → V → bool.

Local Abbreviation TRow := (list (string * V)).

(** [x >= y] on two key tuples: the first position where the tuples
    differ decides, a proper prefix is the smaller tuple. *)
Fixpoint tuple_ge (x y : list V) : bool :=
  match x, y with
  | a :: x', b :: y' => if decide (a = b) then tuple_ge x' y' else vle b a
  | _, [] => true
  | [], _ :: _ => false
  end.

(** *** Map *)

(** [Map.__call__] *)
Definition Map_call {O} (mapper : TRow → outcome (list O))
    (rows : list TRow) : outcome (list O) :=
  yield_from_each mapper rows.

(** *** Reduce *)

(** [[row[key] for key in self.keys]] *)
Definition get_value (keys : list string) (row : TRow) : outcome (list V) :=
  each (getitem row) keys.

(** [Reduce.__call__]; the rows the reducer yields may be of any type, so
    that a reducer that yields its group shows the calls that are made. *)
Definition Reduce_call {O}
    (reducer : list string → list TRow → outcome (list O))
    (keys : list string) (rows : list TRow) : outcome (list O) :=
  gs ← groupby (get_value keys) rows;
  yield_from_each (λ kg, reducer keys kg.2) gs.

(** *** Joiners *)

(** What a joiner is handed for one side: a group taken from
    [itertools.groupby], which is always true in a boolean context, or a
    list, which is true when it is not empty. *)
Inductive iterable : Type :=
  | Grouper (rows : list TRow)
  | PyList (rows : list TRow).

Definition iter (it : iterable) : list TRow :=
  match it with Grouper rows | PyList rows => rows end.

Definition truthy (it : iterable) : bool :=
  match it with
  | Grouper _ => true
  | PyList rows => bool_decide (rows ≠ [])
  end.

(** The attributes of a [Joiner] object. *)
Record Joiner : Type := { _a_suffix : string; _b_suffix : string }.

(** [Joiner.__init__] with its default arguments. *)
Definition Joiner_init : Joiner := {| _a_suffix := "_1"; _b_suffix := "_2" |}.

(** [{k for k in row.keys() if k in other and k not in keys}] *)
Definition common_fields (keys : list string) (row other : TRow)
    : gset string :=
  list_to_set
    (filter (λ k, k ∈ dict_keys other ∧ k ∉ keys) (dict_keys row)).

(** [k + suffix if k in names else k] *)
Definition suffixed (suffix : string) (names : gset string) (k : string)
    : string :=
  if decide (k ∈ names) then k +:+ suffix else k.

(** The two local variables [suffix_a] and [suffix_b] of [_inner_join];
    [None] is Python's [None]. *)
Definition suffix_state : Type := option (gset string) * option (gset string).

(** The dictionary [res] built from one pair of rows. *)
Definition joined_row (self : Joiner) (suffix_a suffix_b : gset string)
    (row_a row_b : TRow) : TRow :=
  dict_union (dict_comp (suffixed (_a_suffix self) suffix_a) row_a)
             (dict_comp (suffixed (_b_suffix self) suffix_b) row_b).

(** The body of the inner [for] of [_inner_join] on one pair of rows. *)
Definition join_pair (self : Joiner) (keys : list string)
    (st : suffix_state) (row_a row_b : TRow) : TRow * suffix_state :=
  let suffix_a := default (common_fields keys row_a row_b) st.1 in
  let suffix_b := default (common_fields keys row_b row_a) st.2 in
  (joined_row self suffix_a suffix_b row_a row_b,
   (Some suffix_a, Some suffix_b)).

(** [for row_b in rows_b_cp: ...] for one [row_a]: the rows yielded and the
    two local variables afterwards. *)
Fixpoint for_row_b (self : Joiner) (keys : list string) (st : suffix_state)
    (row_a : TRow) (rows_b_cp : list TRow) : list TRow * suffix_state :=
  match rows_b_cp with
  | [] => ([], st)
  | row_b :: rest =>
      let '(res, st1) := join_pair self keys st row_a row_b in
      let '(out, st2) := for_row_b self keys st1 row_a rest in
      (res :: out, st2)
  end.

(** [for row_a in rows_a: for row_b in rows_b_cp: ...] *)
Fixpoint for_row_a (self : Joiner) (keys : list string) (st : suffix_state)
    (rows_a rows_b_cp : list TRow) : list TRow * suffix_state :=
  match rows_a with
  | [] => ([], st)
  | row_a :: rest =>
      let '(out1, st1) := for_row_b self keys st row_a rows_b_cp in
      let '(out2, st2) := for_row_a self keys st1 rest rows_b_cp in
      (out1 ++ out2, st2)
  end.

(** [Joiner._inner_join]: [rows_b] is copied into a list, the two local
    variables start as [None]. *)
Definition _inner_join (self : Joiner) (keys : list string)
    (rows_a rows_b : iterable) : list TRow :=
  (for_row_a self keys (None, None) (iter rows_a) (iter rows_b)).1.

(** [InnerJoiner.__call__] *)
Definition InnerJoiner (self : Joiner) (keys : list string)
    (rows_a rows_b : iterable) : outcome (list TRow) :=
  if truthy rows_a || truthy rows_b
  then Returns (_inner_join self keys rows_a rows_b)
  else Returns [].

(** [OuterJoiner.__call__] *)
Definition OuterJoiner (self : Joiner) (keys : list string)
    (rows_a rows_b : iterable) : outcome (list TRow) :=
  let rows_b_cp := iter rows_b in
  if negb (truthy rows_a) then Returns rows_b_cp
  else if bool_decide (rows_b_cp = []) then Returns (iter rows_a)
  else Returns (_inner_join self keys rows_a (PyList rows_b_cp)).

(** [LeftJoiner.__call__] *)
Definition LeftJoiner (self : Joiner) (keys : list string)
    (rows_a rows_b : iterable) : outcome (list TRow) :=
  let rows_b_cp := iter rows_b in
  if negb (truthy rows_a) then Returns []
  else if bool_decide (rows_b_cp = []) then Returns (iter rows_a)
  else Returns (_inner_join self keys rows_a (PyList rows_b_cp)).

(** [RightJoiner.__call__] *)
Definition RightJoiner (self : Joiner) (keys : list string)
    (rows_a rows_b : iterable) : outcome (list TRow) :=
  if negb (truthy rows_b) then Returns []
  else if negb (truthy rows_a) then Returns (iter rows_b)
  else Returns (_inner_join self keys rows_a rows_b).

(** *** Join *)

(** [tuple(row[key] for key in self.keys)] *)
Definition grouper (keys : list string) (row : TRow) : outcome (list V) :=
  each (getitem row) keys.

(** [next(iterable_obj)], with [None] for the pair [(None, None)] that is
    returned once the iterator is exhausted. *)
Definition take_next_from_iterable {X} (iterable_obj : list X)
    : option X * list X :=
  match iterable_obj with
  | x :: rest => (Some x, rest)
  | [] => (None, [])
  end.

(** The variables of the [while True] loop at its head.  [cur_a] holds
    the pair [(key_a, group_a)]. *)
Record join_state : Type := JoinState {
  need_take_a : bool;
  need_take_b : bool;
  cur_a : option (list V * list TRow);
  cur_b : option (list V * list TRow);
  groups_a : list (list V * list TRow);
  groups_b : list (list V * list TRow)
}.

(** [group or []] *)
Definition or_empty (cur : option (list V * list TRow)) : iterable :=
  match cur with
  | Some (_, group) => Grouper group
  | None => PyList []
  end.

(** What one iteration of the loop does. *)
Inductive join_step_result : Type :=
  | Break
  | Invoke (rows_a rows_b : iterable) (st : join_state).

(** One iteration of the loop: either [break], or the arguments of the
    joiner call of the branch taken and the state at the next loop head. *)
Definition join_step (st : join_state) : join_step_result :=
  let '(ca, ga) := if need_take_a st
                   then take_next_from_iterable (groups_a st)
                   else (cur_a st, groups_a st) in
  let '(cb, gb) := if need_take_b st
                   then take_next_from_iterable (groups_b st)
                   else (cur_b st, groups_b st) in
  match ca, cb with
  | None, None => Break
  | _, _ =>
      let key_a := fst <$> ca in
      let key_b := fst <$> cb in
      if decide (key_a = key_b) then
        Invoke (or_empty ca) (or_empty cb) (JoinState true true ca cb ga gb)
      else if match key_a, key_b with
              | Some _, None => true
              | Some ka, Some kb => tuple_ge kb ka
              | None, _ => false
              end then
        Invoke (or_empty ca) (PyList []) (JoinState true false ca cb ga gb)
      else
        Invoke (PyList []) (or_empty cb) (JoinState false true ca cb ga gb)
  end.

(** The [while True] loop, for at most [fuel] iterations. *)
Fixpoint join_loop {O}
    (joiner : list string → iterable → iterable → outcome (list O))
    (keys : list string) (fuel : nat) (st : join_state)
    : outcome (list O) :=
  match fuel with
  | 0 => OutOfFuel
  | S fuel' =>
      match join_step st with
      | Break => Returns []
      | Invoke rows_a rows_b st' =>
          ys ← joiner keys rows_a rows_b;
          zs ← join_loop joiner keys fuel' st';
          Returns (ys ++ zs)
      end
  end.

(** The number of groups not yet delivered to the joiner. *)
Definition pending (st : join_state) : nat :=
  (if need_take_a st then 0 else if cur_a st is Some _ then 1 else 0)
  + (if need_take_b st then 0 else if cur_b st is Some _ then 1 else 0)
  + length (groups_a st) + length (groups_b st).

(** The variables before the loop. *)
Definition join_init (ga gb : list (list V * list TRow)) : join_state :=
  JoinState true true None None ga gb.

(** [Join.__call__(rows, rows_b)]: the two streams are grouped and the
    loop is given one iteration more than there are groups, which it never
    uses up. *)
Definition Join_call {O}
    (joiner : list string → iterable → iterable → outcome (list O))
    (keys : list string) (rows rows_b : list TRow) : outcome (list O) :=
  ga ← groupby (grouper keys) rows;
  gb ← groupby (grouper keys) rows_b;
  join_loop joiner keys (S (pending (join_init ga gb))) (join_init ga gb).
End operations.

Arguments iterable V : clear implicits.
Arguments join_state V : clear implicits.
Arguments join_step_result V : clear implicits.

(** ** [compgraph/external_sort.py] *)

Section external_sort.
Context {A : Type}.

(** [le x y]: the key tuple of [x] is not greater than that of [y]. *)
Variable le : A → A → bool.

(** Modelled from the spec: the in-memory sort of one buffer of the missing
    [external_sort.py], by insertion.  A record goes in front of the first
    record that is not smaller, so records with equal keys keep the order in
    which they arrived. *)
Fixpoint insert_sorted (x : A) (l : list A) : list A :=
  match l with
  | [] => [x]
  | y :: l' => if le x y then x :: l else y :: insert_sorted x l'
  end.

(** Modelled from the spec: a full buffer of the missing
    [external_sort.py] is sorted by the key tuple. *)
Definition sort_buffer (buffer : list A) : list A :=
  foldr insert_sorted [] buffer.

(** Modelled from the spec: the run generation of the missing
    [external_sort.py].  Records are accumulated in [buffer]; a buffer that
    has reached [run_size] is sorted and spilled as a run, and what is left
    at the end of the input is the last run. *)
Fixpoint make_runs (run_size : nat) (buffer rows : list A)
    : list (list A) :=
  match rows with
  | [] => match buffer with [] => [] | _ :: _ => [sort_buffer buffer] end
  | row :: rows' =>
      let buffer' := buffer ++ [row] in
      if decide (run_size ≤ length buffer')
      then sort_buffer buffer' :: make_runs run_size [] rows'
      else make_runs run_size buffer' rows'
  end.

(** Modelled from the spec: one pop of the min-heap that holds the head
    of every run.  The smallest head is removed from its run; among equal
    heads the one of the earliest run is taken. *)
Fixpoint pop_min (runs : list (list A)) : option (A * list (list A)) :=
  match runs with
  | [] => None
  | [] :: runs' => pop_min runs'
  | (x :: run) :: runs' =>
      match pop_min runs' with
      | Some (y, rest) =>
          if le x y then Some (x, run :: runs')
          else Some (y, (x :: run) :: rest)
      | None => Some (x, run :: runs')
      end
  end.

(** Modelled from the spec: the merged stream of the missing
    [external_sort.py], one pop after the other, [fuel] pops at most. *)
Fixpoint merge_runs (fuel : nat) (runs : list (list A)) : list A :=
  match fuel with
  | 0 => []
  | S fuel' =>
      match pop_min runs with
      | Some (x, rest) => x :: merge_runs fuel' rest
      | None => []
      end
  end.

(** Modelled from the spec: the k-way merge of the missing
    [external_sort.py]; one pop for every record held by the runs. *)
Definition kway_merge (runs : list (list A)) : list A :=
  merge_runs (length (concat runs)) runs.
End external_sort.

Section ExternalSort.
Context {V : Type} `{EqDecision V}.
Variable vle : V → V → bool.

Local Abbreviation TRow := (list (string * V)).

(** Modelled from the spec: the missing [external_sort.py] compares two
    records by their key tuples. *)
Definition keyed_le (x y : list V * TRow) : bool := tuple_ge vle y.1 x.1.

(** Modelled from the spec: the sort stage [ExternalSort(keys)] of the
    missing [external_sort.py].  A row without one of the key fields makes
    the stage fail; otherwise the rows are cut into sorted runs of
    [run_size] records that are merged. *)
Definition ExternalSort (run_size : nat) (keys : list string)
    (rows : list TRow) : outcome (list TRow) :=
  keyed ← each (λ row, k ← grouper keys row; Returns (k, row)) rows;
  Returns (kway_merge keyed_le (make_runs keyed_le run_size [] keyed)).*2.
End ExternalSort.

(** ** [compgraph/graph.py] *)

(** Addresses of the Python list objects that hold the stages of a graph. *)
Abbreviation loc := positive.

Section graph.
Context {V : Type} `{EqDecision V}.
Variable vle : V → V → bool.

(** The run size the sort stage is configured with. *)
Variable run_size : nat.

(** The files [open] can read, as the lines of each. *)
Variable files : gmap string (list string).

Local Abbreviation TRow := (list (string * V)).

(** The slots of a [Graph] object; a slot that was never assigned is
    [None].  [operations] is assigned by [__init__] and refers to a list
    object of the store. *)
Record Graph : Type := {
  source_type : option string;
  source : option string;
  parser : option (string → outcome TRow);
  fabric : option unit;
  operations : loc;
  return_list : option bool
}.

(** The callables kept in the list [operations]: instances of [ops.Map],
    [ops.Reduce] and [sort.ExternalSort], and the closure [join_op] with
    the joiner, the graph and the keys it captured. *)
Inductive Operation : Type :=
  | ops_Map (mapper : TRow → outcome (list TRow))
  | ops_Reduce (reducer : list string → list TRow → outcome (list TRow))
      (keys : list string)
  | sort_ExternalSort (keys : list string)
  | join_op (joiner : list string → iterable V → iterable V → outcome (list TRow))
      (join_graph : Graph) (keys : list string).

(** [getattr(self, slot)] *)
Definition getattr {X} (slot : option X) : outcome X :=
  match slot with
  | Some x => Returns x
  | None => Raises AttributeError
  end.

(** The first statement of [run]: the stream the graph starts from.  A
    named input is a thunk that returns an iterator over its rows. *)
Definition run_source (self : Graph) (kwargs : gmap string (list TRow))
    : outcome (list TRow) :=
  st ← getattr (source_type self);
  if decide (st = "generator") then
    name ← getattr (source self);
    match kwargs !! name with
    | Some rows => Returns rows
    | None => Raises KeyError
    end
  else
    _ ← getattr (fabric self);
    filename ← getattr (source self);
    parse ← getattr (parser self);
    match files !! filename with
    | Some lines => each parse lines
    | None => Raises OSError
    end.

(** [operation(current_generator, **new_kwargs)]; [run_graph] is the
    method [run] that [join_op] calls on the graph it captured. *)
Definition call_operation
    (run_graph : Graph → gmap string (list TRow) → outcome (list TRow))
    (operation : Operation) (current_generator : list TRow)
    (kwargs : gmap string (list TRow)) : outcome (list TRow) :=
  match operation with
  | ops_Map mapper => Map_call mapper current_generator
  | ops_Reduce reducer keys => Reduce_call reducer keys current_generator
  | sort_ExternalSort keys => ExternalSort vle run_size keys current_generator
  | join_op joiner join_graph keys =>
      right_generator ← run_graph join_graph kwargs;
      Join_call vle joiner keys current_generator right_generator
  end.

(** The [for] loop of [run]. *)
Fixpoint run_operations
    (run_graph : Graph → gmap string (list TRow) → outcome (list TRow))
    (ops : list Operation) (current_generator : list TRow)
    (kwargs : gmap string (list TRow)) : outcome (list TRow) :=
  match ops with
  | [] => Returns current_generator
  | operation :: ops' =>
      next ← call_operation run_graph operation current_generator kwargs;
      run_operations run_graph ops' next kwargs
  end.

(** [Graph.run]; [fuel] bounds how deep joined graphs are nested. *)
Fixpoint run (fuel : nat) (σ : gmap loc (list Operation)) (self : Graph)
    (kwargs : gmap string (list TRow)) : outcome (list TRow) :=
  match fuel with
  | 0 => OutOfFuel
  | S fuel' =>
      current_generator ← run_source self kwargs;
      run_operations (run fuel' σ) (default [] (σ !! operations self))
        current_generator kwargs
  end.

(** [Graph([])] followed by the three [setattr] of [graph_from_iter]. *)
Definition graph_from_iter (name : string) (σ : gmap loc (list Operation))
    : Graph * gmap loc (list Operation) :=
  let l := fresh (dom σ) in
  ({| source_type := Some "generator"; source := Some name;
      parser := None; fabric := None; operations := l;
      return_list := Some true |},
   <[l := []]> σ).

(** [Graph([])] followed by the four [setattr] of [graph_from_file]. *)
Definition graph_from_file (filename : string)
    (parse : string → outcome TRow) (σ : gmap loc (list Operation))
    : Graph * gmap loc (list Operation) :=
  let l := fresh (dom σ) in
  ({| source_type := Some "file"; source := Some filename;
      parser := Some parse; fabric := Some (); operations := l;
      return_list := None |},
   <[l := []]> σ).

(** [Graph.__copy__]: every assigned slot is passed through [copy.copy],
    which hands back strings, booleans and functions as they are and
    builds a new list object with the same elements for a list. *)
Definition Graph_copy (self : Graph) (σ : gmap loc (list Operation))
    : Graph * gmap loc (list Operation) :=
  let l := fresh (dom σ) in
  ({| source_type := source_type self; source := source self;
      parser := parser self; fabric := fabric self; operations := l;
      return_list := return_list self |},
   <[l := default [] (σ !! operations self)]> σ).

(** [graph.operations.append(operation)] *)
Definition operations_append (graph : Graph) (operation : Operation)
    (σ : gmap loc (list Operation)) : gmap loc (list Operation) :=
  <[operations graph := default [] (σ !! operations graph) ++ [operation]]> σ.

(** [Graph.map] *)
Definition Graph_map (self : Graph) (mapper : TRow → outcome (list TRow))
    (σ : gmap loc (list Operation)) : Graph * gmap loc (list Operation) :=
  let '(graph, σ1) := Graph_copy self σ in
  (graph, operations_append graph (ops_Map mapper) σ1).

(** [Graph.reduce] *)
Definition Graph_reduce (self : Graph)
    (reducer : list string → list TRow → outcome (list TRow))
    (keys : list string) (σ : gmap loc (list Operation))
    : Graph * gmap loc (list Operation) :=
  let '(graph, σ1) := Graph_copy self σ in
  (graph, operations_append graph (ops_Reduce reducer keys) σ1).

(** [Graph.sort] *)
Definition Graph_sort (self : Graph) (keys : list string)
    (σ : gmap loc (list Operation)) : Graph * gmap loc (list Operation) :=
  let '(graph, σ1) := Graph_copy self σ in
  (graph, operations_append graph (sort_ExternalSort keys) σ1).

(** [Graph.join]; the closure [join_op] keeps [joiner], [join_graph] and
    [keys]. *)
Definition Graph_join (self : Graph)
    (joiner : list string → iterable V → iterable V → outcome (list TRow))
    (join_graph : Graph) (keys : list string)
    (σ : gmap loc (list Operation)) : Graph * gmap loc (list Operation) :=
  let '(graph, σ1) := Graph_copy self σ in
  (graph, operations_append graph (join_op joiner join_graph keys) σ1).
End graph.

(** ** Mappers that rewrite one column of a row *)

(** Values of rows: integers, booleans, and strings as sequences of
    characters with codes below 256. *)
Inductive pyval : Type :=
  | PyInt (n : Z)
  | PyBool (b : bool)
  | PyStr (s : string).

Global Instance pyval_eq_dec : EqDecision pyval.
Proof. solve_decision. Defined.

(** Membership in [string.punctuation], by character code. *)
Definition is_punctuation (c : Ascii.ascii) : bool :=
  let n := Ascii.nat_of_ascii c in
  ((33 <=? n) && (n <=? 47)) || ((58 <=? n) && (n <=? 64))
  || ((91 <=? n) && (n <=? 96)) || ((123 <=? n) && (n <=? 126)).

(** [s.translate(str.maketrans('', '', string.punctuation))] *)
Fixpoint remove_punctuation (s : string) : string :=
  match s with
  | EmptyString => EmptyString
  | String c s' =>
      if is_punctuation c then remove_punctuation s'
      else String c (remove_punctuation s')
  end.

(** What [str.lower] does to a string of ASCII characters: the letters A
    to Z are replaced, other characters are kept. *)
Definition ascii_lower (c : Ascii.ascii) : Ascii.ascii :=
  let n := Ascii.nat_of_ascii c in
  if (65 <=? n) && (n <=? 90) then Ascii.ascii_of_nat (n + 32) else c.

Fixpoint lower_ascii (s : string) : string :=
  match s with
  | EmptyString => EmptyString
  | String c s' => String (ascii_lower c) (lower_ascii s')
  end.

Section mappers.
(** Python's [str.lower]. *)
Variable str_lower : string → string.

Local Abbreviation TRow := (list (string * pyval)).

(** [v.method()] for a method that only strings have. *)
Definition call_str_method (method : string → string) (v : pyval)
    : outcome pyval :=
  match v with
  | PyStr s => Returns (PyStr (method s))
  | _ => Raises AttributeError
  end.

(** [row[column] = row[column].method(); yield row] on the dict object
    at address [row] of the heap [h]: the rows yielded, as addresses, and
    the heap after the call. *)
Definition rewrite_column (method : string → string) (column : string)
    (row : loc) (h : gmap loc TRow) : outcome (list loc) * gmap loc TRow :=
  let d := default [] (h !! row) in
  match v ← getitem d column; call_str_method method v with
  | Returns v' => (Returns [row], <[row := dict_set d column v']> h)
  | Raises e => (Raises e, h)
  | OutOfFuel => (OutOfFuel, h)
  end.

(** [FilterPunctuation(column).__call__(row)] *)
Definition FilterPunctuation (column : string) (row : loc)
    (h : gmap loc TRow) : outcome (list loc) * gmap loc TRow :=
  rewrite_column remove_punctuation column row h.

(** [LowerCase(column).__call__(row)] *)
Definition LowerCase (column : string) (row : loc) (h : gmap loc TRow)
    : outcome (list loc) * gmap loc TRow :=
  rewrite_column str_lower column row h.
End mappers.

(** ** The reducer [Count] and the order of values in the unit tests *)

(** [for key in group_key: result[key] = row_sample[key]] *)
Fixpoint copy_group_key (row_sample result : list (string * pyval))
    (group_key : list string) : outcome (list (string * pyval)) :=
  match group_key with
  | [] => Returns result
  | key :: group_key' =>
      v ← getitem row_sample key;
      copy_group_key row_sample (dict_set result key v) group_key'
  end.

(** [Count(column).__call__(group_key, rows)] *)
Definition Count (column : string) (group_key : list string)
    (rows : list (list (string * pyval)))
    : outcome (list (list (string * pyval))) :=
  match rows with
  | [] => Raises AssertionError
  | row_sample :: _ =>
      result ← copy_group_key row_sample [] group_key;
      Returns [dict_set result column (PyInt (Z.of_nat (length rows)))]
  end.

(** [a <= b] on two integers or on two strings, the key values of the unit
    tests; this comparison of the model is [false] on values of two types. *)
Definition pyval_le (a b : pyval) : bool :=
  match a, b with
  | PyInt x, PyInt y => (x <=? y)%Z
  | PyStr s, PyStr t => String.leb s t
  | _, _ => false
  end.

(** ** Notions the statements are phrased with *)

Section notions.
Context {V : Type} `{EqDecision V}.
Variable vle : V → V → bool.

Local Abbreviation TRow := (list (string * V)).

(** [vle] is the total order of one type of values. *)
Class TotalOrderB : Prop := {
  vle_total x y : vle x y = true ∨ vle y x = true;
  vle_trans x y z : vle x y = true → vle y z = true → vle x z = true;
  vle_antisym x y : vle x y = true → vle y x = true → x = y
}.

Definition tuple_le (x y : list V) : Prop := tuple_ge vle y x = true.
Definition tuple_lt (x y : list V) : Prop := tuple_le x y ∧ x ≠ y.

(** The key tuples of the rows of a stream, in stream order. *)
Definition projections (keys : list string) (rows : list TRow)
    : outcome (list (list V)) :=
  each (grouper keys) rows.

(** A stream is key-sorted when every row has the key fields and the key
    tuples do not decrease along the stream. *)
Definition key_sorted (keys : list string) (rows : list TRow) : Prop :=
  ∃ ks, projections keys rows = Returns ks ∧ Sorted tuple_le ks.

(** The rows with key tuple [k], in stream order. *)
Definition key_group (keys : list string) (k : list V) (rows : list TRow)
    : list TRow :=
  filter (λ row, grouper keys row = Returns k) rows.

(** The distinct key tuples of a stream. *)
Definition distinct_keys (keys : list string) (rows : list TRow)
    : list (list V) :=
  match projections keys rows with
  | Returns ks => remove_dups ks
  | _ => []
  end.

(** The key tuples that have a group on both sides. *)
Definition matching_keys (keys : list string) (L R : list TRow)
    : list (list V) :=
  filter (λ k, k ∈ distinct_keys keys R) (distinct_keys keys L).

(** The cross product of two groups: every row of the left group with
    every row of the right one, left rows outermost, each pair written as
    one row under the suffixes settled on the first pair. *)
Definition cross_product (self : Joiner) (keys : list string)
    (group_a group_b : list TRow) : list TRow :=
  match group_a, group_b with
  | a0 :: _, b0 :: _ =>
      (λ ab, joined_row self (common_fields keys a0 b0)
               (common_fields keys b0 a0) ab.1 ab.2)
        <$> list_prod group_a group_b
  | _, _ => []
  end.

(** The inner join as the specification describes it. *)
Definition inner_join_spec (self : Joiner) (keys : list string)
    (L R : list TRow) : list TRow :=
  flat_map (λ k, cross_product self keys (key_group keys k L)
                   (key_group keys k R))
           (matching_keys keys L R).


(** The groups a side still has to deliver at the head of the loop: the
    one held back, if any, and those its iterator has not produced. *)
Definition pending_a (st : join_state V) : list (list V * list TRow) :=
  if need_take_a st then groups_a st
  else match cur_a st with
       | Some kg => kg :: groups_a st
       | None => groups_a st
       end.

Definition pending_b (st : join_state V) : list (list V * list TRow) :=
  if need_take_b st then groups_b st
  else match cur_b st with
       | Some kg => kg :: groups_b st
       | None => groups_b st
       end.

(** A side that is not asked for its next group and holds none has been
    found exhausted. *)
Definition join_ready (st : join_state V) : Prop :=
  (need_take_a st = false → cur_a st = None → groups_a st = [])
  ∧ (need_take_b st = false → cur_b st = None → groups_b st = []).

(** The merge the loop performs on the groups pending on the two sides,
    as the list of the joiner calls. *)
Fixpoint merge_calls (ga : list (list V * list TRow))
    : list (list V * list TRow) → list (iterable V * iterable V) :=
  fix merge_right (gb : list (list V * list TRow)) :=
    match ga, gb with
    | [], [] => []
    | (ka, a) :: ga', [] => (Grouper a, PyList []) :: merge_calls ga' []
    | [], (kb, b) :: gb' => (PyList [], Grouper b) :: merge_right gb'
    | (ka, a) :: ga', (kb, b) :: gb' =>
        if decide (ka = kb) then (Grouper a, Grouper b) :: merge_calls ga' gb'
        else if tuple_ge vle kb ka
             then (Grouper a, PyList []) :: merge_calls ga' gb
             else (PyList [], Grouper b) :: merge_right gb'
    end.

(** The group with key [k] among keyed groups, empty when there is none. *)
Fixpoint group_of (k : list V) (gs : list (list V * list TRow))
    : list TRow :=
  match gs with
  | [] => []
  | (k', g) :: gs' => if decide (k = k') then g else group_of k gs'
  end.

(** Every left group against the right group of its key. *)
Definition groups_join (self : Joiner) (keys : list string)
    (ga gb : list (list V * list TRow)) : list TRow :=
  flat_map (λ kg, cross_product self keys kg.2 (group_of kg.1 gb)) ga.

(** Every group the state holds has a row. *)
Definition groups_inhabited (st : join_state V) : Prop :=
  Forall (λ kg, kg.2 ≠ []) (groups_a st)
  ∧ Forall (λ kg, kg.2 ≠ []) (groups_b st)
  ∧ (∀ kg, cur_a st = Some kg → kg.2 ≠ [])
  ∧ (∀ kg, cur_b st = Some kg → kg.2 ≠ []).
End notions.

Section graph_notions.
Context {V : Type} `{EqDecision V}.

Local Abbreviation TRow := (list (string * V)).

(** A graph bound to the named input [name], as [graph_from_iter] and
    every graph built from its result are. *)
Definition bound_to_iter (name : string) (g : @Graph V) : Prop :=
  source_type g = Some "generator" ∧ source g = Some name.

(** Every graph captured by a [join_op] of the store has its list of
    stages in the store. *)
Definition store_closed (σ : gmap loc (list (@Operation V))) : Prop :=
  ∀ l ops joiner join_graph keys,
    σ !! l = Some ops → join_op joiner join_graph keys ∈ ops →
    is_Some (σ !! operations join_graph).

(** The four graph-building methods and their arguments. *)
Inductive builder_call : Type :=
  | call_map (mapper : TRow → outcome (list TRow))
  | call_reduce (reducer : list string → list TRow → outcome (list TRow))
      (keys : list string)
  | call_sort (keys : list string)
  | call_join
      (joiner : list string → iterable V → iterable V → outcome (list TRow))
      (join_graph : @Graph V) (keys : list string).

Definition build (self : @Graph V) (call : builder_call)
    (σ : gmap loc (list (@Operation V)))
    : @Graph V * gmap loc (list (@Operation V)) :=
  match call with
  | call_map mapper => Graph_map self mapper σ
  | call_reduce reducer keys => Graph_reduce self reducer keys σ
  | call_sort keys => Graph_sort self keys σ
  | call_join joiner join_graph keys =>
      Graph_join self joiner join_graph keys σ
  end.

(** The stage a builder call is to append. *)
Definition new_stage (call : builder_call) : @Operation V :=
  match call with
  | call_map mapper => ops_Map mapper
  | call_reduce reducer keys => ops_Reduce reducer keys
  | call_sort keys => sort_ExternalSort keys
  | call_join joiner join_graph keys => join_op joiner join_graph keys
  end.
End graph_notions.

Section spec_as_worded.
Context {V : Type} `{EqDecision V}.

Local Abbreviation TRow := (list (string * V)).

(** The suffix policy as the specification words it: in every pair of rows
    with the same key tuple that a joiner combines, a field that is not a key
    and is in both rows appears in the output under its name with the left
    and with the right suffix. *)
Definition suffix_policy_as_worded (self : Joiner) : Prop :=
  ∀ keys (group_a group_b : list TRow) i a b key k out,
    list_prod group_a group_b !! i = Some (a, b) →
    grouper keys a = Returns key → grouper keys b = Returns key →
    (_inner_join self keys (Grouper group_a) (Grouper group_b)) !! i
      = Some out →
    k ∉ keys → k ∈ dict_keys a → k ∈ dict_keys b →
    (k +:+ _a_suffix self) ∈ dict_keys out
    ∧ (k +:+ _b_suffix self) ∈ dict_keys out.
End spec_as_worded.

(** ** Dummy operators and mappers that do not depend on the values *)

Section operators.
Context {V : Type}.

Local Abbreviation TRow := (list (string * V)).

(** [DummyMapper.__call__] *)
Definition DummyMapper (row : TRow) : outcome (list TRow) := Returns [row].

(** [FirstReducer.__call__]: the loop keeps the first row it is given. *)
Definition FirstReducer (group_key : list string) (rows : list TRow)
    : outcome (list TRow) :=
  let first_row :=
    foldl (λ first_row row, if first_row is None then Some row else first_row)
      None rows in
  match first_row with
  | None => Raises AssertionError
  | Some first_row => Returns [first_row]
  end.

(** [Filter(condition).__call__(row)] *)
Definition Filter (condition : TRow → outcome bool) (row : TRow)
    : outcome (list TRow) :=
  c ← condition row;
  if c : bool then Returns [row] else Returns [].

(** [{key: row[key] for key in columns}], added to [result]. *)
Fixpoint dict_of_columns (row result : TRow) (columns : list string)
    : outcome TRow :=
  match columns with
  | [] => Returns result
  | key :: columns' =>
      v ← getitem row key;
      dict_of_columns row (dict_set result key v) columns'
  end.

(** [Project(columns).__call__(row)] *)
Definition Project (columns : list string) (row : TRow)
    : outcome (list TRow) :=
  result ← dict_of_columns row [] columns;
  Returns [result].
End operators.

(** ** Reducers that count and add *)

(** [SafeCount(column).__call__(group_key, rows)]: the one dict [result] is
    yielded [length] times. *)
Definition SafeCount (column : string) (group_key : list string)
    (rows : list (list (string * pyval)))
    : outcome (list (list (string * pyval))) :=
  match rows with
  | [] => Raises AssertionError
  | row_sample :: _ =>
      result ← copy_group_key row_sample [] group_key;
      Returns (replicate (length rows)
                 (dict_set result column (PyInt (Z.of_nat (length rows)))))
  end.

(** [sum_ + v] for an integer [sum_]: a boolean counts as 0 or 1, a string
    cannot be added to an integer. *)
Definition int_add (sum_ : Z) (v : pyval) : outcome Z :=
  match v with
  | PyInt n => Returns (sum_ + n)%Z
  | PyBool b => Returns (sum_ + Z.b2z b)%Z
  | PyStr _ => Raises TypeError
  end.

(** The [for] loop of [Sum.__call__] from the values [sum_] and [keys] of
    its two variables. *)
Fixpoint Sum_loop (column : string) (group_key : list string) (sum_ : Z)
    (keys : list (string * pyval)) (rows : list (list (string * pyval)))
    : outcome (Z * list (string * pyval)) :=
  match rows with
  | [] => Returns (sum_, keys)
  | r :: rows' =>
      v ← getitem r column;
      sum_' ← int_add sum_ v;
      keys' ← (if bool_decide (keys = []) then copy_group_key r [] group_key
               else Returns keys);
      Sum_loop column group_key sum_' keys' rows'
  end.

(** [Sum(column).__call__(group_key, rows)]; the line it writes to the
    standard error stream is not part of the stream of rows. *)
Definition Sum (column : string) (group_key : list string)
    (rows : list (list (string * pyval)))
    : outcome (list (list (string * pyval))) :=
  st ← Sum_loop column group_key 0 [] rows;
  Returns [dict_union st.2 [(column, PyInt st.1)]].

(** The integer a value stands for in a sum. *)
Definition int_of (v : pyval) : option Z :=
  match v with
  | PyInt n => Some n
  | PyBool b => Some (Z.b2z b)
  | PyStr _ => None
  end.

(** ** The reducer [TopN] *)

Section TopN.
Context {V : Type}.
Variable vle : V → V → bool.

Local Abbreviation TRow := (list (string * V)).

(** One row put into a list in descending order of the sort values, in
    front of the first row whose value is not greater. *)
Fixpoint insert_reverse (x : V * TRow) (l : list (V * TRow))
    : list (V * TRow) :=
  match l with
  | [] => [x]
  | y :: l' => if vle y.1 x.1 then x :: l else y :: insert_reverse x l'
  end.

(** [sorted(l, reverse=True)] on rows that carry their sort value: a stable
    sort into descending order, so that rows with equal values keep the
    order in which they came. *)
Definition sorted_reverse (keyed : list (V * TRow)) : list (V * TRow) :=
  foldr insert_reverse [] keyed.

(** [heapq.nlargest(n, rows, key=operator.itemgetter(column))] on an
    iterator: for [n] below one the result is empty and no row is read;
    otherwise every row is read, the value of its column is taken, and the
    result is [sorted(rows, key=key, reverse=True)[:n]]. *)
Definition nlargest (n : Z) (column : string) (rows : list TRow)
    : outcome (list TRow) :=
  if (n <=? 0)%Z then Returns []
  else
    keyed ← each (λ row, v ← getitem row column; Returns (v, row)) rows;
    Returns (take (Z.to_nat n) (sorted_reverse keyed)).*2.

(** [TopN(column, n).__call__(group_key, rows)] *)
Definition TopN (column_max : string) (n : Z) (group_key : list string)
    (rows : list TRow) : outcome (list TRow) :=
  result ← nlargest n column_max rows;
  yield_from_each (λ row, Returns [row]) result.
End TopN.

(** ** What the joiners are handed for one key tuple, and what they yield *)

Section join_notions.
Context {V : Type} `{EqDecision V}.
Variable vle : V → V → bool.

Local Abbreviation TRow := (list (string * V)).

(** The merge of two ascending lists of key tuples; a key tuple that is in
    both is taken once. *)
Fixpoint merge_keys (ka : list (list V)) : list (list V) → list (list V) :=
  fix merge_right (kb : list (list V)) :=
    match ka, kb with
    | [], _ => kb
    | _, [] => ka
    | a :: ka', b :: kb' =>
        if decide (a = b) then a :: merge_keys ka' kb'
        else if tuple_ge vle b a then a :: merge_keys ka' kb
        else b :: merge_right kb'
    end.

(** The key tuples of the two streams together. *)
Definition all_keys (keys : list string) (L R : list TRow)
    : list (list V) :=
  merge_keys (distinct_keys keys L) (distinct_keys keys R).

(** [group or []] for the rows a side has for one key tuple: the group when
    there are rows, the empty list when there are none. *)
Definition group_or_empty (group : list TRow) : iterable V :=
  match group with
  | [] => PyList []
  | _ :: _ => Grouper group
  end.

(** The rows an outer, a left and a right join have for one key tuple with
    the groups [a] and [b] of the two sides. *)
Definition outer_rows (self : Joiner) (keys : list string)
    (a b : list TRow) : list TRow :=
  match a, b with
  | [], _ => b
  | _, [] => a
  | _, _ => cross_product self keys a b
  end.

Definition left_rows (self : Joiner) (keys : list string)
    (a b : list TRow) : list TRow :=
  match a, b with
  | [], _ => []
  | _, [] => a
  | _, _ => cross_product self keys a b
  end.

Definition right_rows (self : Joiner) (keys : list string)
    (a b : list TRow) : list TRow :=
  match a, b with
  | _, [] => []
  | [], _ => b
  | _, _ => cross_product self keys a b
  end.
End join_notions.

(** ** Chains of builder calls *)

Section chain_notions.
Context {V : Type} `{EqDecision V}.

(** A chain of builder calls, each on the graph the call before it
    returned, as [algorithms.py] writes its graphs. *)
Definition build_all (self : @Graph V) (calls : list (@builder_call V))
    (σ : gmap loc (list (@Operation V)))
    : @Graph V * gmap loc (list (@Operation V)) :=
  foldl (λ gσ call, build gσ.1 call gσ.2) (self, σ) calls.
End chain_notions.

(** ** Sample streams *)

(** Rows with integer values, compared with [Z.leb]. *)
Definition player (player_id username : Z) : list (string * Z) :=
  [("player_id", player_id); ("username", username)].

Definition players_left : list (list (string * Z)) :=
  [player 1 10; player 1 11; player 2 20; player 4 40].

Definition players_right : list (list (string * Z)) :=
  [player 0 5; player 1 12; player 1 13; player 4 41; player 5 1].

(** The joiner calls of the join of the two sample streams on
    [player_id]. *)
Definition players_calls : list (iterable Z * iterable Z) :=
  [(PyList [], Grouper [player 0 5]);
   (Grouper [player 1 10; player 1 11], Grouper [player 1 12; player 1 13]);
   (Grouper [player 2 20], PyList []);
   (Grouper [player 4 40], Grouper [player 4 41]);
   (PyList [], Grouper [player 5 1])].

(** A stream that is not sorted by [player_id]. *)
Definition players_unsorted : list (list (string * Z)) :=
  [player 3 1; player 1 2; player 2 3; player 1 4; player 3 5].

(** A left group whose rows do not have the same fields, and a right group
    for the same key. *)
Definition mixed_left : list (list (string * Z)) :=
  [[("id", 1%Z)]; [("id", 1%Z); ("x", 5%Z)]].

Definition mixed_right : list (list (string * Z)) :=
  [[("id", 1%Z); ("x", 7%Z)]].

(** A heap with one document at address 1. *)
Definition doc_heap : gmap loc (list (string * pyval)) :=
  {[1%positive := [("doc_id", PyInt 1); ("text", PyStr "Hello, my little WORLD")]]}.

(** The rows of [unit_tests/test_graph.py]. *)
Definition doc (doc_id : Z) (text : string) : list (string * pyval) :=
  [("doc_id", PyInt doc_id); ("text", PyStr text)].

Definition test_docs : list (list (string * pyval)) :=
  [doc 1 "hello"; doc 1 "my"; doc 1 "little"; doc 1 "world"; doc 2 "hello";
   doc 2 "my"; doc 2 "little"; doc 2 "little"; doc 2 "hell"].

Definition test_docs_sorted : list (list (string * pyval)) :=
  [doc 2 "hell"; doc 1 "hello"; doc 2 "hello"; doc 1 "little";
   doc 2 "little"; doc 2 "little"; doc 1 "my"; doc 2 "my"; doc 1 "world"].

Definition data_left : list (list (string * pyval)) :=
  [[("player_id", PyInt 1); ("username", PyStr "XeroX")];
   [("player_id", PyInt 2); ("username", PyStr "jay")];
   [("player_id", PyInt 3); ("username", PyStr "Destroyer")]].

(** The two graphs [test_join] builds, in an empty store. *)
Definition test_join_graph2
    : @Graph pyval * gmap loc (list (@Operation pyval)) :=
  graph_from_iter "data_left" ∅.

Definition test_join_graph
    : @Graph pyval * gmap loc (list (@Operation pyval)) :=
  let '(graph_init, σ) := graph_from_iter "data_left" test_join_graph2.2 in
  Graph_join graph_init (OuterJoiner Joiner_init) test_join_graph2.1
    ["player_id"] σ.

(** The rows of the example in the docstring of [Sum]. *)
Definition sum_rows : list (list (string * pyval)) :=
  [[("a", PyInt 1); ("b", PyInt 2); ("c", PyInt 4)];
   [("a", PyInt 1); ("b", PyInt 3); ("c", PyInt 5)]].

(** A row without the field [player_id]. *)
Definition nameless : list (string * Z) := [("username", 5%Z)].

(** The graph [graph_from_iter("docs")] in an empty store. *)
Definition docs_graph : @Graph Z * gmap loc (list (@Operation Z)) :=
  graph_from_iter "docs" ∅.

(** * Properties *)

(** ** The unit tests of the repository *)

(** [test_sort], with runs of four rows. *)
Example test_sort :
  ExternalSort pyval_le 4 ["text"] test_docs = Returns test_docs_sorted.
Proof. reflexivity. Qed.

(** [test_reduce] *)
Example test_reduce :
  Reduce_call (Count "count") ["text"] test_docs_sorted
  = Returns [[("text", PyStr "hell"); ("count", PyInt 1)];
             [("text", PyStr "hello"); ("count", PyInt 2)];
             [("text", PyStr "little"); ("count", PyInt 3)];
             [("text", PyStr "my"); ("count", PyInt 2)];
             [("text", PyStr "world"); ("count", PyInt 1)]].
Proof. reflexivity. Qed.

(** [test_join] *)
Example test_join :
  run pyval_le 4 ∅ 2 test_join_graph.2 test_join_graph.1
    {["data_left" := data_left]}
  = Returns
      [[("player_id", PyInt 1); ("username_1", PyStr "XeroX");
        ("username_2", PyStr "XeroX")];
       [("player_id", PyInt 2); ("username_1", PyStr "jay");
        ("username_2", PyStr "jay")];
       [("player_id", PyInt 3); ("username_1", PyStr "Destroyer");
        ("username_2", PyStr "Destroyer")]].
Proof. vm_compute. reflexivity. Qed.

(** [test_graph_from_iter] *)
Example test_graph_from_iter :
  run pyval_le 4 ∅ 1 test_join_graph2.2 test_join_graph2.1
    {["data_left" := data_left]}
  = Returns data_left.
Proof. vm_compute. reflexivity. Qed.

(** ** The outcome monad *)

Lemma yield_from_each_app {A B} (f : A → outcome (list B)) (xs ys : list A) :
  yield_from_each f (xs ++ ys)
  = (us ← yield_from_each f xs; vs ← yield_from_each f ys; Returns (us ++ vs)).
Proof.
  induction xs as [|x xs IH]; simpl.
  - by destruct (yield_from_each f ys).
  - destruct (f x) as [us| |]; simpl; [|done..].
    rewrite IH. destruct (yield_from_each f xs) as [vs| |]; simpl; [|done..].
    destruct (yield_from_each f ys) as [ws| |]; simpl; [|done..].
    by rewrite (assoc_L (++)).
Qed.

Lemma yield_from_each_singleton {A B} (f : A → outcome (list B)) (x : A) :
  yield_from_each f [x] = f x.
Proof.
  simpl. destruct (f x) as [ys| |]; simpl; [|done..]. by rewrite (right_id_L [] (++)).
Qed.

Lemma yield_from_each_record {A} (xs : list A) :
  yield_from_each (λ x, Returns [x]) xs = Returns xs.
Proof. induction xs as [|x xs IH]; simpl; [done|]. by rewrite IH. Qed.

Lemma each_Returns_length {A B} (f : A → outcome B) (xs : list A) ys :
  each f xs = Returns ys → length ys = length xs.
Proof.
  revert ys. induction xs as [|x xs IH]; intros ys; simpl.
  - by intros [= <-].
  - destruct (f x) as [y| |]; simpl; [|done..].
    destruct (each f xs) as [ys'| |]; simpl; [|done..].
    intros [= <-]. simpl. f_equal. by apply IH.
Qed.

Lemma each_ends {A B} (f : A → outcome B) (xs : list A) :
  (∀ x, f x ≠ OutOfFuel) → each f xs ≠ OutOfFuel.
Proof.
  intros Hf. induction xs as [|x xs IH]; simpl; [done|].
  specialize (Hf x). destruct (f x); simpl; [|done..].
  by destruct (each f xs).
Qed.

Lemma getitem_ends {V} (d : list (string * V)) k : getitem d k ≠ OutOfFuel.
Proof. unfold getitem. by destruct (dict_get d k). Qed.

Lemma each_cons_Returns {A B} (f : A → outcome B) x xs ys :
  each f (x :: xs) = Returns ys ↔
  ∃ y ys', ys = y :: ys' ∧ f x = Returns y ∧ each f xs = Returns ys'.
Proof.
  simpl. split.
  - destruct (f x) as [y| |]; simpl; [|done..].
    destruct (each f xs) as [ys'| |]; simpl; [|done..].
    intros [= <-]. eauto.
  - intros (y & ys' & -> & -> & ->). done.
Qed.

(** ** The loop of [Join.__call__] *)

Section join_loop_facts.
Context {V : Type} `{EqDecision V}.
Variable vle : V → V → bool.

Local Abbreviation TRow := (list (string * V)).

Ltac step_cases st :=
  destruct st as [[] [] [[? ?]|] [[? ?]|] [|[? ?] ?] [|[? ?] ?]];
  unfold join_step; simpl;
  repeat (case_decide || case_match); simplify_eq/=.

Lemma join_step_pending (st st' : join_state V) rows_a rows_b :
  join_step vle st = Invoke rows_a rows_b st' → pending st' < pending st.
Proof. step_cases st; intros; simplify_eq/=; unfold pending; simpl; lia. Qed.

Lemma join_step_takes (st st' : join_state V) rows_a rows_b :
  join_step vle st = Invoke rows_a rows_b st' →
  need_take_a st' || need_take_b st' = true.
Proof. step_cases st; intros; by simplify_eq/=. Qed.

Lemma join_step_inhabited (st st' : join_state V) rows_a rows_b :
  groups_inhabited st →
  join_step vle st = Invoke rows_a rows_b st' →
  (iter rows_a ≠ [] ∨ iter rows_b ≠ []) ∧ groups_inhabited st'.
Proof.
  unfold groups_inhabited.
  step_cases st; intros (Ha & Hb & Hca & Hcb) ?; simplify_eq/=;
    repeat match goal with
           | H : Forall _ (_ :: _) |- _ => apply Forall_cons in H as [??]
           | H : ∀ kg, Some ?x = Some kg → _ |- _ => specialize (H _ eq_refl)
           end; simpl in *;
    (split; [by auto|]);
    (repeat split; try done; try (by apply Forall_cons); intros;
     by simplify_eq/=).
Qed.
End join_loop_facts.

(** ** [itertools.groupby] *)

Section groupby_facts.
Context {A K : Type} `{EqDecision K}.
Variable key : A → outcome K.

Lemma groupby_cons_Returns x l gs :
  groupby key (x :: l) = Returns gs ↔
  ∃ k gs', key x = Returns k ∧ groupby key l = Returns gs'
    ∧ gs = match gs' with
           | (k', g) :: gs'' =>
               if decide (k = k') then (k, x :: g) :: gs''
               else (k, [x]) :: gs'
           | [] => [(k, [x])]
           end.
Proof.
  simpl. split.
  - destruct (key x) as [k| |]; simpl; [|done..].
    destruct (groupby key l) as [gs'| |]; simpl; [|done..].
    intros [= <-]. eauto.
  - intros (k & gs' & -> & -> & ->). done.
Qed.

(** Read from the front, as the iterator does: the first group is the
    first row with the rows after it that have its key, and the other groups
    are those of what follows. *)
Lemma groupby_forwards x l gs :
  groupby key (x :: l) = Returns gs →
  ∃ k rest, key x = Returns k
    ∧ groupby key (after_run key k l) = Returns rest
    ∧ gs = (k, x :: run_of key k l) :: rest.
Proof.
  revert x gs. induction l as [|y l IH]; intros x gs.
  - rewrite groupby_cons_Returns. intros (k & gs' & Hk & [= <-] & ->).
    by exists k, [].
  - rewrite groupby_cons_Returns. intros (k & gs' & Hk & Hgs' & ->).
    destruct (IH y gs' Hgs') as (ky & rest & Hky & Hrest & ->).
    exists k. simpl. rewrite Hky.
    destruct (decide (k = ky)) as [<-|Hne].
    + rewrite !decide_True by done. by exists rest.
    + rewrite !decide_False by congruence.
      by exists ((ky, y :: run_of key ky l) :: rest).
Qed.

Lemma groupby_ends l : (∀ x, key x ≠ OutOfFuel) → groupby key l ≠ OutOfFuel.
Proof.
  intros Hkey. induction l as [|x l IH]; simpl; [done|].
  specialize (Hkey x). destruct (key x); simpl; [|done..].
  by destruct (groupby key l).
Qed.

Lemma groupby_inhabited l gs :
  groupby key l = Returns gs → Forall (λ kg, kg.2 ≠ []) gs.
Proof.
  revert gs. induction l as [|x l IH]; intros gs.
  - intros [= <-]. constructor.
  - rewrite groupby_cons_Returns. intros (k & gs' & _ & Hl & ->).
    specialize (IH _ Hl). destruct gs' as [|[k' g] gs'']; [by repeat constructor|].
    apply Forall_cons in IH as [? ?].
    case_decide; repeat constructor; done.
Qed.

Lemma groupby_concat l gs :
  groupby key l = Returns gs → concat gs.*2 = l.
Proof.
  revert gs. induction l as [|x l IH]; intros gs.
  - by intros [= <-].
  - rewrite groupby_cons_Returns. intros (k & gs' & _ & Hl & ->).
    specialize (IH _ Hl). destruct gs' as [|[k' g] gs'']; simpl in *.
    + by rewrite <-IH.
    + case_decide; simpl; by rewrite <-IH.
Qed.

(** Every row of a group has the key of the group. *)
Lemma groupby_keys l gs :
  groupby key l = Returns gs →
  Forall (λ kg, Forall (λ x, key x = Returns kg.1) kg.2) gs.
Proof.
  revert gs. induction l as [|x l IH]; intros gs.
  - intros [= <-]. constructor.
  - rewrite groupby_cons_Returns. intros (k & gs' & Hk & Hl & ->).
    specialize (IH _ Hl). destruct gs' as [|[k' g] gs''].
    + by repeat constructor.
    + apply Forall_cons in IH as [? ?]. simpl in *.
      case_decide; subst; repeat constructor; simpl; done.
Qed.

(** The keys of the rows are the keys of the groups, each repeated for
    every row of its group. *)
Lemma groupby_each l gs :
  groupby key l = Returns gs →
  each key l = Returns (gs ≫= λ kg, replicate (length kg.2) kg.1).
Proof.
  revert gs. induction l as [|x l IH]; intros gs.
  - by intros [= <-].
  - rewrite groupby_cons_Returns. intros (k & gs' & Hk & Hl & ->).
    simpl. rewrite Hk, (IH _ Hl). simpl.
    destruct gs' as [|[k' g] gs'']; [done|].
    case_decide; by subst.
Qed.

Lemma each_groupby l ks :
  each key l = Returns ks → ∃ gs, groupby key l = Returns gs.
Proof.
  revert ks. induction l as [|x l IH]; intros ks.
  - intros _. by eexists.
  - rewrite each_cons_Returns. intros (k & ks' & -> & Hk & Hl).
    destruct (IH _ Hl) as [gs Hgs]. simpl. rewrite Hk, Hgs. simpl. by eexists.
Qed.
End groupby_facts.

Section join_loop_fuel.
Context {V : Type} `{EqDecision V}.
Variable vle : V → V → bool.

Local Abbreviation TRow := (list (string * V)).

Lemma join_loop_enough {O}
    (joiner : list string → iterable V → iterable V → outcome (list O))
    keys fuel (st : join_state V) :
  pending st < fuel →
  join_loop vle joiner keys fuel st
  = join_loop vle joiner keys (S (pending st)) st.
Proof.
  revert st. induction fuel as [fuel IH] using lt_wf_ind. intros st Hlt.
  destruct fuel as [|fuel]; [lia|]. simpl.
  destruct (join_step vle st) as [|rows_a rows_b st'] eqn:Hstep; [done|].
  pose proof (join_step_pending _ _ _ _ _ Hstep) as Hdec.
  rewrite (IH fuel) by lia.
  by rewrite (IH (pending st)) by lia.
Qed.

Lemma join_loop_ends {O}
    (joiner : list string → iterable V → iterable V → outcome (list O))
    keys fuel (st : join_state V) :
  (∀ rows_a rows_b, joiner keys rows_a rows_b ≠ OutOfFuel) →
  pending st < fuel →
  join_loop vle joiner keys fuel st ≠ OutOfFuel.
Proof.
  intros Hj. revert st. induction fuel as [|fuel IH]; intros st Hlt; [lia|].
  simpl. destruct (join_step vle st) as [|rows_a rows_b st'] eqn:Hstep; [done|].
  pose proof (join_step_pending _ _ _ _ _ Hstep) as Hdec.
  specialize (Hj rows_a rows_b). specialize (IH st' ltac:(lia)).
  destruct (joiner keys rows_a rows_b); simpl; [|done..].
  destruct (join_loop vle joiner keys fuel st'); simpl; done.
Qed.

(** The loop run with a joiner that only records its arguments gives
    the calls the loop makes, whatever the joiner is. *)
Lemma join_loop_calls {O}
    (joiner : list string → iterable V → iterable V → outcome (list O))
    keys fuel (st : join_state V) calls :
  join_loop vle (λ _ rows_a rows_b, Returns [(rows_a, rows_b)]) keys fuel st
    = Returns calls →
  join_loop vle joiner keys fuel st
    = yield_from_each (λ ab, joiner keys ab.1 ab.2) calls.
Proof.
  revert st calls. induction fuel as [|fuel IH]; intros st calls; [done|].
  simpl. destruct (join_step vle st) as [|rows_a rows_b st']; [by intros [= <-]|].
  destruct (join_loop vle _ keys fuel st') as [calls'| |] eqn:Hrec;
    simpl; [|done..].
  intros [= <-]. simpl. by rewrite (IH _ _ Hrec).
Qed.

Lemma join_loop_calls_inhabited keys fuel (st : join_state V) calls :
  groups_inhabited st →
  join_loop vle (λ _ rows_a rows_b, Returns [(rows_a, rows_b)]) keys fuel st
    = Returns calls →
  Forall (λ ab, iter ab.1 ≠ [] ∨ iter ab.2 ≠ []) calls.
Proof.
  revert st calls. induction fuel as [|fuel IH]; intros st calls Hst; [done|].
  simpl. destruct (join_step vle st) as [|rows_a rows_b st'] eqn:Hstep.
  { intros [= <-]. constructor. }
  destruct (join_step_inhabited _ _ _ _ _ Hst Hstep) as [Hne Hst'].
  destruct (join_loop vle _ keys fuel st') as [calls'| |] eqn:Hrec;
    simpl; [|done..].
  intros [= <-]. constructor; [done|]. by eapply IH.
Qed.
End join_loop_fuel.

(** ** Join: the calls of the joiner and termination *)

Section Join_calls.
Context {V : Type} `{EqDecision V}.
Variable vle : V → V → bool.

Local Abbreviation TRow := (list (string * V)).

Local Arguments join_loop : simpl never.

Lemma Join_call_calls {O}
    (joiner : list string → iterable V → iterable V → outcome (list O))
    keys (rows rows_b : list TRow) calls :
  Join_call vle (λ _ rows_a rows_b, Returns [(rows_a, rows_b)]) keys
    rows rows_b = Returns calls →
  Join_call vle joiner keys rows rows_b
  = yield_from_each (λ ab, joiner keys ab.1 ab.2) calls.
Proof.
  unfold Join_call.
  destruct (groupby (grouper keys) rows) as [ga| |]; simpl; [|done..].
  destruct (groupby (grouper keys) rows_b) as [gb| |]; simpl; [|done..].
  apply join_loop_calls.
Qed.

(** C7: whenever [Join.__call__] calls its joiner, one of the two groups
    it passes has a row.  [calls] are the argument pairs of the joiner
    calls of one join, in the order they are made; the property also
    holds for every single iteration of the loop over inhabited groups. *)
Theorem Join_joiner_groups_inhabited keys (rows rows_b : list TRow) calls :
  Join_call vle (λ _ rows_a rows_b, Returns [(rows_a, rows_b)]) keys
    rows rows_b = Returns calls →
  Forall (λ ab, iter ab.1 ≠ [] ∨ iter ab.2 ≠ []) calls
  ∧ (∀ O (joiner : list string → iterable V → iterable V → outcome (list O)),
       Join_call vle joiner keys rows rows_b
       = yield_from_each (λ ab, joiner keys ab.1 ab.2) calls)
  ∧ (∀ st rows_a rows_b st',
       groups_inhabited st → join_step vle st = Invoke rows_a rows_b st' →
       iter rows_a ≠ [] ∨ iter rows_b ≠ []).
Proof.
  intros Hcalls. split; [|split].
  - revert Hcalls. unfold Join_call.
    destruct (groupby (grouper keys) rows) as [ga| |] eqn:Ha; simpl; [|done..].
    destruct (groupby (grouper keys) rows_b) as [gb| |] eqn:Hb;
      simpl; [|done..].
    apply join_loop_calls_inhabited.
    repeat split; simpl; eauto using groupby_inhabited; done.
  - intros O joiner. by apply Join_call_calls.
  - intros st a b st' Hst Hstep.
    by destruct (join_step_inhabited _ _ _ _ _ Hst Hstep).
Qed.

(** C10: the loop of [Join.__call__] terminates.  Every iteration that
    does not leave the loop lowers the number of groups still to be
    delivered and asks at least one side for its next group at the
    following iteration; hence, with a joiner that returns, the join of two
    finite streams ends, and more fuel than there are pending groups never
    changes the result. *)
Theorem Join_loop_terminates {O}
    (joiner : list string → iterable V → iterable V → outcome (list O))
    keys (rows rows_b : list TRow) :
  (∀ rows_a rows_b, joiner keys rows_a rows_b ≠ OutOfFuel) →
  Join_call vle joiner keys rows rows_b ≠ OutOfFuel
  ∧ (∀ st rows_a rows_b st',
       join_step vle st = Invoke rows_a rows_b st' →
       pending st' < pending st
       ∧ need_take_a st' || need_take_b st' = true)
  ∧ (∀ st fuel, pending st < fuel →
       join_loop vle joiner keys fuel st
       = join_loop vle joiner keys (S (pending st)) st).
Proof.
  intros Hj. split; [|split].
  - unfold Join_call.
    assert (∀ l : list TRow, groupby (grouper keys) l ≠ OutOfFuel) as Hg.
    { intros l. apply groupby_ends. intros x. apply each_ends.
      intros k. apply getitem_ends. }
    pose proof (Hg rows) as Ha. pose proof (Hg rows_b) as Hb.
    destruct (groupby (grouper keys) rows) as [ga| |]; simpl; [|done..].
    destruct (groupby (grouper keys) rows_b) as [gb| |]; simpl; [|done..].
    apply join_loop_ends; [done|lia].
  - intros st a b st' Hstep.
    eauto using join_step_pending, join_step_takes.
  - intros st fuel. apply join_loop_enough.
Qed.
End Join_calls.

Lemma Join_joiner_groups_inhabited_witness :
  Join_call Z.leb (λ _ rows_a rows_b, Returns [(rows_a, rows_b)])
    ["player_id"] players_left players_right = Returns players_calls
  ∧ Forall (λ ab, iter ab.1 ≠ [] ∨ iter ab.2 ≠ []) players_calls.
Proof.
  split; [reflexivity|].
  apply (Join_joiner_groups_inhabited Z.leb ["player_id"] players_left
           players_right players_calls).
  reflexivity.
Defined.

Lemma Join_loop_terminates_witness :
  (∀ rows_a rows_b : iterable Z,
     InnerJoiner Joiner_init ["player_id"] rows_a rows_b ≠ OutOfFuel)
  ∧ Join_call Z.leb (InnerJoiner Joiner_init) ["player_id"]
      players_left players_right ≠ OutOfFuel.
Proof.
  assert (∀ rows_a rows_b : iterable Z,
            InnerJoiner Joiner_init ["player_id"] rows_a rows_b ≠ OutOfFuel)
    as Hj.
  { intros rows_a rows_b. unfold InnerJoiner.
    destruct (truthy rows_a || truthy rows_b); discriminate. }
  split; [exact Hj|].
  apply (Join_loop_terminates Z.leb (InnerJoiner Joiner_init) ["player_id"]
           players_left players_right Hj).
Defined.

(** ** Reduce with an empty key tuple *)

Section Reduce_empty.
Context {V : Type} `{EqDecision V}.

Local Abbreviation TRow := (list (string * V)).

Lemma groupby_empty_keys (x : TRow) (rows : list TRow) :
  groupby (get_value []) (x :: rows) = Returns [([], x :: rows)].
Proof.
  revert x. induction rows as [|y rows IH]; intros x; [done|].
  rewrite groupby_cons_Returns. exists [], [([], y :: rows)].
  split; [done|]. split; [apply IH|]. by rewrite decide_True.
Qed.

(** C8: reducing a stream that has a row with an empty key tuple calls
    the reducer once, with all the rows of the stream in their order; the
    output of the stage is what that one call yields. *)
Theorem Reduce_empty_keys {O}
    (reducer : list string → list TRow → outcome (list O))
    (rows : list TRow) :
  rows ≠ [] →
  Reduce_call (λ _ group, Returns [group]) [] rows = Returns [rows]
  ∧ Reduce_call reducer [] rows = reducer [] rows.
Proof.
  intros Hrows. destruct rows as [|x rows]; [done|].
  unfold Reduce_call. rewrite groupby_empty_keys.
  split; [done|]. apply (yield_from_each_singleton (λ kg, reducer [] kg.2)).
Qed.
End Reduce_empty.

Lemma Reduce_empty_keys_witness :
  players_left ≠ []
  ∧ Reduce_call (λ _ group, Returns [group]) [] players_left
    = Returns [players_left].
Proof.
  assert (players_left ≠ []) as Hne by discriminate.
  split; [exact Hne|].
  apply (Reduce_empty_keys (λ _ group, Returns [group]) players_left Hne).
Defined.

(** ** [Graph.run] without its named input *)

Section run_missing_input.
Context {V : Type} `{EqDecision V}.
Variable vle : V → V → bool.
Variable run_size : nat.
Variable files : gmap string (list string).

Local Abbreviation TRow := (list (string * V)).

Lemma graph_from_iter_bound name (σ : gmap loc (list (@Operation V))) :
  bound_to_iter name (graph_from_iter name σ).1.
Proof. done. Qed.

Lemma build_bound name (g : @Graph V) call σ :
  bound_to_iter name g → bound_to_iter name (build g call σ).1.
Proof. by destruct call. Qed.

(** C9: running a graph bound with [graph_from_iter name] on named inputs
    without [name] fails with [KeyError] in the first statement of [run],
    whatever stages the graph has: no stage is called and there is no
    output. *)
Theorem run_missing_input_fails name (self : @Graph V)
    (kwargs : gmap string (list TRow)) :
  bound_to_iter name self → kwargs !! name = None →
  run_source files self kwargs = Raises KeyError
  ∧ ∀ fuel σ, run vle run_size files (S fuel) σ self kwargs = Raises KeyError.
Proof.
  intros [Htype Hsource] Hname.
  assert (run_source files self kwargs = Raises KeyError) as Hsrc.
  { unfold run_source. rewrite Htype, Hsource. simpl. by rewrite Hname. }
  split; [done|]. intros fuel σ. simpl. by rewrite Hsrc.
Qed.
End run_missing_input.

Lemma run_missing_input_fails_witness :
  bound_to_iter "docs" (graph_from_iter (V:=Z) "docs" ∅).1
  ∧ ({["texts" := players_left]} : gmap string (list (list (string * Z))))
      !! "docs" = None
  ∧ run Z.leb 2 ∅ 1 ∅ (graph_from_iter "docs" ∅).1
      {["texts" := players_left]} = Raises KeyError.
Proof.
  split; [|split]; [done|done|].
  apply (run_missing_input_fails Z.leb 2 ∅ "docs"
           (graph_from_iter "docs" ∅).1 {["texts" := players_left]});
    done.
Defined.

(** ** The graph builder leaves the graph it is called on alone *)

Section builder.
Context {V : Type} `{EqDecision V}.
Variable vle : V → V → bool.
Variable run_size : nat.
Variable files : gmap string (list string).

Local Abbreviation TRow := (list (string * V)).

Lemma fresh_loc_unused {X} (σ : gmap loc X) : σ !! fresh (dom σ) = None.
Proof. apply not_elem_of_dom, is_fresh. Qed.

(** A builder call allocates one list object, the stages of the receiver
    followed by the new stage, and touches nothing else. *)
Lemma build_store (self : @Graph V) call σ :
  let l := fresh (dom σ) in
  operations (build self call σ).1 = l
  ∧ (build self call σ).2
    = <[l := default [] (σ !! operations self) ++ [new_stage call]]> σ
  ∧ source_type (build self call σ).1 = source_type self
  ∧ source (build self call σ).1 = source self
  ∧ parser (build self call σ).1 = parser self
  ∧ fabric (build self call σ).1 = fabric self.
Proof.
  destruct call; simpl;
    unfold Graph_map, Graph_reduce, Graph_sort, Graph_join, Graph_copy,
      operations_append; simpl;
    rewrite lookup_insert_eq, insert_insert_eq; done.
Qed.

Lemma run_operations_ext
    (rg rg' : @Graph V → gmap string (list TRow) → outcome (list TRow))
    (P : @Graph V → Prop) ops current kwargs :
  (∀ g kw, P g → rg' g kw = rg g kw) →
  (∀ joiner g keys, join_op joiner g keys ∈ ops → P g) →
  run_operations vle run_size rg' ops current kwargs
  = run_operations vle run_size rg ops current kwargs.
Proof.
  intros Hrg. revert current. induction ops as [|op ops IH]; intros current Hops.
  { done. }
  simpl.
  assert (call_operation vle run_size rg' op current kwargs
          = call_operation vle run_size rg op current kwargs) as ->.
  { destruct op as [m|r ks|ks|j g ks]; simpl; try done.
    rewrite Hrg; [done|]. eapply Hops. constructor. }
  destruct (call_operation vle run_size rg op current kwargs);
    simpl; [|done..].
  apply IH. intros j g ks Hin. eapply Hops. by constructor.
Qed.

(** Running a graph reads only list objects that a closed store already
    holds, so a store that agrees with it on those gives the same run. *)
Lemma run_ext σ σ' fuel (self : @Graph V) kwargs :
  store_closed σ →
  (∀ l, is_Some (σ !! l) → σ' !! l = σ !! l) →
  is_Some (σ !! operations self) →
  run vle run_size files fuel σ' self kwargs
  = run vle run_size files fuel σ self kwargs.
Proof.
  intros Hclosed Hsame. revert self kwargs.
  induction fuel as [|fuel IH]; intros self kwargs Hself; [done|].
  simpl. destruct (run_source files self kwargs); simpl; [|done..].
  rewrite (Hsame _ Hself). destruct Hself as [ops Hops]. rewrite Hops. simpl.
  apply (run_operations_ext _ _ (λ g, is_Some (σ !! operations g))).
  - intros g kw Hg. by apply IH.
  - intros j g ks Hin. by eapply Hclosed.
Qed.

(** C3: a builder call ([map], [reduce], [sort] or [join]) on a graph of
    the store returns a graph whose stages are kept in a list object that
    did not exist before; the list of the receiver and every other list of
    the store are as they were, and running the receiver afterwards is the
    run it had before the call, so the stage just added is not executed. *)
Theorem Graph_build_keeps_original (self : @Graph V) call σ ops :
  σ !! operations self = Some ops → store_closed σ →
  (build self call σ).2 !! operations self = Some ops
  ∧ σ !! operations (build self call σ).1 = None
  ∧ (build self call σ).2 !! operations (build self call σ).1
    = Some (ops ++ [new_stage call])
  ∧ (∀ l, l ≠ operations (build self call σ).1 →
       (build self call σ).2 !! l = σ !! l)
  ∧ source_type (build self call σ).1 = source_type self
  ∧ source (build self call σ).1 = source self
  ∧ (∀ fuel kwargs,
       run vle run_size files fuel (build self call σ).2 self kwargs
       = run vle run_size files fuel σ self kwargs).
Proof.
  intros Hops Hclosed.
  destruct (build_store self call σ) as (Hl & Hσ & Htype & Hsource & _).
  rewrite Hl, Hσ, Hops. simpl.
  pose proof (fresh_loc_unused σ) as Hfresh.
  assert (operations self ≠ fresh (dom σ)) as Hne by congruence.
  repeat split; try done.
  - by rewrite lookup_insert_ne.
  - by rewrite lookup_insert_eq.
  - intros l Hl'. by rewrite lookup_insert_ne.
  - intros fuel kwargs. apply run_ext; [done| |by eexists].
    intros l [x Hx]. rewrite lookup_insert_ne; [done|]. congruence.
Qed.
End builder.

Lemma Graph_build_keeps_original_witness :
  (graph_from_iter (V:=Z) "docs" ∅).2
    !! operations (graph_from_iter (V:=Z) "docs" ∅).1 = Some []
  ∧ store_closed (graph_from_iter (V:=Z) "docs" ∅).2
  ∧ (build (V:=Z) (graph_from_iter "docs" ∅).1
       (call_map (λ row, Raises AssertionError))
       (graph_from_iter "docs" ∅).2).2
      !! operations (graph_from_iter (V:=Z) "docs" ∅).1 = Some [].
Proof.
  assert (store_closed (graph_from_iter (V:=Z) "docs" ∅).2) as Hclosed.
  { intros l ops joiner join_graph keys Hl Hin. simpl in Hl.
    apply lookup_insert_Some in Hl as [[_ <-]|[_ Hl]]; [by inv Hin|done]. }
  assert ((graph_from_iter (V:=Z) "docs" ∅).2
            !! operations (graph_from_iter (V:=Z) "docs" ∅).1 = Some [])
    as Hops by reflexivity.
  split; [exact Hops|]. split; [exact Hclosed|].
  exact (proj1 (Graph_build_keeps_original Z.leb 2 ∅
                  (graph_from_iter "docs" ∅).1
                  (call_map (λ row, Raises AssertionError))
                  (graph_from_iter "docs" ∅).2 [] Hops Hclosed)).
Defined.

(** ** Mappers that rewrite a column work on the input record itself *)

Section dict_facts.
Context {V : Type}.

Lemma dict_get_set_eq (d : list (string * V)) k v :
  dict_get (dict_set d k v) k = Some v.
Proof.
  induction d as [|[k' v'] d IH]; simpl.
  - by rewrite decide_True.
  - destruct (decide (k = k')) as [->|Hne]; simpl.
    + by rewrite decide_True.
    + by rewrite decide_False.
Qed.

Lemma dict_get_set_ne (d : list (string * V)) k k' v :
  k' ≠ k → dict_get (dict_set d k v) k' = dict_get d k'.
Proof.
  intros Hne. induction d as [|[k'' v''] d IH]; simpl.
  - by rewrite decide_False.
  - destruct (decide (k = k'')) as [->|Hne']; simpl.
    + by rewrite !decide_False.
    + by rewrite IH.
Qed.

Lemma dict_get_set (d : list (string * V)) k k' v :
  dict_get (dict_set d k v) k'
  = if decide (k' = k) then Some v else dict_get d k'.
Proof.
  case_decide as Hk; [subst; apply dict_get_set_eq|by apply dict_get_set_ne].
Qed.

Lemma dict_get_Some_in (d : list (string * V)) k v :
  dict_get d k = Some v → k ∈ dict_keys d.
Proof.
  induction d as [|[k' v'] d IH]; simpl; [done|].
  case_decide; [subst; intros _; by left|]. intros ?. right. by apply IH.
Qed.

Lemma dict_get_is_Some (d : list (string * V)) k :
  is_Some (dict_get d k) ↔ k ∈ dict_keys d.
Proof.
  split; [intros [v Hv]; by eapply dict_get_Some_in|].
  induction d as [|[k' v'] d IH]; simpl; [by intros ?%elem_of_nil|].
  case_decide; [by eexists|]. intros [?|?]%elem_of_cons; [done|by apply IH].
Qed.

(** Assigning to a key that is present keeps the keys in their order. *)
Lemma dict_keys_set_in (d : list (string * V)) k v :
  k ∈ dict_keys d → dict_keys (dict_set d k v) = dict_keys d.
Proof.
  induction d as [|[k' v'] d IH]; simpl; [by intros ?%elem_of_nil|].
  destruct (decide (k = k')) as [->|Hne]; simpl; [done|].
  intros [?|?]%elem_of_cons; [done|]. f_equal. by apply IH.
Qed.

Lemma dict_keys_set (d : list (string * V)) k v k' :
  k' ∈ dict_keys (dict_set d k v) ↔ k' = k ∨ k' ∈ dict_keys d.
Proof.
  rewrite <-!dict_get_is_Some, dict_get_set.
  destruct (decide (k' = k)) as [->|Hne].
  - split; [by left|by eexists].
  - split; [by right|]. by intros [?|?].
Qed.

(** Assigning the value a key already has changes nothing. *)
Lemma dict_set_same (d : list (string * V)) k v :
  dict_get d k = Some v → dict_set d k v = d.
Proof.
  induction d as [|[k' v'] d IH]; simpl; [done|].
  destruct (decide (k = k')) as [->|Hne]; [by intros [= ->]|].
  intros ?. f_equal. by apply IH.
Qed.
End dict_facts.

Section column_mappers.
Variable str_lower : string → string.

Local Abbreviation TRow := (list (string * pyval)).

Lemma rewrite_column_str method column row (h : gmap loc TRow) d s :
  h !! row = Some d → dict_get d column = Some (PyStr s) →
  rewrite_column method column row h
  = (Returns [row], <[row := dict_set d column (PyStr (method s))]> h).
Proof.
  intros Hrow Hcol. unfold rewrite_column, getitem. by rewrite Hrow; simpl; rewrite Hcol.
Qed.

(** C4, as the code has it: [FilterPunctuation] and [LowerCase] yield one
    record, the input record itself, after they have assigned the rewritten
    string to its column.  The input record keeps its fields and their
    order, keeps the value of every other field, and is what it was exactly
    when the rewritten string is the string it held; no other record of the
    heap is touched. *)
Theorem column_mappers_rewrite_in_place column row (h : gmap loc TRow) d s :
  h !! row = Some d → dict_get d column = Some (PyStr s) →
  FilterPunctuation column row h
  = (Returns [row], <[row := dict_set d column (PyStr (remove_punctuation s))]> h)
  ∧ LowerCase str_lower column row h
    = (Returns [row], <[row := dict_set d column (PyStr (str_lower s))]> h)
  ∧ (∀ v, dict_keys (dict_set d column v) = dict_keys d
          ∧ dict_get (dict_set d column v) column = Some v
          ∧ ∀ k, k ≠ column → dict_get (dict_set d column v) k = dict_get d k)
  ∧ (∀ method, (rewrite_column method column row h).2 = h ↔ method s = s)
  ∧ (∀ method l, l ≠ row →
       (rewrite_column method column row h).2 !! l = h !! l).
Proof.
  intros Hrow Hcol. unfold FilterPunctuation, LowerCase.
  rewrite !(rewrite_column_str _ _ _ _ _ _ Hrow Hcol).
  repeat split.
  - apply dict_keys_set_in. by eapply dict_get_Some_in.
  - apply dict_get_set_eq.
  - intros k Hk. by apply dict_get_set_ne.
  - rewrite (rewrite_column_str _ _ _ _ _ _ Hrow Hcol). simpl. intros Hh.
    assert (dict_set d column (PyStr (method s)) = d) as Hd.
    { apply (f_equal (.!! row)) in Hh. rewrite lookup_insert_eq, Hrow in Hh.
      congruence. }
    pose proof (dict_get_set_eq d column (PyStr (method s))) as Hget.
    rewrite Hd, Hcol in Hget. congruence.
  - intros Hfix. rewrite (rewrite_column_str _ _ _ _ _ _ Hrow Hcol).
    simpl. rewrite Hfix, dict_set_same by done. by apply insert_id.
  - intros method l Hl. rewrite (rewrite_column_str _ _ _ _ _ _ Hrow Hcol).
    simpl. by rewrite lookup_insert_ne.
Qed.
End column_mappers.

Lemma column_mappers_rewrite_in_place_witness :
  doc_heap !! 1%positive
    = Some [("doc_id", PyInt 1); ("text", PyStr "Hello, my little WORLD")]
  ∧ dict_get [("doc_id", PyInt 1); ("text", PyStr "Hello, my little WORLD")]
      "text" = Some (PyStr "Hello, my little WORLD")
  ∧ FilterPunctuation "text" 1%positive doc_heap
    = (Returns [1%positive],
       <[1%positive := dict_set [("doc_id", PyInt 1);
                                 ("text", PyStr "Hello, my little WORLD")]
                        "text"
                        (PyStr (remove_punctuation "Hello, my little WORLD"))]>
         doc_heap).
Proof.
  assert (doc_heap !! 1%positive
          = Some [("doc_id", PyInt 1); ("text", PyStr "Hello, my little WORLD")])
    as Hrow by reflexivity.
  assert (dict_get [("doc_id", PyInt 1); ("text", PyStr "Hello, my little WORLD")]
            "text" = Some (PyStr "Hello, my little WORLD"))
    as Hcol by reflexivity.
  split; [exact Hrow|]. split; [exact Hcol|].
  exact (proj1 (column_mappers_rewrite_in_place lower_ascii "text" 1%positive
                  doc_heap _ _ Hrow Hcol)).
Defined.

(** C4, as the specification words it, fails: after [FilterPunctuation] or
    [LowerCase] has been applied to the sample document, the record at the
    address of the input is not the record that was passed. *)
Lemma column_mappers_change_input :
  (FilterPunctuation "text" 1%positive doc_heap).2 !! 1%positive
    = Some [("doc_id", PyInt 1); ("text", PyStr "Hello my little WORLD")]
  ∧ (LowerCase lower_ascii "text" 1%positive doc_heap).2 !! 1%positive
    = Some [("doc_id", PyInt 1); ("text", PyStr "hello, my little world")]
  ∧ ¬ (∀ column row h,
         (FilterPunctuation column row h).2 !! row = h !! row)
  ∧ ¬ (∀ column row h,
         (LowerCase lower_ascii column row h).2 !! row = h !! row).
Proof.
  split; [reflexivity|]. split; [reflexivity|]. split.
  - intros Hpure. specialize (Hpure "text" 1%positive doc_heap).
    vm_compute in Hpure. discriminate.
  - intros Hpure. specialize (Hpure "text" 1%positive doc_heap).
    vm_compute in Hpure. discriminate.
Qed.

(** ** The order of key tuples *)

Section tuple_order.
Context {V : Type} `{EqDecision V}.
Variable vle : V → V → bool.
Context `{!TotalOrderB vle}.

Lemma tuple_le_nil_l (y : list V) : tuple_le vle [] y.
Proof. unfold tuple_le. by destruct y. Qed.

Lemma tuple_le_cons (a b : V) (x y : list V) :
  tuple_le vle (a :: x) (b :: y)
  ↔ (a = b ∧ tuple_le vle x y) ∨ (a ≠ b ∧ vle a b = true).
Proof.
  unfold tuple_le. simpl. destruct (decide (b = a)) as [->|Hne].
  - split; [by left|]. by intros [[_ ?]|[? _]].
  - split; [right; split; congruence|]. intros [[? _]|[_ ?]]; congruence.
Qed.

Lemma tuple_le_cons_nil (a : V) (x : list V) : ¬ tuple_le vle (a :: x) [].
Proof. unfold tuple_le. simpl. discriminate. Qed.

Global Instance tuple_le_refl : Reflexive (tuple_le vle).
Proof.
  intros x. induction x as [|a x IH]; [apply tuple_le_nil_l|].
  apply tuple_le_cons. by left.
Qed.

Global Instance tuple_le_trans : Transitive (tuple_le vle).
Proof.
  intros x. induction x as [|a x IH]; intros y z Hxy Hyz.
  { apply tuple_le_nil_l. }
  destruct y as [|b y]; [by apply tuple_le_cons_nil in Hxy|].
  destruct z as [|c z]; [by apply tuple_le_cons_nil in Hyz|].
  apply tuple_le_cons in Hxy. apply tuple_le_cons in Hyz. apply tuple_le_cons.
  destruct Hxy as [[-> Hxy]|[Hab Hxy]], Hyz as [[-> Hyz]|[Hbc Hyz]].
  - left. eauto.
  - by right.
  - by right.
  - right. split; [|by eapply vle_trans].
    intros ->. apply Hab. by eapply vle_antisym.
Qed.

Global Instance tuple_le_antisym : AntiSymm (=) (tuple_le vle).
Proof.
  intros x. induction x as [|a x IH]; intros y Hxy Hyx.
  { destruct y; [done|]. by apply tuple_le_cons_nil in Hyx. }
  destruct y as [|b y]; [by apply tuple_le_cons_nil in Hxy|].
  apply tuple_le_cons in Hxy. apply tuple_le_cons in Hyx.
  destruct Hxy as [[-> Hxy]|[Hab Hxy]], Hyx as [[? Hyx]|[Hba Hyx]];
    try done.
  - f_equal. by apply IH.
  - destruct Hab. by eapply vle_antisym.
Qed.

Lemma tuple_le_total (x y : list V) : tuple_le vle x y ∨ tuple_le vle y x.
Proof.
  revert y. induction x as [|a x IH]; intros y.
  { left. apply tuple_le_nil_l. }
  destruct y as [|b y]; [right; apply tuple_le_nil_l|].
  rewrite !tuple_le_cons. destruct (decide (a = b)) as [->|Hne].
  - destruct (IH y); [left|right]; by left.
  - destruct (vle_total vle a b); [left|right]; right; split; congruence.
Qed.

Global Instance tuple_lt_trans : Transitive (tuple_lt vle).
Proof.
  intros x y z [Hxy Hne] [Hyz Hne']. split; [by etrans|].
  intros ->. apply Hne. by apply (anti_symm (tuple_le vle)).
Qed.

Lemma tuple_lt_irrefl (x : list V) : ¬ tuple_lt vle x x.
Proof. by intros [_ ?]. Qed.

Lemma tuple_lt_le_trans (x y z : list V) :
  tuple_lt vle x y → tuple_le vle y z → tuple_lt vle x z.
Proof.
  intros [Hxy Hne] Hyz. split; [by etrans|].
  intros ->. apply Hne. by apply (anti_symm (tuple_le vle)).
Qed.

(** The comparison of the loop, [key_b >= key_a], on tuples that differ. *)
Lemma tuple_ge_lt (ka kb : list V) :
  ka ≠ kb → tuple_ge vle kb ka = true ↔ tuple_lt vle ka kb.
Proof. intros Hne. unfold tuple_lt, tuple_le. split; [done|by intros [? _]]. Qed.

Lemma tuple_ge_false_lt (ka kb : list V) :
  tuple_ge vle kb ka = false → tuple_lt vle kb ka.
Proof.
  intros Hge. destruct (tuple_le_total ka kb) as [Hle|Hle].
  - unfold tuple_le in Hle. congruence.
  - split; [done|]. intros ->. unfold tuple_le in Hle. congruence.
Qed.

Lemma StronglySorted_lt_NoDup (ks : list (list V)) :
  StronglySorted (tuple_lt vle) ks → NoDup ks.
Proof.
  induction 1 as [|k ks _ IH Hall]; constructor; [|done].
  intros Hin. rewrite Forall_forall in Hall.
  by apply (tuple_lt_irrefl k), Hall.
Qed.
End tuple_order.

(** ** Lists *)

Lemma elem_of_concat {A} (x : A) (ls : list (list A)) :
  x ∈ concat ls ↔ ∃ l, x ∈ l ∧ l ∈ ls.
Proof.
  induction ls as [|l ls IH]; simpl.
  - split; [by intros ?%elem_of_nil|by intros (? & _ & ?%elem_of_nil)].
  - rewrite elem_of_app, IH. split.
    + intros [?|(l' & ? & ?)]; [exists l|exists l']; split; try done;
        [by left|by right].
    + intros (l' & ? & [->|?]%elem_of_cons); [by left|right; eauto].
Qed.

Lemma filter_none {A} (P : A → Prop) `{∀ x, Decision (P x)} (l : list A) :
  (∀ x, x ∈ l → ¬ P x) → filter P l = [].
Proof.
  induction l as [|x l IH]; intros Hl; [done|].
  rewrite filter_cons_False by (apply Hl; by left).
  apply IH. intros y ?. apply Hl. by right.
Qed.

Lemma filter_all {A} (P : A → Prop) `{∀ x, Decision (P x)} (l : list A) :
  (∀ x, x ∈ l → P x) → filter P l = l.
Proof.
  induction l as [|x l IH]; intros Hl; [done|].
  rewrite filter_cons_True by (apply Hl; by left).
  f_equal. apply IH. intros y ?. apply Hl. by right.
Qed.

Lemma remove_dups_cons_in {A} `{EqDecision A} (x : A) (l : list A) :
  x ∈ l → remove_dups (x :: l) = remove_dups l.
Proof. intros Hx. simpl. by destruct (decide_rel elem_of x l). Qed.

Lemma remove_dups_cons_notin {A} `{EqDecision A} (x : A) (l : list A) :
  x ∉ l → remove_dups (x :: l) = x :: remove_dups l.
Proof. intros Hx. simpl. by destruct (decide_rel elem_of x l). Qed.

(** ** [itertools.groupby] on a sorted stream *)

Section groupby_sorted.
Context {A K : Type} `{EqDecision K}.
Variable key : A → outcome K.
Variable le : relation K.
Context `{!Transitive le, !AntiSymm (=) le}.

Local Abbreviation lt := (λ x y, le x y ∧ x ≠ y).

Lemma groupby_head l gs k g :
  groupby key l = Returns ((k, g) :: gs) →
  ∃ x l', l = x :: l' ∧ key x = Returns k.
Proof.
  destruct l as [|x l]; [done|].
  rewrite groupby_cons_Returns. intros (k0 & gs' & Hk & _ & Hgs).
  exists x, l. split; [done|].
  destruct gs' as [|[k' g'] gs'']; [by simplify_eq|].
  case_decide; by simplify_eq.
Qed.

Lemma groupby_nil_inv l : groupby key l = Returns [] → l = [].
Proof.
  destruct l as [|x l]; [done|].
  rewrite groupby_cons_Returns. intros (k & gs' & _ & _ & Hgs).
  destruct gs' as [|[k' g] gs'']; [done|]. by case_decide.
Qed.

Lemma groupby_key_in l gs x :
  groupby key l = Returns gs → x ∈ l → ∃ k, k ∈ gs.*1 ∧ key x = Returns k.
Proof.
  intros Hgs Hx. rewrite <-(groupby_concat _ _ _ Hgs) in Hx.
  apply elem_of_concat in Hx as (g & Hxg & Hg).
  apply list_elem_of_fmap in Hg as ([k g'] & -> & Hkg).
  pose proof (groupby_keys _ _ _ Hgs) as Hkeys.
  rewrite Forall_forall in Hkeys. specialize (Hkeys _ Hkg). simpl in *.
  rewrite Forall_forall in Hkeys. exists k. split; [|by apply Hkeys].
  apply list_elem_of_fmap. by exists (k, g').
Qed.

(** On a sorted stream the keys of the groups ascend strictly, and they
    are the distinct keys of the stream. *)
Lemma groupby_sorted_keys l ks gs :
  each key l = Returns ks → StronglySorted le ks →
  groupby key l = Returns gs →
  StronglySorted lt gs.*1 ∧ gs.*1 = remove_dups ks
  ∧ (∀ k, k ∈ gs.*1 → k ∈ ks).
Proof.
  revert ks gs. induction l as [|x l IH]; intros ks gs.
  { intros [= <-] _ [= <-]. repeat split; [constructor|done]. }
  rewrite each_cons_Returns, groupby_cons_Returns.
  intros (k & ks' & -> & Hk & Hks') Hsorted (k0 & gs' & Hk0 & Hgs' & ->).
  assert (k0 = k) as -> by congruence.
  apply StronglySorted_inv in Hsorted as [Hsorted Hall].
  destruct (IH _ _ Hks' Hsorted Hgs') as (IHs & IHd & IHin).
  rewrite Forall_forall in Hall.
  destruct gs' as [|[k' g] gs'']; simpl in *.
  - apply groupby_nil_inv in Hgs' as ->. simplify_eq/=.
    split; [by repeat constructor|]. by split.
  - assert (k' ∈ ks') as Hk'. { apply IHin. by left. }
    destruct (decide (k = k')) as [<-|Hne]; simpl.
    + destruct (decide_rel elem_of k ks'); [|done]. split; [done|]. split; [done|].
      intros k0 Hin. right. by apply IHin.
    + assert (k ∉ ks') as Hnin.
      { intros Hin. apply Hne. apply (anti_symm le); [by apply Hall|].
        apply StronglySorted_inv in IHs as [_ IHall].
        destruct (groupby_head _ _ _ _ Hgs') as (y & l' & -> & Hy).
        apply each_cons_Returns in Hks' as (ky & ks'' & -> & Hky & _).
        assert (ky = k') as -> by congruence.
        apply StronglySorted_inv in Hsorted as [_ Hall'].
        rewrite Forall_forall in Hall'.
        apply elem_of_cons in Hin as [->|Hin]; [done|by apply Hall']. }
      destruct (decide_rel elem_of k ks'); [done|].
      split; [|split; [by f_equal|]].
      * constructor; [done|].
        apply Forall_forall. intros z Hz. split.
        -- by apply Hall, IHin.
        -- intros ->. by apply Hnin, IHin.
      * intros k0 [->|Hin]%elem_of_cons; [by left|].
        right. by apply IHin.
Qed.

(** With pairwise distinct group keys, the group of a key holds all the
    rows of the stream with that key, in stream order. *)
Lemma groupby_groups l gs :
  groupby key l = Returns gs → NoDup gs.*1 →
  gs.*2 = (λ k, filter (λ x, key x = Returns k) l) <$> gs.*1.
Proof.
  revert gs. induction l as [|x l IH]; intros gs.
  { by intros [= <-]. }
  rewrite groupby_cons_Returns. intros (k & gs' & Hk & Hgs' & ->) Hnd.
  assert (∀ k', k' ≠ k →
            filter (λ y, key y = Returns k') (x :: l)
            = filter (λ y, key y = Returns k') l) as Hother.
  { intros k' Hk'. rewrite filter_cons_False; [done|]. congruence. }
  destruct gs' as [|[k' g] gs'']; simpl in *.
  - apply groupby_nil_inv in Hgs' as ->. by rewrite filter_cons_True.
  - destruct (decide (k = k')) as [<-|Hne]; simpl in *.
    + specialize (IH _ Hgs' Hnd). simpl in IH. injection IH as IHg IHrest.
      apply NoDup_cons in Hnd as [Hnin _].
      rewrite filter_cons_True by done. rewrite <-IHg. f_equal.
      rewrite IHrest. apply list_fmap_ext. intros i k' Hi.
      symmetry. apply Hother. intros ->. apply Hnin.
      by eapply list_elem_of_lookup_2.
    + apply NoDup_cons in Hnd as [Hnin Hnd].
      specialize (IH _ Hgs' Hnd). simpl in IH. injection IH as IHg IHrest.
      rewrite filter_cons_True by done.
      assert (filter (λ y, key y = Returns k) l = []) as ->.
      { apply filter_none. intros y Hy Hky.
        destruct (groupby_key_in _ _ _ Hgs' Hy) as (ky & Hin & Hky').
        apply Hnin. simpl in Hin. congruence. }
      f_equal. rewrite Hother by done. rewrite <-IHg. f_equal.
      rewrite IHrest. apply list_fmap_ext. intros i k'' Hi.
      symmetry. apply Hother. intros ->. apply Hnin. right.
      by eapply list_elem_of_lookup_2.
Qed.
End groupby_sorted.

(** ** Reduce on a key-sorted stream *)

Lemma yield_from_each_snd {A K B} (f : list A → outcome (list B))
    (gs : list (K * list A)) :
  yield_from_each (λ kg, f kg.2) gs = yield_from_each f gs.*2.
Proof. induction gs as [|[k g] gs IH]; simpl; [done|]. by rewrite IH. Qed.

Lemma each_Returns_elem {A B} (f : A → outcome B) (xs : list A) ys y :
  each f xs = Returns ys → y ∈ ys ↔ ∃ x, x ∈ xs ∧ f x = Returns y.
Proof.
  revert ys. induction xs as [|x xs IH]; intros ys.
  { intros [= <-]. split; [by intros ?%elem_of_nil|].
    by intros (? & ?%elem_of_nil & _). }
  rewrite each_cons_Returns. intros (y' & ys' & -> & Hx & Hxs).
  rewrite elem_of_cons, (IH _ Hxs). split.
  - intros [->|(x' & ? & ?)]; [exists x|exists x']; split; try done;
      [by left|by right].
  - intros (x' & [->|?]%elem_of_cons & Hx'); [left; congruence|right; eauto].
Qed.

Global Instance Z_leb_total_order : TotalOrderB Z.leb.
Proof.
  split.
  - intros x y. destruct (Z.leb_spec x y); [by left|right].
    apply Z.leb_le. lia.
  - intros x y z ?%Z.leb_le ?%Z.leb_le. apply Z.leb_le. lia.
  - intros x y ?%Z.leb_le ?%Z.leb_le. lia.
Qed.

Section Reduce_sorted.
Context {V : Type} `{EqDecision V}.
Variable vle : V → V → bool.
Context `{!TotalOrderB vle}.

Local Abbreviation TRow := (list (string * V)).

(** The groups of a key-sorted stream: one for every distinct key tuple,
    in ascending order, each with all the rows of its key. *)
Lemma key_sorted_groupby keys (rows : list TRow) :
  key_sorted vle keys rows →
  ∃ gs, groupby (grouper keys) rows = Returns gs
    ∧ StronglySorted (tuple_lt vle) gs.*1
    ∧ gs.*1 = distinct_keys keys rows
    ∧ gs.*2 = (λ k, key_group keys k rows) <$> gs.*1.
Proof.
  intros (ks & Hks & Hsorted).
  apply (Sorted_StronglySorted (tuple_le vle)) in Hsorted.
  destruct (each_groupby _ _ _ Hks) as [gs Hgs]. exists gs.
  destruct (groupby_sorted_keys (grouper keys) (tuple_le vle) rows ks gs
              Hks Hsorted Hgs) as (Hlt & Hd & _).
  split; [done|]. split; [done|]. split.
  - unfold distinct_keys. by rewrite Hks.
  - apply (groupby_groups (grouper keys)); [done|].
    by eapply StronglySorted_lt_NoDup.
Qed.

(** C6: on a stream that is key-sorted by [keys], [Reduce] calls the reducer
    once for every distinct key tuple of the stream; the call for a key
    tuple receives the rows with that key tuple, all of them and in stream
    order; the groups follow each other as in the stream, and the output is
    what the calls yield, one call after the other. *)
Theorem Reduce_groups_of_sorted {O}
    (reducer : list string → list TRow → outcome (list O))
    keys (rows : list TRow) :
  key_sorted vle keys rows →
  Reduce_call (λ _ group, Returns [group]) keys rows
  = Returns ((λ k, key_group keys k rows) <$> distinct_keys keys rows)
  ∧ Reduce_call reducer keys rows
    = yield_from_each (reducer keys)
        ((λ k, key_group keys k rows) <$> distinct_keys keys rows)
  ∧ NoDup (distinct_keys keys rows)
  ∧ (∀ k, k ∈ distinct_keys keys rows
          ↔ ∃ row, row ∈ rows ∧ grouper keys row = Returns k)
  ∧ concat ((λ k, key_group keys k rows) <$> distinct_keys keys rows) = rows.
Proof.
  intros Hsorted.
  destruct (key_sorted_groupby keys rows Hsorted) as (gs & Hgs & Hlt & Hd & Hg).
  rewrite <-Hd, <-Hg. unfold Reduce_call.
  change (get_value keys) with (@grouper V keys). rewrite Hgs. simpl.
  split; [|split; [apply (yield_from_each_snd (reducer keys))|]].
  { rewrite (yield_from_each_snd (λ group, Returns [group])).
    apply yield_from_each_record. }
  split; [by eapply StronglySorted_lt_NoDup|]. split.
  - intros k. rewrite Hd. destruct Hsorted as (ks & Hks & _).
    unfold distinct_keys. rewrite Hks, elem_of_remove_dups.
    by apply each_Returns_elem.
  - by eapply groupby_concat.
Qed.
End Reduce_sorted.

Lemma Reduce_groups_of_sorted_witness :
  key_sorted Z.leb ["player_id"] players_left
  ∧ Reduce_call (λ _ group, Returns [group]) ["player_id"] players_left
    = Returns ((λ k, key_group ["player_id"] k players_left)
                 <$> distinct_keys ["player_id"] players_left).
Proof.
  assert (key_sorted Z.leb ["player_id"] players_left) as Hsorted.
  { exists [[1]; [1]; [2]; [4]]%Z. split; [reflexivity|].
    repeat constructor. }
  split; [exact Hsorted|].
  apply (Reduce_groups_of_sorted Z.leb (λ _ group, Returns [group])
           ["player_id"] players_left Hsorted).
Defined.

(** ** Join with the inner joiner on key-sorted streams *)

Section Join_inner.
Context {V : Type} `{EqDecision V}.
Variable vle : V → V → bool.
Local Abbreviation TRow := (list (string * V)).

Lemma merge_calls_nil_nil : merge_calls vle [] [] = [].
Proof. done. Qed.
Lemma merge_calls_cons_nil ka (a : list TRow) ga :
  merge_calls vle ((ka, a) :: ga) [] = (Grouper a, PyList []) :: merge_calls vle ga [].
Proof. done. Qed.
Lemma merge_calls_nil_cons kb (b : list TRow) gb :
  merge_calls vle [] ((kb, b) :: gb) = (PyList [], Grouper b) :: merge_calls vle [] gb.
Proof. done. Qed.
Lemma merge_calls_cons_cons ka (a : list TRow) ga kb b gb :
  merge_calls vle ((ka, a) :: ga) ((kb, b) :: gb)
  = if decide (ka = kb) then (Grouper a, Grouper b) :: merge_calls vle ga gb
    else if tuple_ge vle kb ka
         then (Grouper a, PyList []) :: merge_calls vle ga ((kb, b) :: gb)
         else (PyList [], Grouper b) :: merge_calls vle ((ka, a) :: ga) gb.
Proof. done. Qed.

Local Arguments merge_calls : simpl never.

Lemma join_step_merge (st : join_state V) :
  join_ready st →
  match join_step vle st with
  | Break => merge_calls vle (pending_a st) (pending_b st) = []
  | Invoke rows_a rows_b st' =>
      merge_calls vle (pending_a st) (pending_b st)
      = (rows_a, rows_b) :: merge_calls vle (pending_a st') (pending_b st')
      ∧ join_ready st'
  end.
Proof.
  unfold join_ready, pending_a, pending_b.
  destruct st as [[] [] [[ka a]|] [[kb b]|] [|[ka' a'] ga] [|[kb' b'] gb]];
    unfold join_step; simpl; intros [Ha Hb];
    try (specialize (Ha eq_refl eq_refl)); try (specialize (Hb eq_refl eq_refl));
    try discriminate;
    repeat match goal with
    | |- context [decide (Some ?x = Some ?y)] =>
        destruct (decide (x = y)) as [->|?];
        [rewrite (decide_True (P:=Some y = Some y)) by done
        |rewrite (decide_False (P:=Some x = Some y)) by congruence]
    | |- context [decide (Some _ = None)] => rewrite decide_False by done
    | |- context [decide (None = Some _)] => rewrite decide_False by done
    | |- context [tuple_ge vle ?x ?y] => destruct (tuple_ge vle x y) eqn:?
    end; simpl; try done;
    (split; [|split; intros; by simplify_eq/=]);
    first [rewrite merge_calls_cons_cons|rewrite merge_calls_cons_nil
          |rewrite merge_calls_nil_cons];
    rewrite ?decide_True, ?decide_False by done;
    repeat match goal with H : tuple_ge _ _ _ = _ |- _ => rewrite H end;
    done.
Qed.

Lemma join_loop_merge keys fuel (st : join_state V) :
  join_ready st → pending st < fuel →
  join_loop vle (λ _ rows_a rows_b, Returns [(rows_a, rows_b)]) keys fuel st
  = Returns (merge_calls vle (pending_a st) (pending_b st)).
Proof.
  revert st. induction fuel as [|fuel IH]; intros st Hst Hlt; [lia|].
  simpl. pose proof (join_step_merge st Hst) as Hstep.
  destruct (join_step vle st) as [|rows_a rows_b st'] eqn:Hs; [by rewrite Hstep|].
  destruct Hstep as [-> Hst'].
  pose proof (join_step_pending _ _ _ _ _ Hs).
  rewrite IH by (done || lia). done.
Qed.

Lemma Join_call_merge keys (rows rows_b : list TRow) ga gb :
  groupby (grouper keys) rows = Returns ga →
  groupby (grouper keys) rows_b = Returns gb →
  Join_call vle (λ _ rows_a rows_b, Returns [(rows_a, rows_b)]) keys rows rows_b
  = Returns (merge_calls vle ga gb).
Proof.
  intros Ha Hb. unfold Join_call. rewrite Ha, Hb.
  apply join_loop_merge; [by split|lia].
Qed.

(** [_inner_join] settles the suffixes on the first pair and then maps
    every pair of the cross product. *)
Lemma for_row_b_settled self keys sa sb (row_a : TRow) rows_b :
  for_row_b self keys (Some sa, Some sb) row_a rows_b
  = (joined_row self sa sb row_a <$> rows_b, (Some sa, Some sb)).
Proof.
  induction rows_b as [|row_b rows_b IH]; [done|].
  simpl. by rewrite IH.
Qed.

Lemma for_row_a_settled self keys sa sb (rows_a rows_b : list TRow) :
  for_row_a self keys (Some sa, Some sb) rows_a rows_b
  = ((λ ab, joined_row self sa sb ab.1 ab.2) <$> list_prod rows_a rows_b,
     (Some sa, Some sb)).
Proof.
  induction rows_a as [|row_a rows_a IH]; [done|].
  simpl. rewrite for_row_b_settled, IH. simpl. f_equal.
  rewrite fmap_app. f_equal.
  clear. induction rows_b as [|row_b rows_b IHb]; [done|]. simpl. f_equal. exact IHb.
Qed.

Lemma for_row_a_nil self keys st (rows_a : list TRow) :
  for_row_a self keys st rows_a [] = ([], st).
Proof. induction rows_a as [|a l IH]; [done|]. simpl. by rewrite IH. Qed.

Lemma _inner_join_cross_product self keys (rows_a rows_b : iterable V) :
  _inner_join self keys rows_a rows_b
  = cross_product self keys (iter rows_a) (iter rows_b).
Proof.
  unfold _inner_join, cross_product.
  destruct (iter rows_a) as [|a0 rows_a']; [done|].
  destruct (iter rows_b) as [|b0 rows_b'].
  { by rewrite for_row_a_nil. }
  simpl. rewrite for_row_b_settled. simpl. rewrite for_row_a_settled. simpl.
  f_equal. rewrite fmap_app. f_equal.
  clear. induction rows_b' as [|row_b rows_b IHb]; [done|]. simpl. f_equal. exact IHb.
Qed.

Lemma InnerJoiner_cross_product self keys (rows_a rows_b : iterable V) :
  InnerJoiner self keys rows_a rows_b
  = Returns (cross_product self keys (iter rows_a) (iter rows_b)).
Proof.
  unfold InnerJoiner. rewrite _inner_join_cross_product.
  destruct rows_a as [ra|ra], rows_b as [rb|rb]; simpl; try done.
  - by rewrite orb_true_r.
  - destruct ra as [|a ra]; [|done]. destruct rb as [|b rb]; done.
Qed.

Lemma cross_product_nil_r self keys (group_a : list TRow) :
  cross_product self keys group_a [] = [].
Proof. by destruct group_a. Qed.

Lemma group_of_absent k (gs : list (list V * list TRow)) :
  k ∉ gs.*1 → group_of k gs = [].
Proof.
  induction gs as [|[k' g] gs IH]; [done|]. simpl.
  intros Hk. apply not_elem_of_cons in Hk as [? ?].
  rewrite decide_False by done. by apply IH.
Qed.

Lemma groups_join_skip self keys (ga gb : list (list V * list TRow)) kb b :
  kb ∉ ga.*1 →
  groups_join self keys ga ((kb, b) :: gb) = groups_join self keys ga gb.
Proof.
  unfold groups_join. induction ga as [|[ka a] ga IH]; [done|]. simpl.
  intros Hk. apply not_elem_of_cons in Hk as [? ?].
  rewrite decide_False by done. f_equal. by apply IH.
Qed.

Context `{!TotalOrderB vle}.

Lemma lt_all_not_in k (ks : list (list V)) :
  Forall (tuple_lt vle k) ks → k ∉ ks.
Proof.
  rewrite Forall_forall. intros Hall Hin.
  by apply (tuple_lt_irrefl vle k), Hall.
Qed.

Lemma lt_all_trans k k' (ks : list (list V)) :
  tuple_lt vle k k' → Forall (tuple_lt vle k') ks → Forall (tuple_lt vle k) ks.
Proof.
  intros Hk Hall. eapply Forall_impl; [done|]. intros z Hz. by etrans.
Qed.

Local Arguments merge_calls : simpl never.
Local Arguments groups_join : simpl never.
Local Arguments InnerJoiner : simpl never.
Local Arguments cross_product : simpl never.

(** On groups with strictly ascending keys, the inner joiner applied to
    the calls of the merge gives every left group against the right group
    of its key. *)
Lemma merge_calls_inner self keys (ga gb : list (list V * list TRow)) :
  StronglySorted (tuple_lt vle) ga.*1 → StronglySorted (tuple_lt vle) gb.*1 →
  yield_from_each (λ ab, InnerJoiner self keys ab.1 ab.2) (merge_calls vle ga gb)
  = Returns (groups_join self keys ga gb).
Proof.
  assert (∀ (rows_a rows_b : iterable V) calls out,
            yield_from_each (λ ab, InnerJoiner self keys ab.1 ab.2) calls
              = Returns out →
            yield_from_each (λ ab, InnerJoiner self keys ab.1 ab.2)
              ((rows_a, rows_b) :: calls)
            = Returns (cross_product self keys (iter rows_a) (iter rows_b)
                       ++ out)) as Hcons.
  { intros rows_a rows_b calls out Hout.
    change (yield_from_each _ (_ :: _))
      with (ys ← InnerJoiner self keys rows_a rows_b;
            zs ← yield_from_each (λ ab, InnerJoiner self keys ab.1 ab.2) calls;
            Returns (ys ++ zs)).
    by rewrite InnerJoiner_cross_product, Hout. }
  assert (∀ ka (a : list TRow) ga' gb',
            groups_join self keys ((ka, a) :: ga') gb'
            = cross_product self keys a (group_of ka gb')
              ++ groups_join self keys ga' gb') as Hjoin by done.
  revert gb. induction ga as [|[ka a] ga IHa]; intros gb Ha Hb.
  - clear Ha. induction gb as [|[kb b] gb IHb]; [done|].
    apply StronglySorted_inv in Hb as [Hb _].
    rewrite merge_calls_nil_cons. by rewrite (Hcons _ _ _ _ (IHb Hb)).
  - apply StronglySorted_inv in Ha as [Ha Hall].
    change (Forall (tuple_lt vle ka) ga.*1) in Hall.
    induction gb as [|[kb b] gb IHb].
    + rewrite merge_calls_cons_nil.
      rewrite (Hcons _ _ _ _ (IHa [] Ha Hb)), Hjoin. done.
    + pose proof Hb as Hb0.
      apply StronglySorted_inv in Hb as [Hb Hallb].
      change (Forall (tuple_lt vle kb) gb.*1) in Hallb.
      rewrite merge_calls_cons_cons, Hjoin.
      destruct (decide (ka = kb)) as [<-|Hne];
        [|destruct (tuple_ge vle kb ka) eqn:Hge].
      * rewrite (Hcons _ _ _ _ (IHa gb Ha Hb)). simpl.
        rewrite decide_True by done. f_equal. f_equal.
        symmetry. apply groups_join_skip. by apply lt_all_not_in.
      * rewrite (Hcons _ _ _ _ (IHa _ Ha Hb0)). simpl.
        rewrite decide_False by done.
        apply tuple_ge_lt in Hge; [|done..].
        rewrite group_of_absent, !cross_product_nil_r; [done|].
        apply lt_all_not_in. by eapply lt_all_trans.
      * rewrite (Hcons _ _ _ _ (IHb Hb)), Hjoin. simpl.
        rewrite decide_False by done.
        apply tuple_ge_false_lt in Hge; [|done].
        rewrite groups_join_skip; [done|].
        apply lt_all_not_in. by eapply lt_all_trans.
Qed.

Lemma group_of_fmap (f : list V → list TRow) k
    (gs : list (list V * list TRow)) :
  gs.*2 = f <$> gs.*1 → k ∈ gs.*1 → group_of k gs = f k.
Proof.
  induction gs as [|[k' g] gs IH]; [by intros _ ?%elem_of_nil|].
  simpl. intros [= Hg Hgs] Hin. destruct (decide (k = k')) as [->|Hne]; [done|].
  apply IH; [done|]. by apply elem_of_cons in Hin as [?|?].
Qed.

Lemma flat_map_groups {B} (f : list V → list TRow)
    (h : list V → list TRow → list B) (gs : list (list V * list TRow)) :
  gs.*2 = f <$> gs.*1 →
  flat_map (λ kg, h kg.1 kg.2) gs = flat_map (λ k, h k (f k)) gs.*1.
Proof.
  induction gs as [|[k g] gs IH]; [done|].
  simpl. intros [= Hg Hgs]. rewrite Hg. f_equal. by apply IH.
Qed.

Lemma flat_map_filter {A B} (P : A → Prop) `{∀ x, Decision (P x)}
    (f : A → list B) (l : list A) :
  (∀ x, ¬ P x → f x = []) → flat_map f (filter P l) = flat_map f l.
Proof.
  intros Hf. induction l as [|x l IH]; [done|].
  destruct (decide (P x)) as [HP|HP].
  - rewrite filter_cons_True by done. simpl. by rewrite IH.
  - rewrite filter_cons_False by done. simpl. by rewrite IH, (Hf x HP).
Qed.

Lemma flat_map_ext_in {A B} (f g : A → list B) (l : list A) :
  (∀ x, x ∈ l → f x = g x) → flat_map f l = flat_map g l.
Proof.
  induction l as [|x l IH]; intros Hfg; [done|].
  simpl. rewrite (Hfg x) by (by left). f_equal. apply IH.
  intros y ?. apply Hfg. by right.
Qed.

Lemma StronglySorted_filter {A} (R : relation A) (P : A → Prop)
    `{∀ x, Decision (P x)} (l : list A) :
  StronglySorted R l → StronglySorted R (filter P l).
Proof.
  induction 1 as [|x l _ IH Hall]; [constructor|].
  destruct (decide (P x)).
  - rewrite filter_cons_True by done. constructor; [done|].
    rewrite Forall_forall in *. intros y [_ ?]%list_elem_of_filter. by apply Hall.
  - by rewrite filter_cons_False.
Qed.

Lemma key_group_absent keys k (rows : list TRow) ks :
  projections keys rows = Returns ks →
  k ∉ distinct_keys keys rows → key_group keys k rows = [].
Proof.
  intros Hks Hk. apply filter_none. intros row Hrow Hkey. apply Hk.
  unfold distinct_keys. rewrite Hks, elem_of_remove_dups.
  eapply each_Returns_elem; eauto.
Qed.

Lemma matching_keys_elem keys (L R : list TRow) k :
  key_sorted vle keys L → key_sorted vle keys R →
  k ∈ matching_keys keys L R
  ↔ (∃ row, row ∈ L ∧ grouper keys row = Returns k)
    ∧ (∃ row, row ∈ R ∧ grouper keys row = Returns k).
Proof.
  intros (ksL & HL & _) (ksR & HR & _).
  unfold matching_keys, distinct_keys. rewrite HL, HR.
  rewrite list_elem_of_filter, !elem_of_remove_dups.
  rewrite (each_Returns_elem _ _ _ k HL), (each_Returns_elem _ _ _ k HR).
  tauto.
Qed.

(** C1: on two streams that are key-sorted by [keys], [Join] with the
    inner joiner yields the cross products of the groups of the key tuples
    that have rows on both sides, one key tuple after the other in strictly
    ascending order; a key tuple with rows on one side only is not among
    them and adds nothing to the output. *)
Theorem Join_inner_of_sorted self keys (L R : list TRow) :
  key_sorted vle keys L → key_sorted vle keys R →
  Join_call vle (InnerJoiner self) keys L R
  = Returns (inner_join_spec self keys L R)
  ∧ StronglySorted (tuple_lt vle) (matching_keys keys L R)
  ∧ (∀ k, k ∈ matching_keys keys L R
          ↔ (∃ row, row ∈ L ∧ grouper keys row = Returns k)
            ∧ (∃ row, row ∈ R ∧ grouper keys row = Returns k)).
Proof.
  intros HL HR.
  destruct (key_sorted_groupby vle keys L HL) as (ga & Hga & Hlta & Hda & Hfa).
  destruct (key_sorted_groupby vle keys R HR) as (gb & Hgb & Hltb & Hdb & Hfb).
  split; [|split].
  - rewrite (Join_call_calls vle (InnerJoiner self) keys L R _
               (Join_call_merge keys L R ga gb Hga Hgb)).
    rewrite (merge_calls_inner self keys ga gb Hlta Hltb). f_equal.
    unfold groups_join, inner_join_spec, matching_keys.
    rewrite (flat_map_groups (λ k, key_group keys k L)
               (λ k g, cross_product self keys g (group_of k gb)) ga Hfa).
    rewrite Hda, flat_map_filter.
    + apply flat_map_ext_in. intros k Hk. f_equal.
      destruct (decide (k ∈ gb.*1)) as [Hin|Hnin].
      * by apply (group_of_fmap (λ k, key_group keys k R)).
      * rewrite group_of_absent by done. symmetry.
        destruct HR as (ks & Hks & _).
        eapply key_group_absent; [done|]. by rewrite <-Hdb.
    + intros k Hk. destruct HR as (ks & Hks & _).
      by rewrite (key_group_absent keys k R ks Hks Hk), cross_product_nil_r.
  - unfold matching_keys. apply StronglySorted_filter. by rewrite <-Hda.
  - intros k. by apply matching_keys_elem.
Qed.
End Join_inner.

Lemma Join_inner_of_sorted_witness :
  key_sorted Z.leb ["player_id"] players_left
  ∧ key_sorted Z.leb ["player_id"] players_right
  ∧ Join_call Z.leb (InnerJoiner Joiner_init) ["player_id"]
      players_left players_right
    = Returns (inner_join_spec Joiner_init ["player_id"]
                 players_left players_right).
Proof.
  assert (key_sorted Z.leb ["player_id"] players_left) as HL.
  { exists [[1]; [1]; [2]; [4]]%Z. split; [reflexivity|]. repeat constructor. }
  assert (key_sorted Z.leb ["player_id"] players_right) as HR.
  { exists [[0]; [1]; [1]; [4]; [5]]%Z. split; [reflexivity|].
    repeat constructor. }
  split; [exact HL|]. split; [exact HR|].
  apply (Join_inner_of_sorted Z.leb Joiner_init ["player_id"]
           players_left players_right HL HR).
Defined.

(** ** The suffixes of the joined rows *)

Section suffix_policy.
Context {V : Type} `{EqDecision V}.
Local Abbreviation TRow := (list (string * V)).

Lemma dict_set_NoDup (d : TRow) k v :
  NoDup (dict_keys d) → NoDup (dict_keys (dict_set d k v)).
Proof.
  intros Hd. destruct (decide (k ∈ dict_keys d)) as [Hin|Hnin].
  - by rewrite dict_keys_set_in.
  - revert Hd Hnin. unfold dict_keys.
    induction d as [|[k' v'] d IH]; simpl; intros Hd Hnin.
    + apply NoDup_singleton.
    + apply not_elem_of_cons in Hnin as [Hne Hnin].
      apply NoDup_cons in Hd as [Hk' Hd].
      rewrite decide_False by done. simpl. apply NoDup_cons. split; [|by apply IH].
      intros Hin. apply (dict_keys_set d k v k') in Hin as [?|?]; [congruence|done].
Qed.

Lemma dict_keys_union (d1 d2 : TRow) x :
  x ∈ dict_keys (dict_union d1 d2) ↔ x ∈ dict_keys d1 ∨ x ∈ dict_keys d2.
Proof.
  unfold dict_union. revert d1. induction d2 as [|[k v] d2 IH]; intros d1; simpl.
  - split; [by left|]. by intros [?|?%elem_of_nil].
  - rewrite IH, dict_keys_set, elem_of_cons. tauto.
Qed.

Lemma dict_get_union_notin (d1 d2 : TRow) x :
  x ∉ dict_keys d2 → dict_get (dict_union d1 d2) x = dict_get d1 x.
Proof.
  unfold dict_union. revert d1. induction d2 as [|[k v] d2 IH]; intros d1; simpl.
  - done.
  - intros [Hne Hnin]%not_elem_of_cons. rewrite IH by done.
    by apply dict_get_set_ne.
Qed.

Lemma dict_get_union (d1 d2 : TRow) x :
  NoDup (dict_keys d2) →
  dict_get (dict_union d1 d2) x
  = match dict_get d2 x with Some v => Some v | None => dict_get d1 x end.
Proof.
  revert d1. induction d2 as [|[k v] d2 IH]; intros d1 Hnd; [done|].
  apply NoDup_cons in Hnd as [Hk Hnd]. simpl.
  change (dict_get (dict_union (dict_set d1 k v) d2) x = 
          match (if decide (x = k) then Some v else dict_get d2 x) with
          | Some v => Some v | None => dict_get d1 x end).
  destruct (decide (x = k)) as [->|Hne].
  - rewrite dict_get_union_notin by done. apply dict_get_set_eq.
  - rewrite IH by done. destruct (dict_get d2 x); [done|].
    by apply dict_get_set_ne.
Qed.


Lemma dict_comp_NoDup name (d : TRow) : NoDup (dict_keys (dict_comp name d)).
Proof.
  unfold dict_comp.
  assert (∀ ks acc, NoDup (dict_keys acc) →
            NoDup (dict_keys (foldl (dict_comp_step name d) acc ks))) as Hgen.
  { induction ks as [|k ks IH]; intros acc Hacc; [done|]. simpl. apply IH.
    unfold dict_comp_step. destruct (dict_get d k); [by apply dict_set_NoDup|done]. }
  apply Hgen. constructor.
Qed.

Lemma dict_comp_keys name (d : TRow) x :
  x ∈ dict_keys (dict_comp name d) ↔ ∃ k, k ∈ dict_keys d ∧ name k = x.
Proof.
  unfold dict_comp.
  assert (∀ ks acc, (∀ k, k ∈ ks → k ∈ dict_keys d) →
            x ∈ dict_keys (foldl (dict_comp_step name d) acc ks)
            ↔ x ∈ dict_keys acc ∨ ∃ k, k ∈ ks ∧ name k = x) as Hgen.
  { induction ks as [|k ks IH]; intros acc Hks; simpl.
    - split; [by left|]. by intros [?|(? & ?%elem_of_nil & _)].
    - rewrite IH by (intros; apply Hks; by right).
      assert (is_Some (dict_get d k)) as [v Hv].
      { apply dict_get_is_Some, Hks. by left. }
      unfold dict_comp_step. rewrite Hv, dict_keys_set. split.
      + intros [[->|?]|(k' & ? & ?)]; [right; exists k|by left|right; exists k'];
          split; try done; [by left|by right].
      + intros [?|(k' & [->|?]%elem_of_cons & ?)];
          [by left; right|by left; left|right; eauto]. }
  rewrite Hgen by done. split; [|by right].
  by intros [?%elem_of_nil|?].
Qed.

Lemma dict_comp_get name (d : TRow) x k :
  k ∈ dict_keys d → name k = x →
  (∀ k', k' ∈ dict_keys d → k' ≠ k → name k' ≠ x) →
  dict_get (dict_comp name d) x = dict_get d k.
Proof.
  intros Hk Hname Huniq. unfold dict_comp.
  assert (∀ ks acc, (∀ k', k' ∈ ks → k' ∈ dict_keys d) →
            dict_get (foldl (dict_comp_step name d) acc ks) x
            = if decide (k ∈ ks) then dict_get d k else dict_get acc x) as Hgen.
  { induction ks as [|k1 ks IH]; intros acc Hks; simpl.
    - by destruct (decide (k ∈ [])) as [?%elem_of_nil|].
    - rewrite IH by (intros; apply Hks; by right).
      destruct (decide (k ∈ ks)) as [Hin|Hnin].
      + rewrite decide_True; [done|by right].
      + unfold dict_comp_step. destruct (decide (k1 = k)) as [Heq|Hne].
        * subst k1 x. rewrite decide_True by (by left).
          apply dict_get_is_Some in Hk as [v Hv]. rewrite Hv.
          apply dict_get_set_eq.
        * rewrite decide_False by (by intros [?|?]%elem_of_cons).
          destruct (dict_get d k1); [|done].
          apply dict_get_set_ne. intros Hx.
          apply (Huniq k1); [apply Hks; by left|done..]. }
  rewrite Hgen by done. by rewrite decide_True.
Qed.

Lemma elem_of_common_fields keys (row other : TRow) k :
  k ∈ common_fields keys row other
  ↔ k ∈ dict_keys row ∧ k ∈ dict_keys other ∧ k ∉ keys.
Proof.
  unfold common_fields. rewrite elem_of_list_to_set, list_elem_of_filter. tauto.
Qed.

Lemma _inner_join_lookup self keys (group_a group_b : list TRow) a0 b0 i a b :
  head group_a = Some a0 → head group_b = Some b0 →
  list_prod group_a group_b !! i = Some (a, b) →
  (_inner_join self keys (Grouper group_a) (Grouper group_b)) !! i
  = Some (joined_row self (common_fields keys a0 b0)
            (common_fields keys b0 a0) a b).
Proof.
  intros Ha Hb Hi. rewrite _inner_join_cross_product.
  destruct group_a as [|a0' group_a]; [done|].
  destruct group_b as [|b0' group_b]; [done|].
  injection Ha as ->. injection Hb as ->.
  change (((λ ab, joined_row self (common_fields keys a0 b0)
                    (common_fields keys b0 a0) ab.1 ab.2)
             <$> list_prod (a0 :: group_a) (b0 :: group_b)) !! i = 
          Some (joined_row self (common_fields keys a0 b0)
                  (common_fields keys b0 a0) a b)).
  by rewrite list_lookup_fmap, Hi.
Qed.

(** C2, as the code has it: in one call of a joiner, the names to be
    suffixed are settled on the first pair of rows ([a0], [b0]) and used for
    every pair ([a], [b]) of the call.  A field that is not a key and is in
    both rows of the first pair is written under its name with the left
    suffix for a left row that has it, and with the right suffix for a
    right row that has it, so it is emitted twice when both rows of the pair
    have it; the two names hold the values of the two rows as long as no
    other field of the pair is written under the same name.  A key field is
    written under its own name. *)
Theorem inner_join_suffix_policy self keys (group_a group_b : list TRow)
    a0 b0 i a b k :
  head group_a = Some a0 → head group_b = Some b0 →
  list_prod group_a group_b !! i = Some (a, b) →
  ∃ out,
    (_inner_join self keys (Grouper group_a) (Grouper group_b)) !! i
      = Some out
    ∧ (k ∉ keys → k ∈ dict_keys a0 → k ∈ dict_keys b0 →
       (k ∈ dict_keys a → (k +:+ _a_suffix self) ∈ dict_keys out)
       ∧ (k ∈ dict_keys b → (k +:+ _b_suffix self) ∈ dict_keys out)
       ∧ (k ∈ dict_keys b →
          (∀ k', k' ∈ dict_keys b → k' ≠ k →
             suffixed (_b_suffix self) (common_fields keys b0 a0) k'
             ≠ k +:+ _b_suffix self) →
          dict_get out (k +:+ _b_suffix self) = dict_get b k)
       ∧ (k ∈ dict_keys a →
          (∀ k', k' ∈ dict_keys a → k' ≠ k →
             suffixed (_a_suffix self) (common_fields keys a0 b0) k'
             ≠ k +:+ _a_suffix self) →
          (∀ k', k' ∈ dict_keys b →
             suffixed (_b_suffix self) (common_fields keys b0 a0) k'
             ≠ k +:+ _a_suffix self) →
          dict_get out (k +:+ _a_suffix self) = dict_get a k))
    ∧ (k ∈ keys → k ∈ dict_keys a ∨ k ∈ dict_keys b → k ∈ dict_keys out).
Proof.
  intros Ha0 Hb0 Hi. eexists. split; [by eapply _inner_join_lookup|].
  unfold joined_row.
  set (name_a := suffixed (_a_suffix self) (common_fields keys a0 b0)).
  set (name_b := suffixed (_b_suffix self) (common_fields keys b0 a0)).
  split.
  - intros Hk Hka0 Hkb0.
    assert (name_a k = k +:+ _a_suffix self) as Hna.
    { unfold name_a, suffixed. rewrite decide_True; [done|].
      by apply elem_of_common_fields. }
    assert (name_b k = k +:+ _b_suffix self) as Hnb.
    { unfold name_b, suffixed. rewrite decide_True; [done|].
      by apply elem_of_common_fields. }
    split; [|split; [|split]].
    + intros Hka. apply dict_keys_union. left. apply dict_comp_keys. eauto.
    + intros Hkb. apply dict_keys_union. right. apply dict_comp_keys. eauto.
    + intros Hkb Huniq. rewrite dict_get_union by apply dict_comp_NoDup.
      rewrite (dict_comp_get name_b b _ k Hkb Hnb Huniq).
      apply dict_get_is_Some in Hkb as [v Hv]. by rewrite Hv.
    + intros Hka Huniq Hfree. rewrite dict_get_union by apply dict_comp_NoDup.
      destruct (dict_get (dict_comp name_b b) (k +:+ _a_suffix self))
        as [v|] eqn:Hv.
      * assert (k +:+ _a_suffix self ∈ dict_keys (dict_comp name_b b)) as Hin.
        { apply dict_get_is_Some. by eexists. }
        apply dict_comp_keys in Hin as (k' & Hk' & Hname).
        by destruct (Hfree k' Hk').
      * by apply dict_comp_get.
  - intros Hk Hin.
    apply dict_keys_union. destruct Hin as [Hin|Hin]; [left|right];
      apply dict_comp_keys; exists k; (split; [done|]);
      unfold name_a, name_b, suffixed; rewrite decide_False; try done;
      intros HS; apply elem_of_common_fields in HS; tauto.
Qed.
End suffix_policy.

Lemma inner_join_suffix_policy_witness :
  head [player 1 10] = Some (player 1 10)
  ∧ list_prod [player 1 10] [player 1 10] !! 0
    = Some (player 1 10, player 1 10)
  ∧ ∃ out,
      (_inner_join Joiner_init ["player_id"] (Grouper [player 1 10])
         (Grouper [player 1 10])) !! 0 = Some out
      ∧ ("username" ∉ ["player_id"] → "username" ∈ dict_keys (player 1 10) →
         "username_1" ∈ dict_keys out ∧ "username_2" ∈ dict_keys out).
Proof.
  split; [reflexivity|]. split; [reflexivity|].
  destruct (inner_join_suffix_policy Joiner_init ["player_id"]
              [player 1 10] [player 1 10] (player 1 10) (player 1 10) 0
              (player 1 10) (player 1 10) "username" eq_refl eq_refl eq_refl)
    as (out & Hout & Hsuffix & _).
  exists out. split; [exact Hout|].
  intros Hkey Hin.
  destruct (Hsuffix Hkey Hin Hin) as (Ha & Hb & _).
  split; [exact (Ha Hin)|exact (Hb Hin)].
Defined.

(** C2, as the specification words it, fails: the second pair of the sample
    join has the field [x] on both sides, and its output row has [x] once,
    without a suffix, with the value of the right row. *)
Lemma inner_join_shared_field_unsuffixed :
  Join_call Z.leb (InnerJoiner Joiner_init) ["id"] mixed_left mixed_right
  = Returns [[("id", 1%Z); ("x", 7%Z)]; [("id", 1%Z); ("x", 7%Z)]]
  ∧ list_prod mixed_left mixed_right !! 1
    = Some ([("id", 1%Z); ("x", 5%Z)], [("id", 1%Z); ("x", 7%Z)])
  ∧ (_inner_join Joiner_init ["id"] (Grouper mixed_left)
       (Grouper mixed_right)) !! 1 = Some [("id", 1%Z); ("x", 7%Z)]
  ∧ ("x_1" ∉ dict_keys [("id", 1%Z); ("x", 7%Z)])
  ∧ ¬ suffix_policy_as_worded (V:=Z) Joiner_init.
Proof.
  split; [reflexivity|]. split; [reflexivity|]. split; [reflexivity|].
  assert ("x_1" ∉ dict_keys [("id", 1%Z); ("x", 7%Z)]) as Hnot.
  { intros Hin. repeat (apply elem_of_cons in Hin as [Hin|Hin]; [discriminate|]).
    by apply elem_of_nil in Hin. }
  split; [exact Hnot|].
  intros Hworded.
  destruct (Hworded ["id"] mixed_left mixed_right 1
              [("id", 1%Z); ("x", 5%Z)] [("id", 1%Z); ("x", 7%Z)] [1%Z] "x"
              [("id", 1%Z); ("x", 7%Z)]) as [Hx1 _]; try reflexivity.
  - intros Hin. apply elem_of_cons in Hin as [Hin|Hin]; [discriminate|].
    by apply elem_of_nil in Hin.
  - right. left.
  - right. left.
  - by apply Hnot.
Qed.

(** ** The external sort *)

Section sorting.
Context {A : Type}.
Variable le : A → A → bool.
Hypothesis le_total : ∀ x y, le x y = true ∨ le y x = true.
Hypothesis le_trans : ∀ x y z, le x y = true → le y z = true → le x z = true.

Local Abbreviation leP := (λ x y, le x y = true).
(** [tied z x]: the records [z] and [x] have the same key. *)
Local Abbreviation tied := (λ z x, le z x = true ∧ le x z = true).

Lemma not_le_flip x y : le x y = false → le y x = true.
Proof. intros Hxy. destruct (le_total x y); congruence. Qed.

(** Sorting a buffer. *)
Lemma insert_sorted_perm x l : insert_sorted le x l ≡ₚ x :: l.
Proof.
  induction l as [|y l IH]; simpl; [done|].
  destruct (le x y); [done|]. rewrite IH. apply Permutation_swap.
Qed.

Lemma insert_sorted_sorted x l :
  StronglySorted leP l → StronglySorted leP (insert_sorted le x l).
Proof.
  induction 1 as [|y l Hl IH Hall]; simpl; [by repeat constructor|].
  destruct (le x y) eqn:Hxy.
  - constructor; [by constructor|]. constructor; [done|].
    eapply Forall_impl; [done|]. intros z Hz. by eapply le_trans.
  - constructor; [done|]. rewrite insert_sorted_perm.
    constructor; [by apply not_le_flip|done].
Qed.

Lemma insert_sorted_tied z x l :
  filter (tied z) (insert_sorted le x l) = filter (tied z) (x :: l).
Proof.
  induction l as [|y l IH]; simpl; [done|].
  destruct (le x y) eqn:Hxy; [done|].
  rewrite (filter_cons _ y), IH, (filter_cons _ x (y :: l)), (filter_cons _ y l),
    (filter_cons _ x l).
  destruct (decide (tied z x)) as [[Hzx Hxz]|Hx],
           (decide (tied z y)) as [[Hzy Hyz]|Hy]; try done.
  rewrite (le_trans x z y) in Hxy; done.
Qed.

Lemma sort_buffer_perm l : sort_buffer le l ≡ₚ l.
Proof.
  induction l as [|x l IH]; [done|]. simpl.
  by rewrite insert_sorted_perm, IH.
Qed.

Lemma sort_buffer_sorted l : StronglySorted leP (sort_buffer le l).
Proof.
  induction l as [|x l IH]; [constructor|]. by apply insert_sorted_sorted.
Qed.

Lemma sort_buffer_tied z l :
  filter (tied z) (sort_buffer le l) = filter (tied z) l.
Proof.
  induction l as [|x l IH]; [done|]. simpl.
  by rewrite insert_sorted_tied, !filter_cons, IH.
Qed.

(** Run generation. *)
Local Arguments sort_buffer : simpl never.

Lemma make_runs_spec run_size z buffer rows :
  concat (make_runs le run_size buffer rows) ≡ₚ buffer ++ rows
  ∧ Forall (StronglySorted leP) (make_runs le run_size buffer rows)
  ∧ filter (tied z) (concat (make_runs le run_size buffer rows))
    = filter (tied z) (buffer ++ rows).
Proof.
  revert buffer. induction rows as [|row rows IH]; intros buffer; simpl.
  - destruct buffer as [|x buffer]; [by repeat split|].
    simpl. rewrite !app_nil_r. split; [apply sort_buffer_perm|].
    split; [repeat constructor; apply sort_buffer_sorted|apply sort_buffer_tied].
  - destruct (decide (run_size ≤ length (buffer ++ [row]))).
    + destruct (IH []) as (Hp & Hs & Ht). simpl in *.
      split; [|split].
      * by rewrite Hp, sort_buffer_perm, <-(assoc_L (++)).
      * constructor; [apply sort_buffer_sorted|done].
      * by rewrite !filter_app, Ht, sort_buffer_tied, <-!filter_app,
          <-(assoc_L (++)).
    + destruct (IH (buffer ++ [row])) as (Hp & Hs & Ht).
      rewrite <-(assoc_L (++)) in Hp, Ht. done.
Qed.

(** One pop of the heap. *)
Lemma pop_min_None runs : pop_min le runs = None → concat runs = [].
Proof.
  induction runs as [|[|x run] runs IH]; simpl; [done|done|].
  destruct (pop_min le runs) as [[y rest]|]; [|done]. by destruct (le x y).
Qed.

Lemma pop_min_Some z runs x rest :
  Forall (StronglySorted leP) runs →
  pop_min le runs = Some (x, rest) →
  concat runs ≡ₚ x :: concat rest
  ∧ Forall (StronglySorted leP) rest
  ∧ Forall (leP x) (concat rest)
  ∧ filter (tied z) (concat runs) = filter (tied z) (x :: concat rest).
Proof.
  revert x rest. induction runs as [|[|x0 run] runs IH]; intros x rest Hs; simpl.
  - done.
  - apply Forall_cons in Hs as [_ Hs]. by apply IH.
  - apply Forall_cons in Hs as [Hrun Hs].
    apply StronglySorted_inv in Hrun as [Hrun Hall].
    destruct (pop_min le runs) as [[y rest']|] eqn:Hpop.
    + destruct (IH y rest' Hs eq_refl) as (Hp & Hs' & Hmin & Ht).
      destruct (le x0 y) eqn:Hxy; intros [= <- <-]; simpl.
      * split; [done|]. split; [by constructor|]. split; [|done].
        apply Forall_app. split; [done|]. rewrite Hp. constructor; [done|].
        eapply Forall_impl; [done|]. intros w Hw. by eapply le_trans.
      * pose proof (not_le_flip _ _ Hxy) as Hyx.
        split; [rewrite Hp, <-Permutation_middle; apply Permutation_swap|].
        split; [constructor; [by constructor|done]|]. split.
        { constructor; [done|]. apply Forall_app. split; [|done].
          eapply Forall_impl; [done|]. intros w Hw. by eapply le_trans. }
        rewrite (filter_cons _ x0), !filter_app, Ht, (filter_cons _ y),
          (filter_cons _ y), (filter_cons _ x0), !filter_app.
        destruct (decide (tied z y)) as [[Hzy Hyz]|Hy]; [|done].
        assert (filter (tied z) run = []) as ->.
        { apply filter_none. intros w Hw [Hzw Hwz].
          rewrite Forall_forall in Hall. specialize (Hall w Hw). simpl in Hall.
          rewrite (le_trans x0 w y) in Hxy; [done..|]. by eapply le_trans. }
        destruct (decide (tied z x0)) as [[Hzx Hxz]|Hx]; [|done].
        rewrite (le_trans x0 z y) in Hxy; done.
    + intros [= <- <-]. simpl. apply pop_min_None in Hpop.
      split; [done|]. split; [by constructor|]. split; [|done].
      rewrite Hpop, app_nil_r. done.
Qed.

(** The merge of the runs. *)
Lemma merge_runs_spec z fuel runs :
  Forall (StronglySorted leP) runs → fuel = length (concat runs) →
  merge_runs le fuel runs ≡ₚ concat runs
  ∧ StronglySorted leP (merge_runs le fuel runs)
  ∧ filter (tied z) (merge_runs le fuel runs) = filter (tied z) (concat runs).
Proof.
  revert runs. induction fuel as [|fuel IH]; intros runs Hs Hfuel; simpl.
  - symmetry in Hfuel. apply length_zero_iff_nil in Hfuel. rewrite Hfuel.
    by repeat constructor.
  - destruct (pop_min le runs) as [[x rest]|] eqn:Hpop.
    + destruct (pop_min_Some z runs x rest Hs Hpop) as (Hp & Hs' & Hmin & Ht).
      assert (fuel = length (concat rest)) as Hfuel'.
      { rewrite Hp in Hfuel. simpl in Hfuel. lia. }
      destruct (IH rest Hs' Hfuel') as (IHp & IHs & IHt).
      split; [by rewrite Hp, IHp|]. split; [constructor; [done|by rewrite IHp]|].
      by rewrite Ht, !filter_cons, IHt.
    + apply pop_min_None in Hpop. by rewrite Hpop in Hfuel.
Qed.

Lemma external_sort_spec run_size z rows :
  kway_merge le (make_runs le run_size [] rows) ≡ₚ rows
  ∧ StronglySorted leP (kway_merge le (make_runs le run_size [] rows))
  ∧ filter (tied z) (kway_merge le (make_runs le run_size [] rows))
    = filter (tied z) rows.
Proof.
  destruct (make_runs_spec run_size z [] rows) as (Hp & Hs & Ht).
  destruct (merge_runs_spec z _ _ Hs eq_refl) as (Hp' & Hs' & Ht').
  unfold kway_merge. split; [by rewrite Hp'|]. split; [done|].
  by rewrite Ht'.
Qed.
End sorting.

Section ExternalSort_facts.
Context {V : Type} `{EqDecision V}.
Variable vle : V → V → bool.
Context `{!TotalOrderB vle}.

Local Abbreviation TRow := (list (string * V)).

Lemma keyed_le_total (x y : list V * TRow) :
  keyed_le vle x y = true ∨ keyed_le vle y x = true.
Proof. apply (tuple_le_total vle). Qed.

Lemma keyed_le_trans (x y z : list V * TRow) :
  keyed_le vle x y = true → keyed_le vle y z = true → keyed_le vle x z = true.
Proof. apply (tuple_le_trans vle). Qed.

Lemma keyed_tied (k : list V) (p : list V * TRow) :
  (keyed_le vle (k, []) p = true ∧ keyed_le vle p (k, []) = true) ↔ p.1 = k.
Proof.
  split.
  - intros [? ?]. by apply (anti_symm (tuple_le vle)).
  - intros <-. split; apply (tuple_le_refl vle).
Qed.

(** Pairing every row with its key tuple. *)
Lemma each_keyed keys (rows : list TRow) ks :
  projections keys rows = Returns ks →
  ∃ keyed,
    each (λ row, k ← grouper keys row; Returns (k, row)) rows = Returns keyed
    ∧ keyed.*2 = rows
    ∧ Forall (λ p, grouper keys p.2 = Returns p.1) keyed.
Proof.
  revert ks. induction rows as [|row rows IH]; intros ks.
  { intros _. by exists []. }
  unfold projections. rewrite each_cons_Returns.
  intros (k & ks' & -> & Hk & Hks). destruct (IH _ Hks) as (keyed & He & H2 & Hall).
  exists ((k, row) :: keyed). simpl. rewrite Hk. simpl. rewrite He. simpl.
  split; [done|]. split; [by f_equal|]. by constructor.
Qed.

Lemma projections_keyed keys (keyed : list (list V * TRow)) :
  Forall (λ p, grouper keys p.2 = Returns p.1) keyed →
  projections keys keyed.*2 = Returns keyed.*1.
Proof.
  unfold projections. induction 1 as [|[k row] keyed Hk _ IH]; [done|].
  apply each_cons_Returns. by exists k, keyed.*1.
Qed.

Lemma key_group_keyed keys k (keyed : list (list V * TRow)) :
  Forall (λ p, grouper keys p.2 = Returns p.1) keyed →
  key_group keys k keyed.*2 = (filter (λ p, p.1 = k) keyed).*2.
Proof.
  unfold key_group. induction 1 as [|[k' row] keyed Hk _ IH]; [done|].
  rewrite fmap_cons. simpl in Hk |- *.
  destruct (decide (k' = k)) as [->|Hne].
  - rewrite (filter_cons_True _ row), (filter_cons_True _ (k, row)) by done.
    rewrite fmap_cons. by rewrite IH.
  - rewrite (filter_cons_False _ row), (filter_cons_False _ (k', row));
      [done|done|]. rewrite Hk. congruence.
Qed.

(** C5 (the sort stage is the missing [external_sort.py], modelled from the
    spec): on a stream whose rows all have the key fields, the sort stage
    returns a permutation of its input that is key-sorted, and the rows of
    every key tuple are in the order they had in the input.  The stage that
    [Graph.sort] appends runs this sort. *)
Theorem ExternalSort_sorted_stable run_size keys (rows : list TRow) ks :
  projections keys rows = Returns ks →
  ∃ out,
    ExternalSort vle run_size keys rows = Returns out
    ∧ out ≡ₚ rows
    ∧ key_sorted vle keys out
    ∧ (∀ k, key_group keys k out = key_group keys k rows)
    ∧ (∀ rg kwargs,
         call_operation vle run_size rg (new_stage (call_sort keys)) rows kwargs
         = ExternalSort vle run_size keys rows).
Proof.
  intros Hks. destruct (each_keyed keys rows ks Hks) as (keyed & He & H2 & Hall).
  set (merged := kway_merge (keyed_le vle)
                   (make_runs (keyed_le vle) run_size [] keyed)).
  exists merged.*2.
  split; [by unfold ExternalSort; rewrite He|].
  assert (merged ≡ₚ keyed) as Hp.
  { apply (external_sort_spec _ keyed_le_total keyed_le_trans run_size
             ([], []) keyed). }
  assert (Forall (λ p, grouper keys p.2 = Returns p.1) merged) as Hall'.
  { by rewrite Hp. }
  split; [by rewrite Hp, H2|]. split; [|split].
  - exists merged.*1. split; [by apply projections_keyed|].
    apply StronglySorted_Sorted.
    apply (StronglySorted_fmap _ (λ x y, keyed_le vle x y = true)); [done|].
    apply (external_sort_spec _ keyed_le_total keyed_le_trans run_size
             ([], []) keyed).
  - intros k. rewrite <-H2, !key_group_keyed by done. f_equal.
    rewrite <-(list_filter_iff _ _ _ (keyed_tied k)).
    rewrite <-(list_filter_iff _ (λ p, p.1 = k) keyed (keyed_tied k)).
    apply (external_sort_spec _ keyed_le_total keyed_le_trans run_size
             (k, []) keyed).
  - done.
Qed.
End ExternalSort_facts.

Lemma ExternalSort_sorted_stable_witness :
  projections ["player_id"] players_unsorted
    = Returns [[3]; [1]; [2]; [1]; [3]]%Z
  ∧ ∃ out,
      ExternalSort Z.leb 2 ["player_id"] players_unsorted = Returns out
      ∧ out ≡ₚ players_unsorted
      ∧ key_sorted Z.leb ["player_id"] out.
Proof.
  assert (projections ["player_id"] players_unsorted
          = Returns [[3]; [1]; [2]; [1]; [3]]%Z) as Hks by reflexivity.
  split; [exact Hks|].
  destruct (ExternalSort_sorted_stable Z.leb 2 ["player_id"] players_unsorted
              _ Hks) as (out & Hout & Hperm & Hsorted & _).
  exists out. split; [exact Hout|]. split; [exact Hperm|exact Hsorted].
Defined.

(** ** Map and the mappers [DummyMapper], [Filter] and [Project] *)

Section Map_facts.
Context {V : Type}.
Local Abbreviation TRow := (list (string * V)).

(** X1: Map returns exactly when the mapper returns on every row, and then
    the output is what the mapper yields row after row, in stream order. *)
Theorem Map_call_Returns {O} (mapper : TRow → outcome (list O))
    (rows : list TRow) (out : list O) :
  Map_call mapper rows = Returns out
  ↔ ∃ yss, Forall2 (λ row ys, mapper row = Returns ys) rows yss
           ∧ out = concat yss.
Proof.
  unfold Map_call. revert out.
  induction rows as [|row rows IH]; intros out; simpl.
  - split.
    + intros [= <-]. exists []. by split; [constructor|].
    + intros (yss & Hall & ->). by inversion Hall.
  - split.
    + destruct (mapper row) as [ys| |] eqn:Hrow; try done. simpl.
      destruct (yield_from_each mapper rows) as [zs| |] eqn:Hrows; try done.
      simpl. intros [= <-].
      destruct (proj1 (IH zs) eq_refl) as (yss & Hall & ->).
      exists (ys :: yss). by split; [constructor|].
    + intros (yss & Hall & ->).
      inversion Hall as [|? ys ? yss' Hrow Hall']; subst.
      rewrite Hrow. simpl.
      rewrite (proj2 (IH (concat yss')) (ex_intro _ yss' (conj Hall' eq_refl))).
      done.
Qed.

(** X2: Map with the dummy mapper hands the stream on unchanged, and Map of a
    stream that is a concatenation is the concatenation of the two Maps. *)
Theorem Map_DummyMapper {O} (mapper : TRow → outcome (list O))
    (rows rows' : list TRow) :
  Map_call DummyMapper rows = Returns rows
  ∧ Map_call mapper (rows ++ rows')
    = (us ← Map_call mapper rows; vs ← Map_call mapper rows';
       Returns (us ++ vs)).
Proof.
  split.
  - apply yield_from_each_record.
  - apply yield_from_each_app.
Qed.

Lemma yield_from_each_total {A B} (f : A → outcome (list B)) xs :
  (∀ x, x ∈ xs → ∃ ys, f x = Returns ys) →
  ∃ out, yield_from_each f xs = Returns out.
Proof.
  induction xs as [|x xs IH]; intros Hret; [by eexists|].
  simpl. destruct (Hret x) as [ys ->]; [by left|].
  destruct IH as [zs ->]; [intros ??; apply Hret; by right|].
  by eexists.
Qed.

(** X3: two Map stages in a row are one Map with the composed mapper, when the
    first mapper returns on every row. *)
Theorem Map_call_fusion {O} (mapper1 : TRow → outcome (list TRow))
    (mapper2 : TRow → outcome (list O)) (rows : list TRow) :
  (∀ row, row ∈ rows → ∃ ys, mapper1 row = Returns ys) →
  (mid ← Map_call mapper1 rows; Map_call mapper2 mid)
  = Map_call (λ row, mid ← mapper1 row; Map_call mapper2 mid) rows.
Proof.
  unfold Map_call. induction rows as [|row rows IH]; intros Hret; [done|].
  simpl. destruct (Hret row) as [ys Hys]; [by left|]. rewrite Hys. simpl.
  assert (∀ row, row ∈ rows → ∃ ys, mapper1 row = Returns ys) as Hret'
    by (intros ??; apply Hret; by right).
  specialize (IH Hret').
  destruct (yield_from_each_total mapper1 rows Hret') as [zs Hzs].
  rewrite Hzs in *. simpl in *.
  by rewrite yield_from_each_app, <- IH.
Qed.

(** X4: Map with [Filter] keeps the rows on which the condition is true, in
    their order. *)
Theorem Map_Filter (condition : TRow → outcome bool) (p : TRow → bool)
    (rows : list TRow) :
  (∀ row, row ∈ rows → condition row = Returns (p row)) →
  Map_call (Filter condition) rows
  = Returns (filter (λ row, p row = true) rows).
Proof.
  unfold Map_call. induction rows as [|row rows IH]; intros Hc; [done|].
  cbn [yield_from_each]. unfold Filter in *. rewrite (Hc row) by left. cbn [mbind outcome_bind].
  rewrite IH by (intros ??; apply Hc; by right). rewrite filter_cons.
  destruct (p row); simpl; by repeat case_decide.
Qed.

Lemma dict_of_columns_Returns (row result : TRow) columns :
  Forall (λ k, k ∈ dict_keys row) columns →
  ∃ out, dict_of_columns row result columns = Returns out
    ∧ (∀ k, dict_get out k
            = if decide (k ∈ columns) then dict_get row k
              else dict_get result k)
    ∧ (∀ k, k ∈ dict_keys out ↔ k ∈ columns ∨ k ∈ dict_keys result)
    ∧ (NoDup (dict_keys result) → NoDup (dict_keys out)).
Proof.
  revert result. induction columns as [|c columns IH]; intros result Hall.
  - exists result. split; [done|]. split; [|split; [|done]].
    + intros k. rewrite decide_False; [done|]. by intros ?%elem_of_nil.
    + intros k. rewrite elem_of_nil. tauto.
  - inversion Hall as [|?? Hc Hall']; subst. simpl.
    apply dict_get_is_Some in Hc as [v Hv]. unfold getitem. rewrite Hv. simpl.
    destruct (IH (dict_set result c v) Hall') as (out & -> & Hget & Hkeys & Hnd).
    exists out. split; [done|]. split; [|split].
    + intros k. rewrite Hget. destruct (decide (k ∈ columns)) as [Hin|Hin].
      * rewrite decide_True; [done|by right].
      * rewrite dict_get_set. destruct (decide (k = c)) as [->|Hne].
        -- rewrite decide_True; [done|by left].
        -- rewrite decide_False; [done|].
           intros [?|?]%elem_of_cons; done.
    + intros k. rewrite Hkeys, dict_keys_set, elem_of_cons. tauto.
    + intros Hr. apply Hnd. by apply dict_set_NoDup.
Qed.

Lemma dict_of_columns_missing (row result : TRow) columns k :
  k ∈ columns → k ∉ dict_keys row →
  dict_of_columns row result columns = Raises KeyError.
Proof.
  revert result. induction columns as [|c columns IH]; intros result Hin Hk.
  - by apply elem_of_nil in Hin.
  - simpl. unfold getitem. destruct (dict_get row c) as [v|] eqn:Hv; [|done].
    simpl. apply elem_of_cons in Hin as [->|Hin].
    + exfalso. apply Hk. by eapply dict_get_Some_in.
    + by apply IH.
Qed.

(** X5: [Project] yields one new row that has exactly the listed columns,
    each once, with the values of the input row. *)
Theorem Project_columns (columns : list string) (row : TRow) :
  Forall (λ k, k ∈ dict_keys row) columns →
  ∃ out, Project columns row = Returns [out]
    ∧ (∀ k, dict_get out k
            = if decide (k ∈ columns) then dict_get row k else None)
    ∧ (∀ k, k ∈ dict_keys out ↔ k ∈ columns)
    ∧ NoDup (dict_keys out).
Proof.
  intros Hall. unfold Project.
  destruct (dict_of_columns_Returns row [] columns Hall)
    as (out & -> & Hget & Hkeys & Hnd).
  exists out. split; [done|]. split; [done|]. split.
  - intros k. rewrite Hkeys. unfold dict_keys. simpl. rewrite elem_of_nil. tauto.
  - apply Hnd. constructor.
Qed.

(** X6: [Project] of a row that lacks one of the listed columns raises
    [KeyError]. *)
Theorem Project_missing_column (columns : list string) (row : TRow) k :
  k ∈ columns → k ∉ dict_keys row → Project columns row = Raises KeyError.
Proof.
  intros Hin Hk. unfold Project.
  by rewrite (dict_of_columns_missing row [] columns k Hin Hk).
Qed.
End Map_facts.

Lemma Map_call_fusion_witness :
  (∀ row, row ∈ players_left → ∃ ys, DummyMapper row = Returns ys)
  ∧ (mid ← Map_call DummyMapper players_left; Map_call DummyMapper mid)
    = Map_call (λ row, mid ← DummyMapper row; Map_call DummyMapper mid)
        players_left.
Proof.
  assert (∀ row, row ∈ players_left → ∃ ys, DummyMapper row = Returns ys)
    as Hret by (intros row _; by eexists).
  split; [exact Hret|].
  apply (Map_call_fusion DummyMapper DummyMapper players_left Hret).
Defined.

Lemma Map_Filter_witness :
  (∀ row, row ∈ players_left →
     (v ← getitem row "player_id"; Returns (2 <=? v)%Z)
     = Returns (default false ((λ v, (2 <=? v)%Z) <$> dict_get row "player_id")))
  ∧ Map_call (Filter (λ row, v ← getitem row "player_id";
                             Returns (2 <=? v)%Z)) players_left
    = Returns [player 2 20; player 4 40].
Proof.
  assert (∀ row, row ∈ players_left →
     (v ← getitem row "player_id"; Returns (2 <=? v)%Z)
     = Returns (default false ((λ v, (2 <=? v)%Z) <$> dict_get row "player_id")))
    as Hcond.
  { intros row Hrow. unfold players_left in Hrow.
    repeat (apply elem_of_cons in Hrow as [->|Hrow]; [reflexivity|]).
    by apply elem_of_nil in Hrow. }
  split; [exact Hcond|].
  apply (Map_Filter (λ row, v ← getitem row "player_id"; Returns (2 <=? v)%Z)
           (λ row, default false
                     ((λ v, (2 <=? v)%Z) <$> dict_get row "player_id"))
           players_left Hcond).
Defined.

Lemma Project_columns_witness :
  Forall (λ k, k ∈ dict_keys (player 1 10)) ["username"]
  ∧ ∃ out, Project ["username"] (player 1 10) = Returns [out]
      ∧ ∀ k, k ∈ dict_keys out ↔ k ∈ ["username"].
Proof.
  assert (Forall (λ k, k ∈ dict_keys (player 1 10)) ["username"]) as Hall.
  { constructor; [|constructor]. by apply (list_elem_of_lookup_2 _ 1). }
  split; [exact Hall|].
  destruct (Project_columns ["username"] (player 1 10) Hall)
    as (out & Hout & _ & Hkeys & _).
  exists out. by split.
Defined.

Lemma Project_missing_column_witness :
  "score" ∈ ["score"] ∧ ("score" ∉ dict_keys (player 1 10))
  ∧ Project ["score"] (player 1 10) = Raises KeyError.
Proof.
  assert ("score" ∈ ["score"]) as Hin by (by apply (list_elem_of_lookup_2 _ 0)).
  assert ("score" ∉ dict_keys (player 1 10)) as Hmiss.
  { intros H. unfold dict_keys, player in H. simpl in H.
    repeat (apply elem_of_cons in H as [H|H]; [discriminate|]).
    by apply elem_of_nil in H. }
  split; [exact Hin|]. split; [exact Hmiss|].
  apply (Project_missing_column ["score"] (player 1 10) "score" Hin Hmiss).
Defined.

(** ** Reduce on a stream in any order *)

Section groupby_runs.
Context {A K : Type} `{EqDecision K}.
Variable key : A → outcome K.

Lemma groupby_adjacent l gs i kg kg' :
  groupby key l = Returns gs →
  gs !! i = Some kg → gs !! S i = Some kg' → kg.1 ≠ kg'.1.
Proof.
  revert gs i kg kg'. induction l as [|x l IH]; intros gs i kg kg'.
  - intros [= <-]. done.
  - intros (k & gs' & Hk & Hgs' & ->)%groupby_cons_Returns.
    destruct gs' as [|[k' g] gs'']; [by destruct i|].
    case_decide as Hkk'; subst.
    + destruct i as [|i]; simpl.
      * intros [= <-] Hnext. simpl.
        apply (IH _ 0 (k', g) kg' Hgs' eq_refl Hnext).
      * intros Hi Hnext. apply (IH _ (S i) kg kg' Hgs'); done.
    + destruct i as [|i]; simpl.
      * intros [= <-] [= <-]. done.
      * intros Hi Hnext. apply (IH _ i kg kg' Hgs'); done.
Qed.

Lemma groupby_raises l x e :
  x ∈ l → key x = Raises e →
  (∀ y, key y ≠ OutOfFuel) →
  ∃ e', groupby key l = Raises e'.
Proof.
  intros Hin Hx Hfuel. induction l as [|y l IH]; [by apply elem_of_nil in Hin|].
  simpl. destruct (key y) as [k|e'|] eqn:Hy; simpl.
  - apply elem_of_cons in Hin as [->|Hin]; [congruence|].
    destruct (IH Hin) as [e' ->]. by eexists.
  - by eexists.
  - by destruct (Hfuel y).
Qed.
End groupby_runs.

Section Reduce_facts.
Context {V : Type} `{EqDecision V}.
Local Abbreviation TRow := (list (string * V)).

Lemma Reduce_call_groups keys (rows : list TRow) groups :
  Reduce_call (λ _ group, Returns [group]) keys rows = Returns groups
  ↔ ∃ gs, groupby (get_value keys) rows = Returns gs ∧ groups = gs.*2.
Proof.
  unfold Reduce_call.
  destruct (groupby (get_value keys) rows) as [gs| |] eqn:Hgs; simpl.
  - rewrite (yield_from_each_snd (λ g, Returns [g]) gs), yield_from_each_record.
    split.
    + intros [= <-]. by eexists.
    + by intros (? & [= <-] & ->).
  - split; [done|]. by intros (? & ? & _).
  - split; [done|]. by intros (? & ? & _).
Qed.

Lemma getitem_Returns (row : TRow) k v :
  getitem row k = Returns v ↔ dict_get row k = Some v.
Proof. unfold getitem. destruct (dict_get row k); split; congruence. Qed.

Lemma getitem_Raises (row : TRow) k e :
  getitem row k = Raises e ↔ e = KeyError ∧ k ∉ dict_keys row.
Proof.
  unfold getitem. rewrite <- dict_get_is_Some.
  destruct (dict_get row k) eqn:Hk; split.
  - done.
  - intros [_ []]. by eexists.
  - intros [= <-]. split; [done|]. by intros [? ?].
  - by intros [-> _].
Qed.

Lemma each_getitem_keys (row : TRow) keys k :
  each (getitem row) keys = Returns k → Forall (λ x, x ∈ dict_keys row) keys.
Proof.
  revert k. induction keys as [|x keys IH]; intros k; [constructor|].
  intros (v & vs & -> & Hv & Hvs)%each_cons_Returns. constructor; [|by eapply IH].
  apply getitem_Returns in Hv. by eapply dict_get_Some_in.
Qed.

Lemma each_getitem_ends (row : TRow) keys : each (getitem row) keys ≠ OutOfFuel.
Proof. apply each_ends. intros k. apply getitem_ends. Qed.

Lemma each_getitem_raises (row : TRow) keys e :
  each (getitem row) keys = Raises e → e = KeyError.
Proof.
  induction keys as [|x keys IH]; [done|]. simpl.
  destruct (getitem row x) as [v|e'|] eqn:Hx; simpl.
  - by destruct (each (getitem row) keys).
  - intros [= <-]. by apply getitem_Raises in Hx as [-> _].
  - done.
Qed.

Lemma each_getitem_missing (row : TRow) keys k :
  k ∈ keys → k ∉ dict_keys row → each (getitem row) keys = Raises KeyError.
Proof.
  intros Hin Hk.
  destruct (each (getitem row) keys) as [vs|e|] eqn:Hvs.
  - apply each_getitem_keys in Hvs. rewrite Forall_forall in Hvs.
    by destruct (Hk (Hvs k Hin)).
  - f_equal. by eapply each_getitem_raises.
  - by apply each_getitem_ends in Hvs.
Qed.

Lemma groupby_keys_raises keys (rows : list TRow) e :
  groupby (get_value keys) rows = Raises e → e = KeyError.
Proof.
  induction rows as [|row rows IH]; [done|]. simpl.
  destruct (get_value keys row) as [k|e'|] eqn:Hk; simpl.
  - by destruct (groupby (get_value keys) rows).
  - intros [= <-]. by eapply each_getitem_raises.
  - done.
Qed.

Lemma groupby_missing_key keys (rows : list TRow) row k :
  row ∈ rows → k ∈ keys → k ∉ dict_keys row →
  groupby (get_value keys) rows = Raises KeyError.
Proof.
  intros Hrow Hk Hmiss.
  destruct (groupby_raises (get_value keys) rows row KeyError Hrow) as [e He].
  - by eapply each_getitem_missing.
  - intros y. apply each_getitem_ends.
  - rewrite He. f_equal. by eapply groupby_keys_raises.
Qed.

(** X7: on any stream whose rows have the key fields, Reduce calls the reducer
    on the maximal runs of rows with equal key tuples: the groups are not
    empty, their concatenation is the stream, the rows of a group have one
    key tuple, and two groups in a row have different ones. *)
Theorem Reduce_runs {O} (reducer : list string → list TRow → outcome (list O))
    keys (rows : list TRow) ks :
  projections keys rows = Returns ks →
  ∃ groups,
    Reduce_call (λ _ group, Returns [group]) keys rows = Returns groups
    ∧ Reduce_call reducer keys rows = yield_from_each (reducer keys) groups
    ∧ concat groups = rows
    ∧ Forall (λ group, group ≠ []) groups
    ∧ (∀ group, group ∈ groups →
         ∃ k, Forall (λ row, grouper keys row = Returns k) group)
    ∧ (∀ i group group' row row',
         groups !! i = Some group → groups !! S i = Some group' →
         row ∈ group → row' ∈ group' →
         grouper keys row ≠ grouper keys row').
Proof.
  intros Hks. destruct (each_groupby (grouper keys) rows ks Hks) as [gs Hgs].
  exists gs.*2. split; [|split; [|split; [|split; [|split]]]].
  - apply Reduce_call_groups. by exists gs.
  - unfold Reduce_call, get_value. unfold grouper in Hgs. rewrite Hgs. simpl.
    apply (yield_from_each_snd (reducer keys) gs).
  - by eapply groupby_concat.
  - apply Forall_fmap. eapply Forall_impl; [by eapply groupby_inhabited|]. done.
  - intros group ([k g] & -> & Hin)%list_elem_of_fmap. exists k.
    pose proof (groupby_keys _ _ _ Hgs) as Hall.
    rewrite Forall_forall in Hall. apply (Hall _ Hin).
  - intros i group group' row row'.
    rewrite !list_lookup_fmap.
    destruct (gs !! i) as [[k g]|] eqn:Hi; [|done].
    destruct (gs !! S i) as [[k' g']|] eqn:Hi'; [|done].
    simpl. intros [= <-] [= <-] Hrow Hrow'.
    pose proof (groupby_keys _ _ _ Hgs) as Hall.
    rewrite Forall_forall in Hall.
    pose proof (Hall _ (list_elem_of_lookup_2 _ _ _ Hi)) as Hg.
    pose proof (Hall _ (list_elem_of_lookup_2 _ _ _ Hi')) as Hg'.
    rewrite Forall_forall in Hg, Hg'. simpl in *.
    rewrite (Hg _ Hrow), (Hg' _ Hrow').
    intros [= Heq].
    by apply (groupby_adjacent _ _ _ _ _ _ Hgs Hi Hi').
Qed.

(** X8: Reduce never returns a result on a stream with a row that lacks a key
    field; with a reducer that returns on every group it raises
    [KeyError]. *)
Theorem Reduce_missing_key {O}
    (reducer : list string → list TRow → outcome (list O))
    keys (rows : list TRow) row k :
  row ∈ rows → k ∈ keys → k ∉ dict_keys row →
  (∀ out, Reduce_call reducer keys rows ≠ Returns out)
  ∧ ((∀ group, ∃ out, reducer keys group = Returns out) →
     Reduce_call reducer keys rows = Raises KeyError).
Proof.
  intros Hrow Hk Hmiss. unfold Reduce_call.
  rewrite (groupby_missing_key keys rows row k Hrow Hk Hmiss). done.
Qed.

Lemma FirstReducer_head group_key (rows : list TRow) :
  FirstReducer group_key rows
  = match rows with
    | [] => Raises AssertionError
    | first_row :: _ => Returns [first_row]
    end.
Proof.
  unfold FirstReducer. destruct rows as [|row rows]; [done|]. simpl.
  assert (foldl (λ (first_row : option TRow) (row0 : TRow),
                   if first_row is None then Some row0 else first_row)
            (Some row) rows = Some row) as ->; [|done].
  induction rows as [|r rows IH]; [done|]. simpl. apply IH.
Qed.

Lemma yield_from_each_Forall2 {A B} (f : A → outcome (list B))
    (P : A → Prop) (Q : A → B → Prop) xs :
  Forall P xs →
  (∀ x, P x → ∃ y, f x = Returns [y] ∧ Q x y) →
  ∃ ys, yield_from_each f xs = Returns ys ∧ Forall2 Q xs ys.
Proof.
  intros Hall Hf. induction Hall as [|x xs Hx Hall IH].
  - exists []. split; [done|constructor].
  - destruct (Hf x Hx) as (y & Hy & HQ). destruct IH as (ys & Hys & HQs).
    exists (y :: ys). simpl. rewrite Hy, Hys. split; [done|by constructor].
Qed.

(** X9: [FirstReducer] yields the first row of its group and fails an
    assertion on an empty one; Reduce with it yields the first row of every
    group, one row for each. *)
Theorem Reduce_FirstReducer keys (rows : list TRow) groups :
  Reduce_call (λ _ group, Returns [group]) keys rows = Returns groups →
  Reduce_call FirstReducer keys rows = Returns (omap head groups)
  ∧ length (omap head groups) = length groups
  ∧ (∀ group_key (first_row : TRow) rest,
       FirstReducer group_key (first_row :: rest) = Returns [first_row])
  ∧ (∀ group_key, FirstReducer (V:=V) group_key [] = Raises AssertionError).
Proof.
  intros (gs & Hgs & ->)%Reduce_call_groups.
  pose proof (groupby_inhabited _ _ _ Hgs) as Hne.
  split; [|split; [|split]].
  - unfold Reduce_call. rewrite Hgs. simpl. clear Hgs.
    induction Hne as [|[k g] gs Hg Hne IH]; [done|].
    cbn [yield_from_each]. rewrite IH. rewrite FirstReducer_head.
    simpl in *. by destruct g.
  - clear Hgs. induction Hne as [|[k g] gs Hg Hne IH]; [done|].
    simpl in *. destruct g; [done|]. simpl. f_equal. apply IH.
  - intros. by rewrite FirstReducer_head.
  - intros. by rewrite FirstReducer_head.
Qed.
End Reduce_facts.

Section Reduce_first_sorted.
Context {V : Type} `{EqDecision V}.
Variable vle : V → V → bool.
Context `{!TotalOrderB vle}.
Local Abbreviation TRow := (list (string * V)).

Lemma each_heads {A K} (key : A → outcome K) (gs : list (K * list A)) :
  Forall (λ kg, kg.2 ≠ []) gs →
  Forall (λ kg, Forall (λ x, key x = Returns kg.1) kg.2) gs →
  each key (omap (λ kg, head kg.2) gs) = Returns gs.*1.
Proof.
  intros Hne. induction Hne as [|[k g] gs Hg Hne IH]; [done|].
  intros Hkeys. inversion Hkeys as [|?? Hk Hkeys']; subst.
  specialize (IH Hkeys'). simpl in *.
  destruct g as [|x g]; [done|]. simpl.
  inversion Hk as [|?? Hx _]; subst. rewrite Hx. simpl.
  change (each key (omap (λ kg : K * list A, head kg.2) gs)
          ≫= (λ ys, Returns (k :: ys)) = Returns (k :: gs.*1)).
  by rewrite IH.
Qed.

Lemma omap_head_groups {A K} (f : K → list A) (gs : list (K * list A)) :
  gs.*2 = f <$> gs.*1 →
  omap (λ kg, head kg.2) gs = omap (λ k, head (f k)) gs.*1.
Proof.
  induction gs as [|[k g] gs IH]; [done|]. simpl. intros [= -> Hgs].
  destruct (head (f k)); [f_equal|]; by apply IH.
Qed.

(** X10: on a key-sorted stream Reduce with [FirstReducer] yields, for every
    distinct key tuple in ascending order, the first row that has it; the
    key tuples of the output are the distinct key tuples of the input, each
    once. *)
Theorem Reduce_FirstReducer_sorted keys (rows : list TRow) :
  key_sorted vle keys rows →
  Reduce_call FirstReducer keys rows
  = Returns (omap (λ k, head (key_group keys k rows))
               (distinct_keys keys rows))
  ∧ projections keys
      (omap (λ k, head (key_group keys k rows)) (distinct_keys keys rows))
    = Returns (distinct_keys keys rows)
  ∧ StronglySorted (tuple_lt vle) (distinct_keys keys rows).
Proof.
  intros Hsorted.
  destruct (key_sorted_groupby vle keys rows Hsorted)
    as (gs & Hgs & Hlt & Hkeys & Hgroups).
  pose proof (groupby_inhabited _ _ _ Hgs) as Hne.
  pose proof (groupby_keys _ _ _ Hgs) as Hk.
  rewrite <- Hkeys, <- (omap_head_groups _ gs Hgroups).
  split; [|split; [|done]].
  - unfold Reduce_call, get_value. unfold grouper in Hgs. rewrite Hgs. simpl.
    clear Hgs Hk Hgroups Hkeys Hlt.
    induction Hne as [|[k g] gs Hg Hne IH]; [done|].
    cbn [yield_from_each]. rewrite IH, FirstReducer_head.
    simpl in *. by destruct g.
  - by apply each_heads.
Qed.
End Reduce_first_sorted.

(** ** The reducers that count and add *)

Lemma copy_group_key_columns row_sample result group_key :
  copy_group_key row_sample result group_key
  = dict_of_columns row_sample result group_key.
Proof.
  revert result. induction group_key as [|k group_key IH]; intros result; [done|].
  simpl. destruct (getitem row_sample k); simpl; [apply IH|done..].
Qed.

Lemma Count_group column group_key row_sample rows :
  Forall (λ k, k ∈ dict_keys row_sample) group_key →
  ∃ out, Count column group_key (row_sample :: rows) = Returns [out]
    ∧ dict_get out column = Some (PyInt (Z.of_nat (S (length rows))))
    ∧ (∀ k, k ∈ group_key → k ≠ column →
         dict_get out k = dict_get row_sample k)
    ∧ (∀ k, k ∈ dict_keys out ↔ k ∈ group_key ∨ k = column)
    ∧ Count column group_key [] = Raises AssertionError.
Proof.
  intros Hall. unfold Count. rewrite copy_group_key_columns.
  destruct (dict_of_columns_Returns row_sample [] group_key Hall)
    as (res & -> & Hget & Hkeys & _).
  eexists. split; [done|]. split; [|split; [|split; [|done]]].
  - apply dict_get_set_eq.
  - intros k Hk Hne. rewrite dict_get_set_ne by done.
    rewrite Hget. by rewrite decide_True.
  - intros k. rewrite dict_keys_set, Hkeys.
    change (dict_keys (@nil (string * pyval))) with (@nil string).
    rewrite elem_of_nil. tauto.
Qed.

(** X11: on a group with a first row that has the key fields, [Count] yields
    one row: the key fields with the values of the first row, and the
    column with the number of rows; on an empty group it fails an
    assertion. *)
Theorem Count_row column group_key row_sample rows :
  Forall (λ k, k ∈ dict_keys row_sample) group_key →
  ∃ out, Count column group_key (row_sample :: rows) = Returns [out]
    ∧ dict_get out column = Some (PyInt (Z.of_nat (S (length rows))))
    ∧ (∀ k, k ∈ group_key → k ≠ column →
         dict_get out k = dict_get row_sample k)
    ∧ (∀ k, k ∈ dict_keys out ↔ k ∈ group_key ∨ k = column)
    ∧ Count column group_key [] = Raises AssertionError.
Proof. apply Count_group. Qed.

(** X12: Reduce with [Count] yields one row for every group, in the order of
    the groups; the row of a group has the number of its rows in the
    column, and the key fields as the first row of the group has them. *)
Theorem Reduce_Count column keys rows groups :
  Reduce_call (λ _ group, Returns [group]) keys rows = Returns groups →
  ∃ out, Reduce_call (Count column) keys rows = Returns out
    ∧ length out = length groups
    ∧ ∀ i group, groups !! i = Some group →
        ∃ row row_sample, out !! i = Some row ∧ head group = Some row_sample
          ∧ dict_get row column = Some (PyInt (Z.of_nat (length group)))
          ∧ ∀ k, k ∈ keys → k ≠ column →
              dict_get row k = dict_get row_sample k.
Proof.
  intros (gs & Hgs & ->)%Reduce_call_groups.
  pose proof (groupby_inhabited _ _ _ Hgs) as Hne.
  pose proof (groupby_keys _ _ _ Hgs) as Hk.
  destruct (yield_from_each_Forall2 (λ kg, Count column keys kg.2)
              (λ kg, kg.2 ≠ [] ∧ Forall (λ x, get_value keys x = Returns kg.1) kg.2)
              (λ kg row, ∃ row_sample, head kg.2 = Some row_sample
                 ∧ dict_get row column = Some (PyInt (Z.of_nat (length kg.2)))
                 ∧ ∀ k, k ∈ keys → k ≠ column →
                     dict_get row k = dict_get row_sample k) gs)
    as (out & Hout & Hall).
  { rewrite Forall_forall in Hne, Hk. apply Forall_forall. intros kg Hin.
    split; [by apply Hne|by apply Hk]. }
  { intros [k [|row_sample g]] [Hg Hkeys]; [done|]. simpl in *.
    inversion Hkeys as [|?? Hx _]; subst.
    destruct (Count_group column keys row_sample g) as (row & Hrow & Hc & Hks & _).
    { by eapply each_getitem_keys. }
    exists row. split; [done|]. exists row_sample. done. }
  exists out. split; [|split].
  - unfold Reduce_call. by rewrite Hgs.
  - by rewrite <- (Forall2_length _ _ _ Hall), length_fmap.
  - intros i group. rewrite list_lookup_fmap.
    destruct (gs !! i) as [kg|] eqn:Hi; [|done]. simpl. intros [= <-].
    destruct (Forall2_lookup_l _ _ _ _ _ Hall Hi) as (row & Hrow & rs & ? & ? & ?).
    exists row, rs. done.
Qed.

(** X13: [SafeCount] yields the row of [Count] once for every row of its
    group, so that Reduce with [SafeCount] yields as many rows as the
    stream has. *)
Theorem Reduce_SafeCount column keys rows ks :
  projections keys rows = Returns ks →
  ∃ out, Reduce_call (SafeCount column) keys rows = Returns out
    ∧ length out = length rows
    ∧ ∀ group_key group,
        SafeCount column group_key group
        = (counted ← Count column group_key group;
           Returns (counted ≫= replicate (length group))).
Proof.
  intros Hks. destruct (each_groupby (grouper keys) rows ks Hks) as [gs Hgs].
  assert (∀ group_key group,
    SafeCount column group_key group
    = (counted ← Count column group_key group;
       Returns (counted ≫= replicate (length group)))) as Hsafe.
  { intros group_key [|row_sample group]; [done|]. unfold SafeCount, Count.
    destruct (copy_group_key row_sample [] group_key); simpl; [|done..].
    by rewrite app_nil_r. }
  pose proof (groupby_inhabited _ _ _ Hgs) as Hne.
  pose proof (groupby_keys _ _ _ Hgs) as Hk.
  pose proof (groupby_concat _ _ _ Hgs) as Hcat.
  unfold Reduce_call, get_value. unfold grouper in Hgs. rewrite Hgs. simpl.
  rewrite <- Hcat. clear Hgs Hcat Hks.
  assert (∃ out, yield_from_each (λ kg, SafeCount column keys kg.2) gs
                 = Returns out ∧ length out = length (concat gs.*2))
    as (out & Hout & Hlen).
  { induction Hne as [|[k g] gs Hg Hne IH]; [by exists []|].
    inversion Hk as [|?? Hkg Hk']; subst. destruct (IH Hk') as (out & Hout & Hlen).
    simpl in *. destruct g as [|row_sample g]; [done|].
    inversion Hkg as [|?? Hx _]; subst.
    destruct (Count_group column keys row_sample g) as (row & Hrow & _).
    { by eapply each_getitem_keys. }
    rewrite Hsafe, Hrow, Hout. simpl. eexists. split; [done|].
    rewrite app_nil_r. simpl. rewrite !length_app, length_replicate. simpl.
    do 2 f_equal. exact Hlen. }
  exists out. done.
Qed.

Lemma Sum_loop_settled column group_key sum_ keys rows ns :
  (keys = [] → group_key = []) →
  Forall2 (λ r n, ∃ v, dict_get r column = Some v ∧ int_of v = Some n) rows ns →
  Sum_loop column group_key sum_ keys rows
  = Returns ((sum_ + foldr Z.add 0%Z ns)%Z, keys).
Proof.
  intros Hkeys Hall. revert sum_.
  induction Hall as [|r n rows ns (v & Hv & Hn) Hall IH]; intros sum_.
  - simpl. by rewrite Z.add_0_r.
  - simpl. unfold getitem. rewrite Hv. simpl.
    assert (int_add sum_ v = Returns (sum_ + n)%Z) as ->.
    { destruct v; simpl in *; by inversion Hn. }
    simpl.
    assert ((if bool_decide (keys = [])
             then copy_group_key r [] group_key else Returns keys)
            = Returns keys) as ->.
    { case_bool_decide as Hk; [|done]. rewrite (Hkeys Hk). by subst. }
    simpl. rewrite IH. do 2 f_equal. lia.
Qed.

(** X14: [Sum] yields one row: the column holds the sum of the column over the
    rows of the group, the key fields are those of the first row; on an
    empty group it yields the row with the column at zero. *)
Theorem Sum_row column group_key rows ns :
  Forall2 (λ r n, ∃ v, dict_get r column = Some v ∧ int_of v = Some n)
    rows ns →
  (∀ r, head rows = Some r → Forall (λ k, k ∈ dict_keys r) group_key) →
  ∃ out, Sum column group_key rows = Returns [out]
    ∧ dict_get out column = Some (PyInt (foldr Z.add 0%Z ns))
    ∧ (∀ r k, head rows = Some r → k ∈ group_key → k ≠ column →
         dict_get out k = dict_get r k)
    ∧ (∀ k, k ∈ dict_keys out ↔ k = column ∨ (rows ≠ [] ∧ k ∈ group_key))
    ∧ Sum column group_key [] = Returns [[(column, PyInt 0)]].
Proof.
  intros Hall Hhead. unfold Sum.
  destruct Hall as [|r n rows ns (v & Hv & Hn) Hall].
  - simpl. eexists. split; [done|]. split; [|split; [|split; [|done]]].
    + simpl. by rewrite decide_True.
    + done.
    + intros k. unfold dict_keys. simpl. rewrite elem_of_cons, elem_of_nil.
      split; [intros [->|[]]; by left|]. intros [->|[? _]]; [by left|done].
  - cbn [Sum_loop]. unfold getitem. rewrite Hv. simpl.
    assert (int_add 0 v = Returns n) as ->.
    { destruct v; simpl in *; by inversion Hn. }
    simpl. rewrite copy_group_key_columns.
    destruct (dict_of_columns_Returns r [] group_key (Hhead r eq_refl))
      as (res & -> & Hget & Hkeys & _).
    simpl. rewrite (Sum_loop_settled column group_key n res rows ns); [|
      |done].
    2:{ intros ->. destruct group_key as [|k group_key]; [done|].
        exfalso. assert (k ∈ dict_keys ([] : list (string * pyval))) as Hk.
        { apply Hkeys. left. by left. }
        by apply elem_of_nil in Hk. }
    simpl. unfold dict_union. simpl.
    eexists. split; [done|]. split; [|split; [|split; [|done]]].
    + apply dict_get_set_eq.
    + intros r' k [= <-] Hk Hne. rewrite dict_get_set_ne by done.
      rewrite Hget. by rewrite decide_True.
    + intros k. rewrite dict_keys_set, Hkeys.
      change (dict_keys (@nil (string * pyval))) with (@nil string).
      rewrite elem_of_nil. split.
      * intros [->|[?|[]]]; [by left|]. right. done.
      * intros [->|[_ ?]]; [by left|]. right. by left.
Qed.

Lemma Reduce_runs_witness :
  projections ["player_id"] players_unsorted
    = Returns [[3]; [1]; [2]; [1]; [3]]%Z
  ∧ ∃ groups,
      Reduce_call (λ _ group, Returns [group]) ["player_id"] players_unsorted
        = Returns groups
      ∧ concat groups = players_unsorted
      ∧ Forall (λ group, group ≠ []) groups.
Proof.
  assert (projections ["player_id"] players_unsorted
          = Returns [[3]; [1]; [2]; [1]; [3]]%Z) as Hks by reflexivity.
  split; [exact Hks|].
  destruct (Reduce_runs (λ _ group, Returns [group]) ["player_id"]
              players_unsorted _ Hks) as (groups & Hg & _ & Hcat & Hne & _).
  exists groups. by split_and!.
Defined.

Lemma Reduce_missing_key_witness :
  nameless ∈ [player 1 10; nameless] ∧ "player_id" ∈ ["player_id"]
  ∧ ("player_id" ∉ dict_keys nameless)
  ∧ Reduce_call (λ _ group, Returns [group]) ["player_id"]
      [player 1 10; nameless] = Raises KeyError.
Proof.
  assert (nameless ∈ [player 1 10; nameless]) as Hrow
    by (by apply (list_elem_of_lookup_2 _ 1)).
  assert ("player_id" ∈ ["player_id"]) as Hk
    by (by apply (list_elem_of_lookup_2 _ 0)).
  assert ("player_id" ∉ dict_keys nameless) as Hmiss.
  { intros H. unfold dict_keys, nameless in H. simpl in H.
    repeat (apply elem_of_cons in H as [H|H]; [discriminate|]).
    by apply elem_of_nil in H. }
  split; [exact Hrow|]. split; [exact Hk|]. split; [exact Hmiss|].
  apply (Reduce_missing_key (λ _ group, Returns [group]) ["player_id"]
           [player 1 10; nameless] nameless "player_id" Hrow Hk Hmiss).
  intros group. by eexists.
Defined.

Lemma Reduce_FirstReducer_witness :
  Reduce_call (λ _ group, Returns [group]) ["player_id"] players_left
    = Returns [[player 1 10; player 1 11]; [player 2 20]; [player 4 40]]
  ∧ Reduce_call FirstReducer ["player_id"] players_left
    = Returns [player 1 10; player 2 20; player 4 40].
Proof.
  assert (Reduce_call (λ _ group, Returns [group]) ["player_id"] players_left
    = Returns [[player 1 10; player 1 11]; [player 2 20]; [player 4 40]])
    as Hgroups by reflexivity.
  split; [exact Hgroups|].
  exact (proj1 (Reduce_FirstReducer ["player_id"] players_left _ Hgroups)).
Defined.

Lemma Reduce_FirstReducer_sorted_witness :
  key_sorted Z.leb ["player_id"] players_left
  ∧ Reduce_call FirstReducer ["player_id"] players_left
    = Returns (omap (λ k, head (key_group ["player_id"] k players_left))
                 (distinct_keys ["player_id"] players_left)).
Proof.
  assert (key_sorted Z.leb ["player_id"] players_left) as Hsorted.
  { exists [[1]; [1]; [2]; [4]]%Z. split; [reflexivity|].
    repeat constructor. }
  split; [exact Hsorted|].
  exact (proj1 (Reduce_FirstReducer_sorted Z.leb ["player_id"] players_left
                  Hsorted)).
Defined.

Lemma Count_row_witness :
  Forall (λ k, k ∈ dict_keys (doc 1 "hello")) ["text"]
  ∧ ∃ out, Count "count" ["text"] [doc 1 "hello"; doc 2 "hello"]
           = Returns [out]
      ∧ dict_get out "count" = Some (PyInt 2).
Proof.
  assert (Forall (λ k, k ∈ dict_keys (doc 1 "hello")) ["text"]) as Hall.
  { constructor; [|constructor]. by apply (list_elem_of_lookup_2 _ 1). }
  split; [exact Hall|].
  destruct (Count_row "count" ["text"] (doc 1 "hello") [doc 2 "hello"] Hall)
    as (out & Hout & Hcount & _).
  exists out. by split.
Defined.

Lemma Reduce_Count_witness :
  Reduce_call (λ _ group, Returns [group]) ["doc_id"]
    [doc 1 "a"; doc 1 "b"; doc 2 "c"]
  = Returns [[doc 1 "a"; doc 1 "b"]; [doc 2 "c"]]
  ∧ ∃ out, Reduce_call (Count "count") ["doc_id"]
             [doc 1 "a"; doc 1 "b"; doc 2 "c"] = Returns out
      ∧ length out = 2.
Proof.
  assert (Reduce_call (λ _ group, Returns [group]) ["doc_id"]
            [doc 1 "a"; doc 1 "b"; doc 2 "c"]
          = Returns [[doc 1 "a"; doc 1 "b"]; [doc 2 "c"]]) as Hgroups
    by reflexivity.
  split; [exact Hgroups|].
  destruct (Reduce_Count "count" ["doc_id"] _ _ Hgroups)
    as (out & Hout & Hlen & _).
  exists out. by split.
Defined.

Lemma Reduce_SafeCount_witness :
  projections ["doc_id"] [doc 1 "a"; doc 1 "b"; doc 2 "c"]
    = Returns [[PyInt 1]; [PyInt 1]; [PyInt 2]]
  ∧ ∃ out, Reduce_call (SafeCount "count") ["doc_id"]
             [doc 1 "a"; doc 1 "b"; doc 2 "c"] = Returns out
      ∧ length out = 3.
Proof.
  assert (projections ["doc_id"] [doc 1 "a"; doc 1 "b"; doc 2 "c"]
          = Returns [[PyInt 1]; [PyInt 1]; [PyInt 2]]) as Hks by reflexivity.
  split; [exact Hks|].
  destruct (Reduce_SafeCount "count" ["doc_id"] _ _ Hks)
    as (out & Hout & Hlen & _).
  exists out. by split.
Defined.

Lemma Sum_row_witness :
  Forall2 (λ r n, ∃ v, dict_get r "b" = Some v ∧ int_of v = Some n)
    sum_rows [2; 3]%Z
  ∧ (∀ r, head sum_rows = Some r → Forall (λ k, k ∈ dict_keys r) ["a"])
  ∧ ∃ out, Sum "b" ["a"] sum_rows = Returns [out]
      ∧ dict_get out "b" = Some (PyInt 5).
Proof.
  assert (Forall2 (λ r n, ∃ v, dict_get r "b" = Some v ∧ int_of v = Some n)
            sum_rows [2; 3]%Z) as Hall.
  { repeat constructor; by eexists. }
  assert (∀ r, head sum_rows = Some r → Forall (λ k, k ∈ dict_keys r) ["a"])
    as Hhead.
  { intros r [= <-]. constructor; [|constructor].
    by apply (list_elem_of_lookup_2 _ 0). }
  split; [exact Hall|]. split; [exact Hhead|].
  destruct (Sum_row "b" ["a"] sum_rows [2; 3]%Z Hall Hhead)
    as (out & Hout & Hsum & _).
  exists out. by split.
Defined.

(** ** Join by key tuple, and the outer, left and right joiners *)

Section merge_keys_facts.
Context {V : Type} `{EqDecision V}.
Variable vle : V → V → bool.
Context `{!TotalOrderB vle}.

Local Abbreviation TRow := (list (string * V)).
Local Abbreviation lt := (tuple_lt vle).

Lemma merge_keys_nil_l kb : merge_keys vle [] kb = kb.
Proof. by destruct kb. Qed.

Lemma merge_keys_nil_r ka : merge_keys vle ka [] = ka.
Proof. by destruct ka. Qed.

Lemma merge_keys_cons_cons a ka b kb :
  merge_keys vle (a :: ka) (b :: kb)
  = if decide (a = b) then a :: merge_keys vle ka kb
    else if tuple_ge vle b a then a :: merge_keys vle ka (b :: kb)
         else b :: merge_keys vle (a :: ka) kb.
Proof. done. Qed.

Local Arguments merge_keys : simpl never.
Local Arguments merge_calls : simpl never.

Lemma elem_of_merge_keys k ka kb :
  k ∈ merge_keys vle ka kb ↔ k ∈ ka ∨ k ∈ kb.
Proof.
  revert kb. induction ka as [|a ka IHa]; intros kb.
  - rewrite merge_keys_nil_l, elem_of_nil. tauto.
  - induction kb as [|b kb IHb].
    + rewrite merge_keys_nil_r, elem_of_nil. tauto.
    + rewrite merge_keys_cons_cons.
      destruct (decide (a = b)) as [<-|Hne]; [|destruct (tuple_ge vle b a)].
      * rewrite !elem_of_cons, IHa. tauto.
      * rewrite !elem_of_cons, IHa, elem_of_cons. tauto.
      * rewrite !elem_of_cons, IHb, elem_of_cons. tauto.
Qed.

Lemma merge_keys_sorted ka kb :
  StronglySorted lt ka → StronglySorted lt kb →
  StronglySorted lt (merge_keys vle ka kb).
Proof.
  revert kb. induction ka as [|a ka IHa]; intros kb Ha Hb.
  - by rewrite merge_keys_nil_l.
  - induction kb as [|b kb IHb].
    + by rewrite merge_keys_nil_r.
    + pose proof Ha as Ha0. pose proof Hb as Hb0.
      apply StronglySorted_inv in Ha as [Ha Halla].
      apply StronglySorted_inv in Hb as [Hb Hallb].
      rewrite merge_keys_cons_cons.
      destruct (decide (a = b)) as [<-|Hne];
        [|destruct (tuple_ge vle b a) eqn:Hge].
      * constructor; [by apply IHa|].
        rewrite Forall_forall in *. intros k [?|?]%elem_of_merge_keys; eauto.
      * apply tuple_ge_lt in Hge; [|done..].
        constructor; [by apply IHa|].
        pose proof (lt_all_trans vle a b kb Hge Hallb) as Hallb'.
        rewrite Forall_forall in *.
        intros k [?|[->|?]%elem_of_cons]%elem_of_merge_keys; eauto.
      * apply tuple_ge_false_lt in Hge; [|done].
        constructor; [by apply IHb|].
        pose proof (lt_all_trans vle b a ka Hge Halla) as Halla'.
        rewrite Forall_forall in *.
        intros k [[->|?]%elem_of_cons|?]%elem_of_merge_keys; eauto.
Qed.

Lemma group_of_head k (g : list TRow) gs : group_of k ((k, g) :: gs) = g.
Proof. simpl. by rewrite decide_True. Qed.

Lemma group_of_skip k k' (g : list TRow) gs :
  k ≠ k' → group_of k ((k', g) :: gs) = group_of k gs.
Proof. intros. simpl. by rewrite decide_False. Qed.

Lemma group_or_empty_inhabited (g : list TRow) :
  g ≠ [] → group_or_empty g = Grouper g.
Proof. by destruct g. Qed.

(** On groups with strictly ascending keys the merge makes one call for
    every key of the two sides, in ascending order, with the groups the
    sides have for the key. *)
Lemma merge_calls_keys (ga gb : list (list V * list TRow)) :
  StronglySorted lt ga.*1 → StronglySorted lt gb.*1 →
  Forall (λ kg, kg.2 ≠ []) ga → Forall (λ kg, kg.2 ≠ []) gb →
  merge_calls vle ga gb
  = (λ k, (group_or_empty (group_of k ga), group_or_empty (group_of k gb)))
      <$> merge_keys vle ga.*1 gb.*1.
Proof.
  revert gb. induction ga as [|[ka a] ga IHa]; intros gb Ha Hb Hia Hib.
  - clear Ha. rewrite merge_keys_nil_l.
    induction gb as [|[kb b] gb IHb]; [done|].
    apply StronglySorted_inv in Hb as [Hb Hallb].
    change (Forall (lt kb) gb.*1) in Hallb.
    apply Forall_cons in Hib as [Hb0 Hib]. simpl in Hb0.
    rewrite merge_calls_nil_cons, (IHb Hb Hib). rewrite !fmap_cons.
    cbn [fst]. rewrite group_of_head, (group_or_empty_inhabited b Hb0).
    f_equal. apply Forall_fmap_ext_1.
    rewrite Forall_forall in *. intros k Hk.
    rewrite group_of_skip; [done|].
    intros ->. by apply (tuple_lt_irrefl vle kb), Hallb.
  - pose proof Ha as Ha0.
    apply StronglySorted_inv in Ha as [Ha Halla].
    change (Forall (lt ka) ga.*1) in Halla.
    pose proof Hia as Hia0.
    apply Forall_cons in Hia as [Hane Hia]. simpl in Hane.
    induction gb as [|[kb b] gb IHb].
    + rewrite merge_calls_cons_nil, (IHa [] Ha Hb Hia Hib).
      rewrite !merge_keys_nil_r, !fmap_cons. cbn [fst].
      rewrite group_of_head, (group_or_empty_inhabited a Hane).
      f_equal. apply Forall_fmap_ext_1.
      rewrite Forall_forall in *. intros k Hk.
      rewrite group_of_skip; [done|].
      intros ->. by apply (tuple_lt_irrefl vle ka), Halla.
    + pose proof Hb as Hb0. pose proof Hib as Hib0.
      apply StronglySorted_inv in Hb as [Hb Hallb].
      change (Forall (lt kb) gb.*1) in Hallb.
      apply Forall_cons in Hib as [Hbne Hib]. simpl in Hbne.
      rewrite merge_calls_cons_cons. rewrite !fmap_cons. cbn [fst].
      rewrite merge_keys_cons_cons.
      destruct (decide (ka = kb)) as [<-|Hne];
        [|destruct (tuple_ge vle kb ka) eqn:Hge].
      * rewrite (IHa gb Ha Hb Hia Hib), fmap_cons, !group_of_head.
        rewrite (group_or_empty_inhabited a Hane),
          (group_or_empty_inhabited b Hbne).
        f_equal. apply Forall_fmap_ext_1.
        rewrite Forall_forall in *.
        intros k Hk. apply elem_of_merge_keys in Hk.
        assert (k ≠ ka) as Hk'.
        { intros ->. apply (tuple_lt_irrefl vle ka).
          destruct Hk; [by apply Halla|by apply Hallb]. }
        by rewrite !group_of_skip.
      * apply tuple_ge_lt in Hge; [|done..].
        rewrite (IHa _ Ha Hb0 Hia Hib0), !fmap_cons. cbn [fst].
        rewrite !group_of_head.
        rewrite (group_or_empty_inhabited a Hane).
        rewrite (group_of_skip ka kb) by done.
        rewrite (group_of_absent ka gb);
          [|apply (lt_all_not_in vle); by eapply (lt_all_trans vle)].
        f_equal. apply Forall_fmap_ext_1.
        pose proof (lt_all_trans vle ka kb _ Hge Hallb) as Hallb'.
        rewrite Forall_forall in *.
        intros k Hk. apply elem_of_merge_keys in Hk.
        assert (k ≠ ka) as Hk'.
        { intros ->. apply (tuple_lt_irrefl vle ka).
          destruct Hk as [?|Hk]; [by apply Halla|].
          apply elem_of_cons in Hk as [->|?]; [done|by apply Hallb']. }
        by rewrite (group_of_skip k ka).
      * apply tuple_ge_false_lt in Hge; [|done].
        rewrite (IHb Hb Hib), !fmap_cons. cbn [fst].
        rewrite !group_of_head.
        rewrite (group_or_empty_inhabited b Hbne).
        rewrite (group_of_skip kb ka) by (by intros ->).
        rewrite (group_of_absent kb ga);
          [|apply (lt_all_not_in vle); by eapply (lt_all_trans vle)].
        f_equal. apply Forall_fmap_ext_1.
        pose proof (lt_all_trans vle kb ka _ Hge Halla) as Halla'.
        rewrite Forall_forall in *.
        intros k Hk. apply elem_of_merge_keys in Hk.
        assert (k ≠ kb) as Hk'.
        { intros ->. apply (tuple_lt_irrefl vle kb).
          destruct Hk as [Hk|?]; [|by apply Hallb].
          apply elem_of_cons in Hk as [->|?]; [done|by apply Halla']. }
        by rewrite (group_of_skip k kb).
Qed.

Lemma flat_map_merge_keys_l {B} (g : list V → list B) ka kb :
  StronglySorted lt ka → StronglySorted lt kb →
  (∀ k, k ∈ kb → k ∉ ka → g k = []) →
  flat_map g (merge_keys vle ka kb) = flat_map g ka.
Proof.
  revert kb. induction ka as [|a ka IHa]; intros kb Ha Hb Hg.
  - rewrite merge_keys_nil_l. clear Hb.
    induction kb as [|b kb IHb]; [done|]. simpl.
    rewrite (Hg b); [|by left|by intros ?%elem_of_nil]. simpl.
    apply IHb. intros k ??. apply Hg; [by right|done].
  - pose proof Ha as Ha0.
    apply StronglySorted_inv in Ha as [Ha Halla].
    induction kb as [|b kb IHb].
    + by rewrite merge_keys_nil_r.
    + pose proof Hb as Hb0.
      apply StronglySorted_inv in Hb as [Hb Hallb].
      rewrite merge_keys_cons_cons.
      destruct (decide (a = b)) as [<-|Hne];
        [|destruct (tuple_ge vle b a) eqn:Hge].
      * simpl. f_equal. apply IHa; [done..|].
        intros k Hk Hnk. apply Hg; [by right|].
        intros [->|?]%elem_of_cons; [|done].
        by apply (lt_all_not_in vle _ _ Hallb).
      * apply tuple_ge_lt in Hge; [|done..].
        simpl. f_equal. apply IHa; [done..|].
        intros k Hk Hnk. apply Hg; [done|].
        intros [->|?]%elem_of_cons; [|done].
        apply (lt_all_not_in vle a (b :: kb)); [|done].
        constructor; [done|]. by eapply (lt_all_trans vle).
      * apply tuple_ge_false_lt in Hge; [|done].
        simpl. rewrite (Hg b); [|by left|].
        -- simpl. apply IHb; [done|]. intros k ??. apply Hg; [by right|done].
        -- apply (lt_all_not_in vle b (a :: ka)).
           constructor; [done|]. by eapply (lt_all_trans vle).
Qed.

Lemma flat_map_merge_keys_r {B} (g : list V → list B) ka kb :
  StronglySorted lt ka → StronglySorted lt kb →
  (∀ k, k ∈ ka → k ∉ kb → g k = []) →
  flat_map g (merge_keys vle ka kb) = flat_map g kb.
Proof.
  revert kb. induction ka as [|a ka IHa]; intros kb Ha Hb Hg.
  - by rewrite merge_keys_nil_l.
  - pose proof Ha as Ha0.
    apply StronglySorted_inv in Ha as [Ha Halla].
    induction kb as [|b kb IHb].
    + rewrite merge_keys_nil_r. simpl.
      rewrite (Hg a); [|by left|by intros ?%elem_of_nil]. simpl.
      rewrite <- (merge_keys_nil_r ka). apply (IHa [] Ha Hb).
      intros k ??. apply Hg; [by right|done].
    + pose proof Hb as Hb0.
      apply StronglySorted_inv in Hb as [Hb Hallb].
      rewrite merge_keys_cons_cons.
      destruct (decide (a = b)) as [<-|Hne];
        [|destruct (tuple_ge vle b a) eqn:Hge].
      * simpl. f_equal. apply IHa; [done..|].
        intros k Hk Hnk. apply Hg; [by right|].
        intros [->|?]%elem_of_cons; [|done].
        by apply (lt_all_not_in vle _ _ Halla).
      * apply tuple_ge_lt in Hge; [|done..].
        simpl. rewrite (Hg a); [|by left|].
        -- simpl. apply IHa; [done..|]. intros k ??. apply Hg; [by right|done].
        -- apply (lt_all_not_in vle a (b :: kb)).
           constructor; [done|]. by eapply (lt_all_trans vle).
      * apply tuple_ge_false_lt in Hge; [|done].
        simpl. f_equal. apply IHb; [done|].
        intros k Hk Hnk. apply Hg; [done|].
        intros [->|?]%elem_of_cons; [|done].
        apply (lt_all_not_in vle b (a :: ka)); [|done].
        constructor; [done|]. by eapply (lt_all_trans vle).
Qed.
End merge_keys_facts.

Lemma yield_from_each_fmap {A B C} (f : B → outcome (list C)) (g : A → B) xs :
  yield_from_each f (g <$> xs) = yield_from_each (λ x, f (g x)) xs.
Proof.
  induction xs as [|x xs IH]; [done|].
  rewrite fmap_cons. cbn [yield_from_each]. by rewrite IH.
Qed.

Lemma yield_from_each_flat_map {A B} (g : A → list B) xs :
  yield_from_each (λ x, Returns (g x)) xs = Returns (flat_map g xs).
Proof. induction xs as [|x xs IH]; [done|]. simpl. by rewrite IH. Qed.

Lemma yield_from_each_ext_in {A B} (f g : A → outcome (list B)) xs :
  (∀ x, x ∈ xs → f x = g x) → yield_from_each f xs = yield_from_each g xs.
Proof.
  induction xs as [|x xs IH]; intros Hfg; [done|]. simpl.
  rewrite (Hfg x) by (by left). rewrite IH; [done|].
  intros y ?. apply Hfg. by right.
Qed.

Section Join_by_key.
Context {V : Type} `{EqDecision V}.
Variable vle : V → V → bool.
Context `{!TotalOrderB vle}.

Local Abbreviation TRow := (list (string * V)).

Local Arguments merge_keys : simpl never.
Local Arguments merge_calls : simpl never.
Local Arguments cross_product : simpl never.

Lemma key_sorted_groups keys (rows : list TRow) :
  key_sorted vle keys rows →
  ∃ gs, groupby (grouper keys) rows = Returns gs
    ∧ StronglySorted (tuple_lt vle) gs.*1
    ∧ gs.*1 = distinct_keys keys rows
    ∧ Forall (λ kg, kg.2 ≠ []) gs
    ∧ ∀ k, group_of k gs = key_group keys k rows.
Proof.
  intros Hsorted.
  destruct (key_sorted_groupby vle keys rows Hsorted)
    as (gs & Hgs & Hlt & Hkeys & Hgroups).
  exists gs. split; [done|]. split; [done|]. split; [done|].
  split; [by eapply groupby_inhabited|].
  intros k. destruct (decide (k ∈ gs.*1)) as [Hin|Hnin].
  - by apply (group_of_fmap (λ k, key_group keys k rows)).
  - rewrite group_of_absent by done. symmetry.
    destruct Hsorted as (ks & Hks & _).
    eapply key_group_absent; [done|]. by rewrite <- Hkeys.
Qed.

Lemma Join_call_by_key {O}
    (joiner : list string → iterable V → iterable V → outcome (list O))
    keys (L R : list TRow) :
  key_sorted vle keys L → key_sorted vle keys R →
  Join_call vle joiner keys L R
  = yield_from_each
      (λ k, joiner keys (group_or_empty (key_group keys k L))
              (group_or_empty (key_group keys k R)))
      (all_keys vle keys L R).
Proof.
  intros HL HR.
  destruct (key_sorted_groups keys L HL) as (ga & Hga & Hlta & Hda & Hia & Hfa).
  destruct (key_sorted_groups keys R HR) as (gb & Hgb & Hltb & Hdb & Hib & Hfb).
  rewrite (Join_call_calls vle joiner keys L R _
             (Join_call_merge vle keys L R ga gb Hga Hgb)).
  rewrite (merge_calls_keys vle ga gb Hlta Hltb Hia Hib).
  rewrite yield_from_each_fmap. unfold all_keys. rewrite <- Hda, <- Hdb.
  apply yield_from_each_ext_in. intros k _. simpl. by rewrite Hfa, Hfb.
Qed.

Lemma all_keys_sorted keys (L R : list TRow) :
  key_sorted vle keys L → key_sorted vle keys R →
  StronglySorted (tuple_lt vle) (all_keys vle keys L R).
Proof.
  intros HL HR.
  destruct (key_sorted_groups keys L HL) as (ga & _ & Hlta & Hda & _).
  destruct (key_sorted_groups keys R HR) as (gb & _ & Hltb & Hdb & _).
  unfold all_keys. rewrite <- Hda, <- Hdb. by apply merge_keys_sorted.
Qed.

Lemma distinct_keys_elem keys (rows : list TRow) ks k :
  projections keys rows = Returns ks →
  k ∈ distinct_keys keys rows
  ↔ ∃ row, row ∈ rows ∧ grouper keys row = Returns k.
Proof.
  intros Hks. unfold distinct_keys. rewrite Hks, elem_of_remove_dups.
  apply (each_Returns_elem _ _ _ k Hks).
Qed.

Lemma all_keys_elem keys (L R : list TRow) k :
  key_sorted vle keys L → key_sorted vle keys R →
  k ∈ all_keys vle keys L R
  ↔ ∃ row, (row ∈ L ∨ row ∈ R) ∧ grouper keys row = Returns k.
Proof.
  intros (ksL & HL & _) (ksR & HR & _). unfold all_keys.
  rewrite elem_of_merge_keys.
  rewrite (distinct_keys_elem keys L ksL k HL),
    (distinct_keys_elem keys R ksR k HR).
  split.
  - intros [(row & ? & ?)|(row & ? & ?)]; exists row; tauto.
  - intros (row & [?|?] & ?); [left|right]; by exists row.
Qed.

(** X15: on two key-sorted streams Join calls the joiner once for every key
    tuple that a row of either stream has, in strictly ascending order of
    the key tuples, with the rows of that key tuple of each side, and with
    the empty list for a side that has none. *)
Theorem Join_calls_by_key {O}
    (joiner : list string → iterable V → iterable V → outcome (list O))
    keys (L R : list TRow) :
  key_sorted vle keys L → key_sorted vle keys R →
  Join_call vle joiner keys L R
  = yield_from_each
      (λ k, joiner keys (group_or_empty (key_group keys k L))
              (group_or_empty (key_group keys k R)))
      (all_keys vle keys L R)
  ∧ StronglySorted (tuple_lt vle) (all_keys vle keys L R)
  ∧ (∀ k, k ∈ all_keys vle keys L R
          ↔ ∃ row, (row ∈ L ∨ row ∈ R) ∧ grouper keys row = Returns k).
Proof.
  intros HL HR. split; [by apply Join_call_by_key|].
  split; [by apply all_keys_sorted|]. intros k. by apply all_keys_elem.
Qed.

Lemma OuterJoiner_group self keys (a b : list TRow) :
  OuterJoiner self keys (group_or_empty a) (group_or_empty b)
  = Returns (outer_rows self keys a b).
Proof.
  unfold OuterJoiner. destruct a as [|ra a], b as [|rb b]; try done.
  simpl. by rewrite _inner_join_cross_product.
Qed.

Lemma LeftJoiner_group self keys (a b : list TRow) :
  LeftJoiner self keys (group_or_empty a) (group_or_empty b)
  = Returns (left_rows self keys a b).
Proof.
  unfold LeftJoiner. destruct a as [|ra a], b as [|rb b]; try done.
  simpl. by rewrite _inner_join_cross_product.
Qed.

Lemma RightJoiner_group self keys (a b : list TRow) :
  RightJoiner self keys (group_or_empty a) (group_or_empty b)
  = Returns (right_rows self keys a b).
Proof.
  unfold RightJoiner. destruct a as [|ra a], b as [|rb b]; try done.
  simpl. by rewrite _inner_join_cross_product.
Qed.

(** X16: on two key-sorted streams Join with the outer joiner yields, for
    every key tuple of either stream in ascending order, the cross product
    of the two groups when both sides have rows, and the rows of the one
    side unchanged when the other has none. *)
Theorem Join_outer_of_sorted self keys (L R : list TRow) :
  key_sorted vle keys L → key_sorted vle keys R →
  Join_call vle (OuterJoiner self) keys L R
  = Returns (flat_map (λ k, outer_rows self keys (key_group keys k L)
                              (key_group keys k R))
               (all_keys vle keys L R))
  ∧ StronglySorted (tuple_lt vle) (all_keys vle keys L R)
  ∧ (∀ k, k ∈ all_keys vle keys L R
          ↔ ∃ row, (row ∈ L ∨ row ∈ R) ∧ grouper keys row = Returns k).
Proof.
  intros HL HR. split; [|split].
  - rewrite (Join_call_by_key (OuterJoiner self) keys L R HL HR).
    rewrite <- yield_from_each_flat_map.
    apply yield_from_each_ext_in. intros k _. apply OuterJoiner_group.
  - by apply all_keys_sorted.
  - intros k. by apply all_keys_elem.
Qed.

(** X17: on two key-sorted streams Join with the left joiner yields, for every
    key tuple of the left stream in ascending order, the cross product with
    the right group of the key tuple, and the left rows unchanged when the
    right stream has no row of that key tuple; right rows whose key tuple
    is not on the left are dropped. *)
Theorem Join_left_of_sorted self keys (L R : list TRow) :
  key_sorted vle keys L → key_sorted vle keys R →
  Join_call vle (LeftJoiner self) keys L R
  = Returns (flat_map (λ k, left_rows self keys (key_group keys k L)
                              (key_group keys k R))
               (distinct_keys keys L))
  ∧ StronglySorted (tuple_lt vle) (distinct_keys keys L)
  ∧ (∀ k, k ∈ distinct_keys keys L
          ↔ ∃ row, row ∈ L ∧ grouper keys row = Returns k).
Proof.
  intros HL HR.
  destruct (key_sorted_groups keys L HL) as (ga & _ & Hlta & Hda & _).
  destruct (key_sorted_groups keys R HR) as (gb & _ & Hltb & Hdb & _).
  rewrite Hda in Hlta. rewrite Hdb in Hltb.
  split; [|split; [done|]].
  - rewrite (Join_call_by_key (LeftJoiner self) keys L R HL HR).
    rewrite (yield_from_each_ext_in _
               (λ k, Returns (left_rows self keys (key_group keys k L)
                                (key_group keys k R))))
      by (intros k _; apply LeftJoiner_group).
    rewrite yield_from_each_flat_map. f_equal. unfold all_keys.
    apply flat_map_merge_keys_l; [done..|].
    intros k _ Hk. destruct HL as (ks & Hks & _).
    by rewrite (key_group_absent keys k L ks Hks Hk).
  - intros k. destruct HL as (ks & Hks & _).
    by apply (distinct_keys_elem keys L ks).
Qed.

(** X18: on two key-sorted streams Join with the right joiner yields, for
    every key tuple of the right stream in ascending order, the cross
    product with the left group of the key tuple, and the right rows
    unchanged when the left stream has no row of that key tuple; left rows
    whose key tuple is not on the right are dropped. *)
Theorem Join_right_of_sorted self keys (L R : list TRow) :
  key_sorted vle keys L → key_sorted vle keys R →
  Join_call vle (RightJoiner self) keys L R
  = Returns (flat_map (λ k, right_rows self keys (key_group keys k L)
                              (key_group keys k R))
               (distinct_keys keys R))
  ∧ StronglySorted (tuple_lt vle) (distinct_keys keys R)
  ∧ (∀ k, k ∈ distinct_keys keys R
          ↔ ∃ row, row ∈ R ∧ grouper keys row = Returns k).
Proof.
  intros HL HR.
  destruct (key_sorted_groups keys L HL) as (ga & _ & Hlta & Hda & _).
  destruct (key_sorted_groups keys R HR) as (gb & _ & Hltb & Hdb & _).
  rewrite Hda in Hlta. rewrite Hdb in Hltb.
  split; [|split; [done|]].
  - rewrite (Join_call_by_key (RightJoiner self) keys L R HL HR).
    rewrite (yield_from_each_ext_in _
               (λ k, Returns (right_rows self keys (key_group keys k L)
                                (key_group keys k R))))
      by (intros k _; apply RightJoiner_group).
    rewrite yield_from_each_flat_map. f_equal. unfold all_keys.
    apply flat_map_merge_keys_r; [done..|].
    intros k _ Hk. destruct HR as (ks & Hks & _).
    rewrite (key_group_absent keys k R ks Hks Hk).
    by destruct (key_group keys k L).
  - intros k. destruct HR as (ks & Hks & _).
    by apply (distinct_keys_elem keys R ks).
Qed.
End Join_by_key.

Section Join_edges.
Context {V : Type} `{EqDecision V}.
Variable vle : V → V → bool.

Local Abbreviation TRow := (list (string * V)).

Local Arguments merge_calls : simpl never.
Local Arguments cross_product : simpl never.

Lemma merge_calls_nil_r (ga : list (list V * list TRow)) :
  merge_calls vle ga [] = (λ kg, (Grouper kg.2, PyList [])) <$> ga.
Proof.
  induction ga as [|[ka a] ga IH]; [done|].
  by rewrite merge_calls_cons_nil, IH.
Qed.

Lemma merge_calls_nil_l (gb : list (list V * list TRow)) :
  merge_calls vle [] gb = (λ kg, (PyList [], Grouper kg.2)) <$> gb.
Proof.
  induction gb as [|[kb b] gb IH]; [done|].
  by rewrite merge_calls_nil_cons, IH.
Qed.

Lemma flat_map_snd_concat {K A} (gs : list (K * list A)) :
  flat_map snd gs = concat gs.*2.
Proof. induction gs as [|[k g] gs IH]; [done|]. simpl. by rewrite IH. Qed.

Lemma flat_map_nil {A B} (xs : list A) : flat_map (λ _, @nil B) xs = [].
Proof. by induction xs. Qed.

Lemma Join_call_nil_r {O}
    (joiner : list string → iterable V → iterable V → outcome (list O))
    keys (rows : list TRow) gs :
  groupby (grouper keys) rows = Returns gs →
  Join_call vle joiner keys rows []
  = yield_from_each (λ kg, joiner keys (Grouper kg.2) (PyList [])) gs.
Proof.
  intros Hgs.
  rewrite (Join_call_calls vle joiner keys rows [] _
             (Join_call_merge vle keys rows [] gs [] Hgs eq_refl)).
  by rewrite merge_calls_nil_r, yield_from_each_fmap.
Qed.

Lemma Join_call_nil_l {O}
    (joiner : list string → iterable V → iterable V → outcome (list O))
    keys (rows : list TRow) gs :
  groupby (grouper keys) rows = Returns gs →
  Join_call vle joiner keys [] rows
  = yield_from_each (λ kg, joiner keys (PyList []) (Grouper kg.2)) gs.
Proof.
  intros Hgs.
  rewrite (Join_call_calls vle joiner keys [] rows _
             (Join_call_merge vle keys [] rows [] gs eq_refl Hgs)).
  by rewrite merge_calls_nil_l, yield_from_each_fmap.
Qed.

(** X19: Join of a stream with an empty stream: the outer joiner and the
    joiner of the side that has the rows hand the stream on unchanged, the
    inner joiner and the joiner of the empty side yield nothing. *)
Theorem Join_empty_side self keys (rows : list TRow) ks :
  projections keys rows = Returns ks →
  Join_call vle (OuterJoiner self) keys rows [] = Returns rows
  ∧ Join_call vle (LeftJoiner self) keys rows [] = Returns rows
  ∧ Join_call vle (InnerJoiner self) keys rows [] = Returns []
  ∧ Join_call vle (RightJoiner self) keys rows [] = Returns []
  ∧ Join_call vle (OuterJoiner self) keys [] rows = Returns rows
  ∧ Join_call vle (RightJoiner self) keys [] rows = Returns rows
  ∧ Join_call vle (InnerJoiner self) keys [] rows = Returns []
  ∧ Join_call vle (LeftJoiner self) keys [] rows = Returns [].
Proof.
  intros Hks. destruct (each_groupby (grouper keys) rows ks Hks) as [gs Hgs].
  pose proof (groupby_concat _ _ _ Hgs) as Hcat.
  assert (yield_from_each (λ kg : list V * list TRow, Returns kg.2) gs
          = Returns rows) as Hkeep.
  { by rewrite (yield_from_each_flat_map snd), flat_map_snd_concat, Hcat. }
  assert (yield_from_each (λ _ : list V * list TRow, Returns (@nil TRow)) gs
          = Returns []) as Hdrop.
  { by rewrite (yield_from_each_flat_map (λ _, [])), flat_map_nil. }
  rewrite !(Join_call_nil_r _ keys rows gs Hgs),
    !(Join_call_nil_l _ keys rows gs Hgs).
  split_and!.
  - rewrite <- Hkeep. by apply yield_from_each_ext_in.
  - rewrite <- Hkeep. by apply yield_from_each_ext_in.
  - rewrite <- Hdrop. apply yield_from_each_ext_in. intros kg _.
    rewrite InnerJoiner_cross_product. simpl. by rewrite cross_product_nil_r.
  - rewrite <- Hdrop. by apply yield_from_each_ext_in.
  - rewrite <- Hkeep. by apply yield_from_each_ext_in.
  - rewrite <- Hkeep. by apply yield_from_each_ext_in.
  - rewrite <- Hdrop. apply yield_from_each_ext_in. intros kg _.
    by rewrite InnerJoiner_cross_product.
  - rewrite <- Hdrop. by apply yield_from_each_ext_in.
Qed.

(** X20: with an empty tuple of key names every row has the same key tuple,
    so that Join of two streams that are not empty makes one joiner call
    with the two whole streams: every joiner yields the cross product of
    the streams, which has a row for every pair. *)
Theorem Join_empty_keys self (L R : list TRow) :
  L ≠ [] → R ≠ [] →
  Join_call vle (InnerJoiner self) [] L R
  = Returns (cross_product self [] L R)
  ∧ Join_call vle (OuterJoiner self) [] L R
    = Returns (cross_product self [] L R)
  ∧ Join_call vle (LeftJoiner self) [] L R
    = Returns (cross_product self [] L R)
  ∧ Join_call vle (RightJoiner self) [] L R
    = Returns (cross_product self [] L R)
  ∧ length (cross_product self [] L R) = length L * length R.
Proof.
  intros HL HR. destruct L as [|a L]; [done|]. destruct R as [|b R]; [done|].
  assert (∀ O (joiner : list string → iterable V → iterable V
                        → outcome (list O)),
            Join_call vle joiner [] (a :: L) (b :: R)
            = joiner [] (Grouper (a :: L)) (Grouper (b :: R))) as Hcall.
  { intros O joiner.
    rewrite (Join_call_calls vle joiner [] (a :: L) (b :: R) _
               (Join_call_merge vle [] (a :: L) (b :: R) _ _
                  (groupby_empty_keys a L) (groupby_empty_keys b R))).
    rewrite merge_calls_cons_cons, decide_True by done.
    rewrite merge_calls_nil_nil.
    exact (yield_from_each_singleton (λ ab, joiner [] ab.1 ab.2) _). }
  rewrite !Hcall. split_and!.
  - apply InnerJoiner_cross_product.
  - unfold OuterJoiner. simpl. by rewrite _inner_join_cross_product.
  - unfold LeftJoiner. simpl. by rewrite _inner_join_cross_product.
  - unfold RightJoiner. simpl. by rewrite _inner_join_cross_product.
  - unfold cross_product. rewrite length_fmap. apply List.length_prod.
Qed.

(** X21: Join never returns a result when a row of either stream lacks a key
    field; with a joiner that returns on every call it raises
    [KeyError]. *)
Theorem Join_missing_key {O}
    (joiner : list string → iterable V → iterable V → outcome (list O))
    keys (rows rows_b : list TRow) row k :
  row ∈ rows ∨ row ∈ rows_b → k ∈ keys → k ∉ dict_keys row →
  (∀ out, Join_call vle joiner keys rows rows_b ≠ Returns out)
  ∧ ((∀ rows_a rows_b, ∃ out, joiner keys rows_a rows_b = Returns out) →
     Join_call vle joiner keys rows rows_b = Raises KeyError).
Proof.
  intros Hrow Hk Hmiss.
  assert (∀ O (joiner : list string → iterable V → iterable V
                        → outcome (list O)),
            Join_call vle joiner keys rows rows_b = Raises KeyError) as Hraise.
  { intros O' joiner'. unfold Join_call.
    destruct Hrow as [Hrow|Hrow].
    - by rewrite (groupby_missing_key keys rows row k Hrow Hk Hmiss).
    - destruct (groupby (grouper keys) rows) as [ga|e|] eqn:Hga; simpl.
      + by rewrite (groupby_missing_key keys rows_b row k Hrow Hk Hmiss).
      + f_equal. by eapply groupby_keys_raises.
      + exfalso. revert Hga. apply groupby_ends. intros y.
        apply each_getitem_ends. }
  split; [|intros _; apply Hraise]. intros out. by rewrite Hraise.
Qed.
End Join_edges.

Lemma players_left_sorted : key_sorted Z.leb ["player_id"] players_left.
Proof.
  exists [[1]; [1]; [2]; [4]]%Z. split; [reflexivity|]. repeat constructor.
Defined.

Lemma players_right_sorted : key_sorted Z.leb ["player_id"] players_right.
Proof.
  exists [[0]; [1]; [1]; [4]; [5]]%Z. split; [reflexivity|].
  repeat constructor.
Defined.

Lemma Join_calls_by_key_witness :
  key_sorted Z.leb ["player_id"] players_left
  ∧ key_sorted Z.leb ["player_id"] players_right
  ∧ Join_call Z.leb (λ _ rows_a rows_b, Returns [(rows_a, rows_b)])
      ["player_id"] players_left players_right
    = yield_from_each
        (λ k, Returns [(group_or_empty (key_group ["player_id"] k players_left),
                        group_or_empty (key_group ["player_id"] k players_right))])
        (all_keys Z.leb ["player_id"] players_left players_right).
Proof.
  split; [exact players_left_sorted|]. split; [exact players_right_sorted|].
  exact (proj1 (Join_calls_by_key Z.leb
                  (λ _ rows_a rows_b, Returns [(rows_a, rows_b)])
                  ["player_id"] players_left players_right
                  players_left_sorted players_right_sorted)).
Defined.

Lemma Join_outer_of_sorted_witness :
  key_sorted Z.leb ["player_id"] players_left
  ∧ key_sorted Z.leb ["player_id"] players_right
  ∧ Join_call Z.leb (OuterJoiner Joiner_init) ["player_id"]
      players_left players_right
    = Returns
        (flat_map (λ k, outer_rows Joiner_init ["player_id"]
                          (key_group ["player_id"] k players_left)
                          (key_group ["player_id"] k players_right))
           (all_keys Z.leb ["player_id"] players_left players_right)).
Proof.
  split; [exact players_left_sorted|]. split; [exact players_right_sorted|].
  exact (proj1 (Join_outer_of_sorted Z.leb Joiner_init ["player_id"]
                  players_left players_right
                  players_left_sorted players_right_sorted)).
Defined.

Lemma Join_left_of_sorted_witness :
  key_sorted Z.leb ["player_id"] players_left
  ∧ key_sorted Z.leb ["player_id"] players_right
  ∧ Join_call Z.leb (LeftJoiner Joiner_init) ["player_id"]
      players_left players_right
    = Returns
        (flat_map (λ k, left_rows Joiner_init ["player_id"]
                          (key_group ["player_id"] k players_left)
                          (key_group ["player_id"] k players_right))
           (distinct_keys ["player_id"] players_left)).
Proof.
  split; [exact players_left_sorted|]. split; [exact players_right_sorted|].
  exact (proj1 (Join_left_of_sorted Z.leb Joiner_init ["player_id"]
                  players_left players_right
                  players_left_sorted players_right_sorted)).
Defined.

Lemma Join_right_of_sorted_witness :
  key_sorted Z.leb ["player_id"] players_left
  ∧ key_sorted Z.leb ["player_id"] players_right
  ∧ Join_call Z.leb (RightJoiner Joiner_init) ["player_id"]
      players_left players_right
    = Returns
        (flat_map (λ k, right_rows Joiner_init ["player_id"]
                          (key_group ["player_id"] k players_left)
                          (key_group ["player_id"] k players_right))
           (distinct_keys ["player_id"] players_right)).
Proof.
  split; [exact players_left_sorted|]. split; [exact players_right_sorted|].
  exact (proj1 (Join_right_of_sorted Z.leb Joiner_init ["player_id"]
                  players_left players_right
                  players_left_sorted players_right_sorted)).
Defined.

Lemma Join_empty_side_witness :
  projections ["player_id"] players_left = Returns [[1]; [1]; [2]; [4]]%Z
  ∧ Join_call Z.leb (OuterJoiner Joiner_init) ["player_id"] players_left []
    = Returns players_left.
Proof.
  assert (projections ["player_id"] players_left
          = Returns [[1]; [1]; [2]; [4]]%Z) as Hks by reflexivity.
  split; [exact Hks|].
  exact (proj1 (Join_empty_side Z.leb Joiner_init ["player_id"] players_left
                  _ Hks)).
Defined.

Lemma Join_empty_keys_witness :
  players_left ≠ [] ∧ players_right ≠ []
  ∧ Join_call Z.leb (InnerJoiner Joiner_init) [] players_left players_right
    = Returns (cross_product Joiner_init [] players_left players_right).
Proof.
  assert (players_left ≠ []) as HL by discriminate.
  assert (players_right ≠ []) as HR by discriminate.
  split; [exact HL|]. split; [exact HR|].
  exact (proj1 (Join_empty_keys Z.leb Joiner_init players_left players_right
                  HL HR)).
Defined.

Lemma Join_missing_key_witness :
  (nameless ∈ players_left ∨ nameless ∈ [nameless])
  ∧ "player_id" ∈ ["player_id"] ∧ ("player_id" ∉ dict_keys nameless)
  ∧ Join_call Z.leb (λ _ rows_a rows_b, Returns [(rows_a, rows_b)])
      ["player_id"] players_left [nameless] = Raises KeyError.
Proof.
  assert (nameless ∈ players_left ∨ nameless ∈ [nameless]) as Hrow
    by (right; by apply (list_elem_of_lookup_2 _ 0)).
  assert ("player_id" ∈ ["player_id"]) as Hk
    by (by apply (list_elem_of_lookup_2 _ 0)).
  assert ("player_id" ∉ dict_keys nameless) as Hmiss.
  { intros H. unfold dict_keys, nameless in H. simpl in H.
    repeat (apply elem_of_cons in H as [H|H]; [discriminate|]).
    by apply elem_of_nil in H. }
  split; [exact Hrow|]. split; [exact Hk|]. split; [exact Hmiss|].
  apply (Join_missing_key Z.leb
           (λ _ rows_a rows_b, Returns [(rows_a, rows_b)])
           ["player_id"] players_left [nameless] nameless "player_id"
           Hrow Hk Hmiss).
  intros rows_a rows_b. by eexists.
Defined.

(** ** Running the graphs the builder returns *)

Lemma outcome_bind_Returns {A} (m : outcome A) : (x ← m; Returns x) = m.
Proof. by destruct m. Qed.

Lemma outcome_bind_assoc {A B C} (m : outcome A) (f : A → outcome B)
    (g : B → outcome C) :
  (y ← (x ← m; f x); g y) = (x ← m; y ← f x; g y).
Proof. by destruct m. Qed.

Section run_facts.
Context {V : Type} `{EqDecision V}.
Variable vle : V → V → bool.
Variable run_size : nat.
Variable files : gmap string (list string).

Local Abbreviation TRow := (list (string * V)).

Lemma run_operations_app
    (rg : @Graph V → gmap string (list TRow) → outcome (list TRow))
    ops1 ops2 current kwargs :
  run_operations vle run_size rg (ops1 ++ ops2) current kwargs
  = (mid ← run_operations vle run_size rg ops1 current kwargs;
     run_operations vle run_size rg ops2 mid kwargs).
Proof.
  revert current. induction ops1 as [|op ops1 IH]; intros current; [done|].
  simpl. destruct (call_operation vle run_size rg op current kwargs);
    simpl; [apply IH|done..].
Qed.

Lemma run_source_slots (g g' : @Graph V) kwargs :
  source_type g' = source_type g → source g' = source g →
  parser g' = parser g → fabric g' = fabric g →
  run_source files g' kwargs = run_source files g kwargs.
Proof. unfold run_source. by intros -> -> -> ->. Qed.

Lemma run_unfold fuel σ (self : @Graph V) kwargs ops :
  σ !! operations self = Some ops →
  run vle run_size files (S fuel) σ self kwargs
  = (current_generator ← run_source files self kwargs;
     run_operations vle run_size (run vle run_size files fuel σ) ops
       current_generator kwargs).
Proof. intros Hops. simpl. by rewrite Hops. Qed.

Lemma call_operation_ext
    (rg rg' : @Graph V → gmap string (list TRow) → outcome (list TRow))
    operation current kwargs :
  (∀ joiner g keys, operation = join_op joiner g keys →
     rg' g kwargs = rg g kwargs) →
  call_operation vle run_size rg' operation current kwargs
  = call_operation vle run_size rg operation current kwargs.
Proof.
  intros Hrg. destruct operation as [m|r ks|ks|j g ks]; simpl; try done.
  by rewrite (Hrg j g ks).
Qed.

Lemma build_all_store (self : @Graph V) calls σ ops :
  σ !! operations self = Some ops →
  (build_all self calls σ).2 !! operations (build_all self calls σ).1
  = Some (ops ++ (new_stage <$> calls))
  ∧ (∀ l, is_Some (σ !! l) → (build_all self calls σ).2 !! l = σ !! l)
  ∧ source_type (build_all self calls σ).1 = source_type self
  ∧ source (build_all self calls σ).1 = source self
  ∧ parser (build_all self calls σ).1 = parser self
  ∧ fabric (build_all self calls σ).1 = fabric self.
Proof.
  unfold build_all. revert self σ ops.
  induction calls as [|call calls IH]; intros self σ ops Hops.
  - simpl. by rewrite app_nil_r.
  - cbn [foldl fst snd].
    destruct (build_store self call σ) as (Hl & Hσ & Htype & Hsource & Hp & Hf).
    pose proof (fresh_loc_unused σ) as Hfresh.
    destruct (build self call σ) as [g1 σ1]. cbn [fst snd] in *.
    assert (σ1 !! operations g1 = Some (ops ++ [new_stage call])) as Hops'.
    { rewrite Hl, Hσ, Hops. simpl. by rewrite lookup_insert_eq. }
    destruct (IH g1 σ1 _ Hops')
      as (Hlast & Hkeep & Htype' & Hsource' & Hp' & Hf').
    split; [|split; [|split; [|split; [|split]]]].
    + rewrite Hlast, fmap_cons. by rewrite <- app_assoc.
    + assert (∀ l, is_Some (σ !! l) → σ1 !! l = σ !! l) as Hσ1.
      { intros l Hsome. rewrite Hσ. apply lookup_insert_ne. intros <-.
        rewrite Hfresh in Hsome. by destruct Hsome. }
      intros l Hsome. rewrite Hkeep; [by apply Hσ1|].
      by rewrite Hσ1.
    + congruence.
    + congruence.
    + congruence.
    + congruence.
Qed.

Lemma run_build_all fuel σ (self : @Graph V) calls kwargs ops :
  σ !! operations self = Some ops → store_closed σ →
  run vle run_size files (S fuel) (build_all self calls σ).2
    (build_all self calls σ).1 kwargs
  = (rows ← run vle run_size files (S fuel) σ self kwargs;
     run_operations vle run_size
       (run vle run_size files fuel (build_all self calls σ).2)
       (new_stage <$> calls) rows kwargs).
Proof.
  intros Hops Hclosed.
  destruct (build_all_store self calls σ ops Hops)
    as (Hlast & Hkeep & Htype & Hsource & Hp & Hf).
  rewrite (run_unfold fuel _ _ kwargs _ Hlast),
    (run_unfold fuel _ _ kwargs _ Hops).
  rewrite (run_source_slots self _ kwargs Htype Hsource Hp Hf).
  rewrite outcome_bind_assoc.
  destruct (run_source files self kwargs) as [current| |]; simpl; [|done..].
  rewrite run_operations_app. f_equal.
  apply (run_operations_ext _ _ _ _ (λ g, is_Some (σ !! operations g))).
  - intros g kw Hg. by apply run_ext.
  - intros j g ks Hin. by eapply Hclosed.
Qed.

Lemma run_build fuel σ (self : @Graph V) call kwargs ops :
  σ !! operations self = Some ops → store_closed σ →
  (∀ joiner join_graph keys, call = call_join joiner join_graph keys →
     is_Some (σ !! operations join_graph)) →
  run vle run_size files (S fuel) (build self call σ).2
    (build self call σ).1 kwargs
  = (rows ← run vle run_size files (S fuel) σ self kwargs;
     call_operation vle run_size (run vle run_size files fuel σ)
       (new_stage call) rows kwargs).
Proof.
  intros Hops Hclosed Hjoin.
  pose proof (run_build_all fuel σ self [call] kwargs ops Hops Hclosed) as Hrun.
  unfold build_all in Hrun. cbn [foldl fst snd] in Hrun.
  rewrite Hrun. clear Hrun.
  destruct (run vle run_size files (S fuel) σ self kwargs) as [rows| |];
    simpl; [|done..].
  rewrite outcome_bind_Returns.
  apply call_operation_ext. intros joiner g keys Hstage.
  apply run_ext; [done| |].
  - destruct (build_store self call σ) as (_ & -> & _).
    intros l Hsome. apply lookup_insert_ne. intros <-.
    rewrite fresh_loc_unused in Hsome. by destruct Hsome.
  - destruct call; try done. simpl in Hstage. injection Hstage as <- <- <-.
    by eapply Hjoin.
Qed.

(** X22: a graph straight from [graph_from_iter] has no stage: its run
    returns the rows of the input it is named after, as they are. *)
Theorem run_graph_from_iter name σ fuel
    (kwargs : gmap string (list TRow)) rows :
  kwargs !! name = Some rows →
  run vle run_size files (S fuel) (graph_from_iter name σ).2
    (graph_from_iter name σ).1 kwargs
  = Returns rows.
Proof.
  intros Hrows. simpl. unfold run_source. simpl.
  rewrite Hrows. simpl.
  by rewrite lookup_insert_eq.
Qed.

(** X23: a graph straight from [graph_from_file] returns the parsed lines of
    its file, in order, whatever the named inputs are; it raises [OSError]
    when the file cannot be opened and the parser's exception when a line
    does not parse. *)
Theorem run_graph_from_file filename parse σ fuel
    (kwargs : gmap string (list TRow)) :
  run vle run_size files (S fuel) (graph_from_file filename parse σ).2
    (graph_from_file filename parse σ).1 kwargs
  = match files !! filename with
    | Some lines => each parse lines
    | None => Raises OSError
    end.
Proof.
  simpl. unfold run_source. simpl.
  rewrite lookup_insert_eq. simpl.
  destruct (files !! filename) as [lines|]; [|done].
  by destruct (each parse lines).
Qed.


(** X25: a graph extended by [map] with the dummy mapper runs as the graph it
    was built from. *)
Theorem Graph_map_DummyMapper fuel σ (self : @Graph V) kwargs ops :
  σ !! operations self = Some ops → store_closed σ →
  run vle run_size files (S fuel) (Graph_map self DummyMapper σ).2
    (Graph_map self DummyMapper σ).1 kwargs
  = run vle run_size files (S fuel) σ self kwargs.
Proof.
  intros Hops Hclosed.
  change (Graph_map self DummyMapper σ)
    with (build self (call_map DummyMapper) σ).
  rewrite (run_build fuel σ self (call_map DummyMapper) kwargs ops Hops Hclosed)
    by done.
  destruct (run vle run_size files (S fuel) σ self kwargs) as [rows| |];
    simpl; [|done..].
  apply yield_from_each_record.
Qed.


(** X27: two graphs built from the same graph do not share their lists of
    stages: after the second builder call the first graph built has the
    stages it was given, the second has its own, and the common receiver
    has the stages it had. *)
Theorem Graph_branches_independent σ (self : @Graph V) call1 call2 ops :
  σ !! operations self = Some ops →
  let g1 := (build self call1 σ).1 in
  let σ1 := (build self call1 σ).2 in
  let g2 := (build self call2 σ1).1 in
  let σ2 := (build self call2 σ1).2 in
  operations g1 ≠ operations g2
  ∧ operations g1 ≠ operations self
  ∧ operations g2 ≠ operations self
  ∧ σ2 !! operations g1 = Some (ops ++ [new_stage call1])
  ∧ σ2 !! operations g2 = Some (ops ++ [new_stage call2])
  ∧ σ2 !! operations self = Some ops.
Proof.
  intros Hops g1 σ1 g2 σ2.
  destruct (build_store self call1 σ) as (Hl1 & Hσ1 & _).
  destruct (build_store self call2 σ1) as (Hl2 & Hσ2 & _).
  fold g1 σ1 in Hl1, Hσ1. fold g2 σ2 in Hl2, Hσ2.
  pose proof (fresh_loc_unused σ) as Hfresh.
  pose proof (fresh_loc_unused σ1) as Hfresh1.
  assert (operations self ≠ fresh (dom σ)) as Hne by congruence.
  assert (σ1 !! operations self = Some ops) as Hops1.
  { rewrite Hσ1. by rewrite lookup_insert_ne. }
  assert (σ1 !! operations g1 = Some (ops ++ [new_stage call1])) as Hg1.
  { rewrite Hl1, Hσ1, Hops. simpl. by rewrite lookup_insert_eq. }
  assert (operations self ≠ fresh (dom σ1)) as Hne1 by congruence.
  assert (operations g1 ≠ fresh (dom σ1)) as Hne2 by congruence.
  split_and!.
  - by rewrite Hl2.
  - rewrite Hl1. done.
  - rewrite Hl2. done.
  - rewrite Hσ2. by rewrite lookup_insert_ne.
  - rewrite Hl2, Hσ2, Hops1. simpl. by rewrite lookup_insert_eq.
  - rewrite Hσ2. by rewrite lookup_insert_ne.
Qed.
End run_facts.

Lemma docs_graph_closed : store_closed docs_graph.2.
Proof.
  intros l ops joiner join_graph keys Hl Hin. simpl in Hl.
  apply lookup_insert_Some in Hl as [[_ <-]|[_ Hl]]; [by inv Hin|done].
Defined.

Lemma run_graph_from_iter_witness :
  ({["docs" := players_left]} : gmap string (list (list (string * Z))))
    !! "docs" = Some players_left
  ∧ run Z.leb 2 ∅ 1 (graph_from_iter "docs" ∅).2 (graph_from_iter "docs" ∅).1
      {["docs" := players_left]} = Returns players_left.
Proof.
  assert (({["docs" := players_left]}
             : gmap string (list (list (string * Z))))
            !! "docs" = Some players_left) as Hrows by reflexivity.
  split; [exact Hrows|].
  apply (run_graph_from_iter Z.leb 2 ∅ "docs" ∅ 0 _ players_left Hrows).
Defined.


Lemma Graph_map_DummyMapper_witness :
  docs_graph.2 !! operations docs_graph.1 = Some []
  ∧ store_closed docs_graph.2
  ∧ run Z.leb 2 ∅ 1 (Graph_map docs_graph.1 DummyMapper docs_graph.2).2
      (Graph_map docs_graph.1 DummyMapper docs_graph.2).1
      {["docs" := players_left]}
    = run Z.leb 2 ∅ 1 docs_graph.2 docs_graph.1 {["docs" := players_left]}.
Proof.
  assert (docs_graph.2 !! operations docs_graph.1 = Some []) as Hops
    by reflexivity.
  split; [exact Hops|]. split; [exact docs_graph_closed|].
  apply (Graph_map_DummyMapper Z.leb 2 ∅ 0 docs_graph.2 docs_graph.1
           {["docs" := players_left]} [] Hops docs_graph_closed).
Defined.


Lemma Graph_branches_independent_witness :
  docs_graph.2 !! operations docs_graph.1 = Some []
  ∧ operations (build docs_graph.1 (call_map DummyMapper) docs_graph.2).1
    ≠ operations
        (build docs_graph.1 (call_sort ["player_id"])
           (build docs_graph.1 (call_map DummyMapper) docs_graph.2).2).1.
Proof.
  assert (docs_graph.2 !! operations docs_graph.1 = Some []) as Hops
    by reflexivity.
  split; [exact Hops|].
  exact (proj1 (Graph_branches_independent docs_graph.2 docs_graph.1
                  (call_map DummyMapper) (call_sort ["player_id"]) [] Hops)).
Defined.

(** ** The reducer [TopN] *)

Section TopN_facts.
Context {V : Type}.
Variable vle : V → V → bool.
Context `{!EqDecision V, !TotalOrderB vle}.

Local Abbreviation TRow := (list (string * V)).
Local Abbreviation ge := (λ x y : V * TRow, vle y.1 x.1 = true).

Lemma each_keyed_column column (rows : list TRow) vs :
  each (λ row, getitem row column) rows = Returns vs →
  ∃ keyed,
    each (λ row, v ← getitem row column; Returns (v, row)) rows
      = Returns keyed
    ∧ keyed.*2 = rows ∧ keyed.*1 = vs
    ∧ Forall (λ p, getitem p.2 column = Returns p.1) keyed.
Proof.
  revert vs. induction rows as [|row rows IH]; intros vs.
  - intros [= <-]. by exists [].
  - intros (v & vs' & -> & Hv & Hvs)%each_cons_Returns.
    destruct (IH vs' Hvs) as (keyed & Hkeyed & Hrows & Hvals & Hall).
    exists ((v, row) :: keyed). simpl. rewrite Hv. simpl. rewrite Hkeyed. simpl.
    split; [done|]. split; [f_equal; exact Hrows|].
    split; [f_equal; exact Hvals|].
    by constructor.
Qed.

Lemma insert_reverse_perm x (l : list (V * TRow)) :
  insert_reverse vle x l ≡ₚ x :: l.
Proof.
  induction l as [|y l IH]; [done|]. simpl.
  destruct (vle y.1 x.1); [done|]. by rewrite IH, Permutation_swap.
Qed.

Lemma insert_reverse_sorted x (l : list (V * TRow)) :
  StronglySorted ge l → StronglySorted ge (insert_reverse vle x l).
Proof.
  induction 1 as [|y l Hl IH Hall]; simpl.
  - repeat constructor.
  - destruct (vle y.1 x.1) eqn:Hyx.
    + constructor; [by constructor|]. constructor; [done|].
      eapply Forall_impl; [done|]. intros z Hz. simpl in *.
      by eapply (vle_trans vle).
    + constructor; [done|]. rewrite insert_reverse_perm.
      constructor; [|done]. simpl.
      destruct (vle_total vle x.1 y.1); [done|congruence].
Qed.

Lemma sorted_reverse_perm (keyed : list (V * TRow)) :
  sorted_reverse vle keyed ≡ₚ keyed.
Proof.
  induction keyed as [|x keyed IH]; [done|]. simpl.
  by rewrite insert_reverse_perm, IH.
Qed.

Lemma sorted_reverse_sorted (keyed : list (V * TRow)) :
  StronglySorted ge (sorted_reverse vle keyed).
Proof.
  induction keyed as [|x keyed IH]; [constructor|].
  by apply insert_reverse_sorted.
Qed.

(** X28: [TopN] with a positive [n] yields the [n] rows of its group that have
    the largest values in the column (all rows when there are fewer), in
    descending order of that value; with [n] below one it yields nothing. *)
Theorem TopN_largest column n group_key (rows : list TRow) vs :
  each (λ row, getitem row column) rows = Returns vs → (0 < n)%Z →
  ∃ top rest : list (V * TRow),
    TopN vle column n group_key rows = Returns top.*2
    ∧ (top ++ rest).*2 ≡ₚ rows
    ∧ Forall (λ p, getitem p.2 column = Returns p.1) (top ++ rest)
    ∧ length top = min (Z.to_nat n) (length rows)
    ∧ StronglySorted ge top
    ∧ (∀ x y, x ∈ top → y ∈ rest → vle y.1 x.1 = true)
    ∧ (∀ m, (m ≤ 0)%Z → TopN vle column m group_key rows = Returns []).
Proof.
  intros Hvs Hn.
  destruct (each_keyed_column column rows vs Hvs)
    as (keyed & Hkeyed & Hrows & _ & Hall).
  pose proof (sorted_reverse_perm keyed) as Hperm.
  pose proof (sorted_reverse_sorted keyed) as Hsorted.
  exists (take (Z.to_nat n) (sorted_reverse vle keyed)),
    (drop (Z.to_nat n) (sorted_reverse vle keyed)).
  rewrite take_drop. split_and!.
  - unfold TopN, nlargest. rewrite (proj2 (Z.leb_gt n 0)) by done.
    rewrite Hkeyed. simpl. apply yield_from_each_record.
  - by rewrite Hperm, Hrows.
  - by rewrite Hperm.
  - rewrite length_take, Hperm, <- Hrows. by rewrite length_fmap.
  - rewrite <- (take_drop (Z.to_nat n)) in Hsorted.
    by apply StronglySorted_app_1_l in Hsorted.
  - intros x y Hx Hy.
    rewrite <- (take_drop (Z.to_nat n)) in Hsorted.
    by eapply StronglySorted_app_1_elem_of in Hsorted.
  - intros m Hm. unfold TopN, nlargest.
    by rewrite (proj2 (Z.leb_le m 0)) by done.
Qed.
End TopN_facts.

(** ** The mappers that rewrite a column: failures and repetition *)

Lemma dict_set_set {V} (d : list (string * V)) k v v' :
  dict_set (dict_set d k v) k v' = dict_set d k v'.
Proof.
  induction d as [|[k' w] d IH]; simpl.
  - by rewrite decide_True.
  - destruct (decide (k = k')) as [->|Hne]; simpl.
    + by rewrite decide_True.
    + rewrite decide_False by done. by rewrite IH.
Qed.

Lemma remove_punctuation_twice s :
  remove_punctuation (remove_punctuation s) = remove_punctuation s.
Proof.
  induction s as [|c s IH]; [done|]. simpl.
  destruct (is_punctuation c) eqn:Hc; [done|]. simpl. by rewrite Hc, IH.
Qed.

Section column_mappers_more.
Variable str_lower : string → string.

Local Abbreviation TRow := (list (string * pyval)).

Lemma rewrite_column_missing method column row (h : gmap loc TRow) d :
  h !! row = Some d → column ∉ dict_keys d →
  rewrite_column method column row h = (Raises KeyError, h).
Proof.
  intros Hrow Hmiss. unfold rewrite_column. rewrite Hrow. simpl.
  unfold getitem. destruct (dict_get d column) as [v|] eqn:Hv; [|done].
  destruct Hmiss. by eapply dict_get_Some_in.
Qed.

Lemma rewrite_column_not_str method column row (h : gmap loc TRow) d v :
  h !! row = Some d → dict_get d column = Some v → (∀ s, v ≠ PyStr s) →
  rewrite_column method column row h = (Raises AttributeError, h).
Proof.
  intros Hrow Hv Hstr. unfold rewrite_column. rewrite Hrow. simpl.
  unfold getitem. rewrite Hv. simpl. destruct v; try done.
  by destruct (Hstr s).
Qed.

(** X29: [FilterPunctuation] and [LowerCase] raise [KeyError] on a row
    without the column and [AttributeError] on a row whose column holds
    an integer or a boolean; the row is then left as it was. *)
Theorem column_mappers_fail_unchanged column row (h : gmap loc TRow) d :
  h !! row = Some d →
  (column ∉ dict_keys d →
     FilterPunctuation column row h = (Raises KeyError, h)
     ∧ LowerCase str_lower column row h = (Raises KeyError, h))
  ∧ (∀ v, dict_get d column = Some v → (∀ s, v ≠ PyStr s) →
       FilterPunctuation column row h = (Raises AttributeError, h)
       ∧ LowerCase str_lower column row h = (Raises AttributeError, h)).
Proof.
  intros Hrow. unfold FilterPunctuation, LowerCase. split.
  - intros Hmiss. by rewrite !(rewrite_column_missing _ column row h d).
  - intros v Hv Hstr.
    by rewrite !(rewrite_column_not_str _ column row h d v).
Qed.

(** X30: [FilterPunctuation] applied a second time to the same row changes
    nothing: the string it leaves has no punctuation to remove. *)
Theorem FilterPunctuation_twice column row (h : gmap loc TRow) d s :
  h !! row = Some d → dict_get d column = Some (PyStr s) →
  FilterPunctuation column row (FilterPunctuation column row h).2
  = (Returns [row], (FilterPunctuation column row h).2)
  ∧ remove_punctuation (remove_punctuation s) = remove_punctuation s.
Proof.
  intros Hrow Hs. unfold FilterPunctuation.
  rewrite (rewrite_column_str _ column row h d s Hrow Hs). simpl.
  rewrite (rewrite_column_str remove_punctuation column row _
             (dict_set d column (PyStr (remove_punctuation s)))
             (remove_punctuation s)).
  - rewrite remove_punctuation_twice, dict_set_set, insert_insert_eq. done.
  - apply lookup_insert_eq.
  - apply dict_get_set_eq.
Qed.
End column_mappers_more.

Lemma TopN_largest_witness :
  each (λ row, getitem row "username") players_left
    = Returns [10; 11; 20; 40]%Z
  ∧ (0 < 2)%Z
  ∧ ∃ top rest : list (Z * list (string * Z)),
      TopN Z.leb "username" 2 ["player_id"] players_left = Returns top.*2
      ∧ length top = min (Z.to_nat 2) (length players_left).
Proof.
  assert (each (λ row, getitem row "username") players_left
          = Returns [10; 11; 20; 40]%Z) as Hvs by reflexivity.
  assert (0 < 2)%Z as Hn by reflexivity.
  split; [exact Hvs|]. split; [exact Hn|].
  destruct (TopN_largest Z.leb "username" 2 ["player_id"] players_left _
              Hvs Hn) as (top & rest & Htop & _ & _ & Hlen & _).
  exists top, rest. by split.
Defined.

Lemma column_mappers_fail_unchanged_witness :
  doc_heap !! 1%positive
    = Some [("doc_id", PyInt 1); ("text", PyStr "Hello, my little WORLD")]
  ∧ (∀ v, dict_get [("doc_id", PyInt 1);
                    ("text", PyStr "Hello, my little WORLD")] "doc_id"
          = Some v →
          (∀ s, v ≠ PyStr s) →
          FilterPunctuation "doc_id" 1%positive doc_heap
          = (Raises AttributeError, doc_heap)
          ∧ LowerCase lower_ascii "doc_id" 1%positive doc_heap
            = (Raises AttributeError, doc_heap)).
Proof.
  assert (doc_heap !! 1%positive
          = Some [("doc_id", PyInt 1); ("text", PyStr "Hello, my little WORLD")])
    as Hrow by reflexivity.
  split; [exact Hrow|].
  exact (proj2 (column_mappers_fail_unchanged lower_ascii "doc_id" 1%positive
                  doc_heap _ Hrow)).
Defined.

Lemma FilterPunctuation_twice_witness :
  doc_heap !! 1%positive
    = Some [("doc_id", PyInt 1); ("text", PyStr "Hello, my little WORLD")]
  ∧ dict_get [("doc_id", PyInt 1); ("text", PyStr "Hello, my little WORLD")]
      "text" = Some (PyStr "Hello, my little WORLD")
  ∧ FilterPunctuation "text" 1%positive
      (FilterPunctuation "text" 1%positive doc_heap).2
    = (Returns [1%positive], (FilterPunctuation "text" 1%positive doc_heap).2).
Proof.
  assert (doc_heap !! 1%positive
          = Some [("doc_id", PyInt 1); ("text", PyStr "Hello, my little WORLD")])
    as Hrow by reflexivity.
  assert (dict_get [("doc_id", PyInt 1);
                    ("text", PyStr "Hello, my little WORLD")] "text"
          = Some (PyStr "Hello, my little WORLD")) as Hs by reflexivity.
  split; [exact Hrow|]. split; [exact Hs|].
  exact (proj1 (FilterPunctuation_twice "text" 1%positive doc_heap _ _
                  Hrow Hs)).
Defined.
